(** * whatidid: discovery filters, rate-limit policy, cache and feature clustering

    A shallow embedding of the parts of the whatidid CLI that decide which
    pull requests are collected ([src/unnamed/part_000], [src/src/github/client.ts]),
    how API responses are cached ([src/src/cache.ts]) and how per-PR features
    are clustered ([src/src/domain/grouping.ts]).

    Modelling conventions:
    - JS strings are Stdlib [string]s (lists of 8-bit characters): the
      strings whose characters lie in U+0000-U+00FF; the programs' inputs
      here (repo names, branch names, dates, titles) are of this kind, and
      [toLowerCase] is modelled on these characters.
    - JS numbers that hold integers (PR numbers, epoch milliseconds) are [Z];
      the similarity scores of the clustering engine are exact rationals [Q].
    - [new Date(s)] is [parse_date s]: [Some ms] for a valid date, [None] for
      an Invalid Date (whose time value is NaN). *)

From Stdlib Require Import ZArith QArith String Ascii List Bool Lia.
From Stdlib Require Import Sorting.Sorted Sorting.Permutation DecimalString DecimalZ.
Import ListNotations.

Open Scope Z_scope.

(* ------------------------------------------------------------------ *)
(** ** Characters and strings *)

Definition ascii_eqb (a b : ascii) : bool := Ascii.eqb a b.

(** [String.prototype.toLowerCase] on the characters U+0000-U+00FF: the
    upper-case letters [A-Z], U+00C0-U+00D6 and U+00D8-U+00DE map 32 code
    points up, every other character is left as it is. *)
Definition lower_char (c : ascii) : ascii :=
  let n := nat_of_ascii c in
  if ((65 <=? n)%nat && (n <=? 90)%nat) || ((192 <=? n)%nat && (n <=? 222)%nat && negb (n =? 215)%nat)
  then ascii_of_nat (n + 32) else c.

Fixpoint toLowerCase (s : string) : string :=
  match s with
  | EmptyString => EmptyString
  | String c r => String (lower_char c) (toLowerCase r)
  end.

(** [s.startsWith(p)]. *)
Definition startsWith (s p : string) : bool := String.prefix p s.

(** [xs.includes(x)] on an array of strings. *)
Definition includes (xs : list string) (x : string) : bool :=
  existsb (String.eqb x) xs.

(** [s.split('/')[0]]: the text before the first ['/'] (all of [s] when
    there is none). *)
Fixpoint split_slash_first (s : string) : string :=
  match s with
  | EmptyString => EmptyString
  | String c r =>
      if ascii_eqb c "/"%char then EmptyString
      else String c (split_slash_first r)
  end.

(* ------------------------------------------------------------------ *)
(** ** Dates: [new Date(s)] on the ISO forms the program handles

    The CLI validates [--since]/[--until] as [YYYY-MM-DD] (date-only forms are
    read as UTC midnight), and GitHub returns [mergedAt] and friends as
    [YYYY-MM-DDTHH:MM:SSZ] (optionally with [.sss] milliseconds).  Any other
    string is treated as an Invalid Date. *)

Definition digit_val (c : ascii) : option Z :=
  let n := nat_of_ascii c in
  if (48 <=? n)%nat && (n <=? 57)%nat then Some (Z.of_nat n - 48) else None.

(** Read exactly [n] decimal digits. *)
Fixpoint read_digits (n : nat) (acc : Z) (s : string) : option (Z * string) :=
  match n with
  | O => Some (acc, s)
  | S n' =>
      match s with
      | EmptyString => None
      | String c r =>
          match digit_val c with
          | Some d => read_digits n' (acc * 10 + d) r
          | None => None
          end
      end
  end.

Definition read_char (c : ascii) (s : string) : option string :=
  match s with
  | String c' r => if ascii_eqb c c' then Some r else None
  | EmptyString => None
  end.

(** Days since 1970-01-01 of a proleptic Gregorian civil date. *)
Definition days_from_civil (y m d : Z) : Z :=
  let y' := if m <=? 2 then y - 1 else y in
  let era := y' / 400 in
  let yoe := y' - era * 400 in
  let mp := if 2 <? m then m - 3 else m + 9 in
  let doy := (153 * mp + 2) / 5 + d - 1 in
  let doe := yoe * 365 + yoe / 4 - yoe / 100 + doy in
  era * 146097 + doe - 719468.

Definition ms_per_day : Z := 86400000.

Definition parse_time_part (s : string) : option Z :=
  match s with
  | EmptyString => Some 0
  | _ =>
    match read_char "T"%char s with
    | None => None
    | Some s =>
    match read_digits 2 0 s with
    | None => None
    | Some (hh, s) =>
    match read_char ":"%char s with
    | None => None
    | Some s =>
    match read_digits 2 0 s with
    | None => None
    | Some (mi, s) =>
    match read_char ":"%char s with
    | None => None
    | Some s =>
    match read_digits 2 0 s with
    | None => None
    | Some (ss, s) =>
      let ms_and_rest :=
        match read_char "."%char s with
        | Some s' => match read_digits 3 0 s' with
                     | Some (ms, s'') => Some (ms, s'')
                     | None => None
                     end
        | None => Some (0, s)
        end in
      match ms_and_rest with
      | Some (ms, "Z"%string) =>
          if (hh <=? 23) && (mi <=? 59) && (ss <=? 59)
          then Some (((hh * 60 + mi) * 60 + ss) * 1000 + ms)
          else None
      | _ => None
      end
    end end end end end end
  end.

Definition parse_date (s : string) : option Z :=
  match read_digits 4 0 s with
  | None => None
  | Some (y, s) =>
  match read_char "-"%char s with
  | None => None
  | Some s =>
  match read_digits 2 0 s with
  | None => None
  | Some (m, s) =>
  match read_char "-"%char s with
  | None => None
  | Some s =>
  match read_digits 2 0 s with
  | None => None
  | Some (d, s) =>
    if (1 <=? m) && (m <=? 12) && (1 <=? d) && (d <=? 31) then
      match parse_time_part s with
      | Some t => Some (days_from_civil y m d * ms_per_day + t)
      | None => None
      end
    else None
  end end end end end.

(** [new Date(a) < new Date(b)]: false as soon as one side is NaN. *)
Definition date_lt (a b : string) : bool :=
  match parse_date a, parse_date b with
  | Some x, Some y => x <? y
  | _, _ => false
  end.

Example parse_date_epoch : parse_date "1970-01-01" = Some 0.
Proof. reflexivity. Qed.

Example parse_date_ts :
  parse_date "2024-03-15T23:59:59Z" = Some 1710547199000.
Proof. reflexivity. Qed.

(* ------------------------------------------------------------------ *)
(** ** Sorting with a JS comparator

    [Array.prototype.sort] is stable; [sort_by gt] is a stable insertion sort
    where [gt x y] means "the comparator returns a positive number on
    [(x, y)]", the only case where [x] is placed after [y]. *)

Section SortBy.
Context {A : Type} (gt : A -> A -> bool).

Fixpoint insert_by (x : A) (l : list A) : list A :=
  match l with
  | [] => [x]
  | y :: ys => if gt x y then y :: insert_by x ys else x :: y :: ys
  end.

Fixpoint sort_by (l : list A) : list A :=
  match l with
  | [] => []
  | x :: xs => insert_by x (sort_by xs)
  end.
End SortBy.

(* ------------------------------------------------------------------ *)
(** ** Features ([models.ts]) and the merge of two features *)

Inductive FeatureType := feature | enhancement | bugfix | infra | refactor.
Inductive Confidence := high | medium | low.

Definition FeatureType_eqb (a b : FeatureType) : bool :=
  match a, b with
  | feature, feature | enhancement, enhancement | bugfix, bugfix
  | infra, infra | refactor, refactor => true
  | _, _ => false
  end.

Definition Confidence_eqb (a b : Confidence) : bool :=
  match a, b with
  | high, high | medium, medium | low, low => true
  | _, _ => false
  end.

Lemma FeatureType_eqb_spec a b : FeatureType_eqb a b = true <-> a = b.
Proof. destruct a, b; simpl; split; congruence. Qed.

Lemma Confidence_eqb_spec a b : Confidence_eqb a b = true <-> a = b.
Proof. destruct a, b; simpl; split; congruence. Qed.

Record Feature := mkFeature {
  project : string;
  title : string;
  description : string;
  type : FeatureType;
  prs : list Z;
  startDate : string;
  endDate : string;
  confidence : Confidence
}.

(** [[...new Set(xs)]]: insertion-ordered set of numbers, first occurrence
    kept. *)
Fixpoint set_add_all (acc : list Z) (l : list Z) : list Z :=
  match l with
  | [] => acc
  | x :: xs =>
      set_add_all (if existsb (Z.eqb x) acc then acc else acc ++ [x]) xs
  end.

Definition new_Set (l : list Z) : list Z := set_add_all [] l.

(** [.sort((a, b) => a - b)] *)
Definition sort_numeric (l : list Z) : list Z :=
  sort_by (fun a b => 0 <? a - b) l.

(** [mergeFeatures] (grouping.ts, lines 109-138). *)
Definition mergeFeatures (f1 f2 : Feature) : Feature :=
  let base :=
    if Confidence_eqb f1.(confidence) high || Confidence_eqb f2.(confidence) low
    then f1 else f2 in
  let allPRs := sort_numeric (new_Set (f1.(prs) ++ f2.(prs))) in
  let startDate :=
    if date_lt f1.(startDate) f2.(startDate) then f1.(startDate) else f2.(startDate) in
  let endDate :=
    if date_lt f2.(endDate) f1.(endDate) then f1.(endDate) else f2.(endDate) in
  let confidence :=
    if negb (Confidence_eqb f1.(confidence) f2.(confidence)) then medium
    else base.(confidence) in
  {| project := base.(project);
     title := base.(title);
     description := base.(description);
     type := base.(type);
     prs := allPRs;
     startDate := startDate;
     endDate := endDate;
     confidence := confidence |}.

Example mergeFeatures_prs_example :
  (mergeFeatures
     (mkFeature "a/b" "x" "" feature [5; 2; 9] "2024-03-01" "2024-03-02" high)
     (mkFeature "a/b" "y" "" feature [9; 1; 2] "2024-02-01" "2024-03-05" low)).(prs)
  = [1; 2; 5; 9].
Proof. reflexivity. Qed.

(** *** Lemmas on [new_Set] and [sort_numeric] *)

Lemma insert_by_perm {A} (gt : A -> A -> bool) x l :
  Permutation (insert_by gt x l) (x :: l).
Proof.
  induction l as [|y ys IH]; simpl; [constructor; constructor|].
  destruct (gt x y).
  - eapply perm_trans; [apply perm_skip, IH|apply perm_swap].
  - apply Permutation_refl.
Qed.

Lemma sort_by_perm {A} (gt : A -> A -> bool) l :
  Permutation (sort_by gt l) l.
Proof.
  induction l as [|x xs IH]; simpl; [constructor|].
  eapply perm_trans; [apply insert_by_perm|]. now apply perm_skip.
Qed.

Definition gt_numeric (a b : Z) : bool := 0 <? a - b.

Lemma insert_numeric_sorted x l :
  Sorted Z.le l -> Sorted Z.le (insert_by gt_numeric x l).
Proof.
  induction 1 as [|y ys Hs IH Hhd]; simpl; [repeat constructor|].
  unfold gt_numeric at 1. destruct (0 <? x - y) eqn:E.
  - apply Z.ltb_lt in E. constructor; [exact IH|].
    destruct ys as [|z zs]; simpl; [constructor; lia|].
    unfold gt_numeric at 1. destruct (0 <? x - z); constructor; [|lia].
    now inversion Hhd.
  - apply Z.ltb_ge in E. constructor; [constructor; assumption|].
    constructor; lia.
Qed.

Lemma sort_numeric_sorted l : Sorted Z.le (sort_numeric l).
Proof.
  unfold sort_numeric. induction l; simpl; [constructor|].
  now apply insert_numeric_sorted.
Qed.

Lemma set_add_all_spec acc l :
  NoDup acc ->
  NoDup (set_add_all acc l) /\
  (forall x, In x (set_add_all acc l) <-> In x acc \/ In x l).
Proof.
  revert acc; induction l as [|y ys IH]; intros acc Hnd; simpl.
  - split; [exact Hnd|]. intuition.
  - destruct (existsb (Z.eqb y) acc) eqn:E.
    + apply existsb_exists in E as [z [Hz Hyz]]. apply Z.eqb_eq in Hyz; subst z.
      destruct (IH acc Hnd) as [H1 H2]. split; [exact H1|].
      intro x; rewrite H2. split; [intuition|].
      intros [H|[H|H]]; auto. subst; auto.
    + assert (Hn : ~ In y acc).
      { intro Hin. assert (existsb (Z.eqb y) acc = true) by
          (apply existsb_exists; exists y; split; [|apply Z.eqb_refl]; assumption).
        congruence. }
      assert (Hnd' : NoDup (acc ++ [y])).
      { apply NoDup_app; [assumption|repeat constructor; auto|].
        intros x Hx [Hy|[]]; subst; contradiction. }
      destruct (IH _ Hnd') as [H1 H2]. split; [exact H1|].
      intro x; rewrite H2, in_app_iff. simpl. intuition.
Qed.

Lemma sorted_le_nodup_lt l : Sorted Z.le l -> NoDup l -> Sorted Z.lt l.
Proof.
  induction 1 as [|a l Hs IH Hhd]; intros Hnd; [constructor|].
  inversion Hnd as [|? ? Hna Hnd']; subst.
  constructor; [now apply IH|].
  destruct l as [|b l']; constructor.
  inversion Hhd; subst. assert (a <> b) by (intro; subst; apply Hna; now left).
  lia.
Qed.

Lemma date_lt_some a b x y :
  parse_date a = Some x -> parse_date b = Some y -> date_lt a b = (x <? y).
Proof. unfold date_lt; intros -> ->; reflexivity. Qed.

(* ================================================================== *)
(** * Claims on the merge of two features *)

Definition scalars (f : Feature) : string * string * FeatureType :=
  (f.(title), f.(description), f.(type)).

(** The merge base as a confidence table: the first argument when it is
    [high] or the second is [low], the second argument in every other case
    (second [high] with first not [high]; both [medium]; first [low] with
    second [medium]). *)
Definition merge_base_table (f1 f2 : Feature) : Feature :=
  match f1.(confidence), f2.(confidence) with
  | high, _ => f1
  | _, low => f1
  | medium, high | medium, medium | low, high | low, medium => f2
  end.

(** C1 (counterexample): two [medium] features are a tie of confidence, yet
    the merged title, description and type are those of the SECOND argument,
    not the first. *)
Lemma mergeFeatures_medium_tie_not_first :
  let f1 := mkFeature "a/b" "Add export button" "first" feature [1]
              "2024-03-01" "2024-03-01" medium in
  let f2 := mkFeature "a/b" "Fix export crash" "second" bugfix [2]
              "2024-03-02" "2024-03-02" medium in
  scalars (mergeFeatures f1 f2) <> scalars f1.
Proof. vm_compute. intro H. discriminate H. Qed.

(** C1 (amended): the title, description and type of [mergeFeatures f1 f2]
    come from [f1] when [f1] is [high] or [f2] is [low], and from [f2]
    otherwise; in particular from [f2] when both are [medium]. *)
Theorem mergeFeatures_scalars_from_base : forall f1 f2,
  scalars (mergeFeatures f1 f2) = scalars (merge_base_table f1 f2) /\
  (f1.(confidence) = medium -> f2.(confidence) = medium ->
   scalars (mergeFeatures f1 f2) = scalars f2).
Proof.
  intros [p1 t1 d1 ty1 r1 s1 e1 c1] [p2 t2 d2 ty2 r2 s2 e2 c2].
  unfold scalars, merge_base_table, mergeFeatures; simpl.
  split; [destruct c1, c2; reflexivity|].
  intros -> ->; reflexivity.
Qed.

(** C7: [mergeFeatures f1 f2] has [prs] strictly ascending (sorted and free
    of duplicates) with exactly the PR numbers of [f1.prs] and [f2.prs];
    [startDate] is the earlier and [endDate] the later of the two (as
    instants, whenever both parse as dates; the result is always one of the
    two input strings); [confidence] is [medium] when the two confidences
    differ and the shared one otherwise. *)
Theorem mergeFeatures_prs_dates_confidence : forall f1 f2,
  let m := mergeFeatures f1 f2 in
  Sorted Z.lt m.(prs) /\
  (forall x, In x m.(prs) <-> In x f1.(prs) \/ In x f2.(prs)) /\
  (m.(startDate) = f1.(startDate) \/ m.(startDate) = f2.(startDate)) /\
  (forall t1 t2, parse_date f1.(startDate) = Some t1 ->
     parse_date f2.(startDate) = Some t2 ->
     parse_date m.(startDate) = Some (Z.min t1 t2)) /\
  (m.(endDate) = f1.(endDate) \/ m.(endDate) = f2.(endDate)) /\
  (forall t1 t2, parse_date f1.(endDate) = Some t1 ->
     parse_date f2.(endDate) = Some t2 ->
     parse_date m.(endDate) = Some (Z.max t1 t2)) /\
  m.(confidence) =
    (if Confidence_eqb f1.(confidence) f2.(confidence)
     then f1.(confidence) else medium).
Proof.
  intros f1 f2 m.
  destruct (set_add_all_spec [] (f1.(prs) ++ f2.(prs)) (NoDup_nil _))
    as [Hnd Hin].
  repeat split.
  - apply sorted_le_nodup_lt; [apply sort_numeric_sorted|].
    eapply Permutation_NoDup; [symmetry; apply sort_by_perm|exact Hnd].
  - intro H. simpl in H.
    apply (Permutation_in _ (sort_by_perm _ _)) in H.
    apply Hin in H as [[]|H]. now apply in_app_iff.
  - intro H. simpl. apply (Permutation_in _ (Permutation_sym (sort_by_perm _ _))).
    apply Hin. right. now apply in_app_iff.
  - subst m; unfold mergeFeatures; simpl.
    destruct (date_lt _ _); [left|right]; reflexivity.
  - intros t1 t2 H1 H2. subst m; unfold mergeFeatures; simpl.
    rewrite (date_lt_some _ _ _ _ H1 H2).
    destruct (t1 <? t2) eqn:E; [apply Z.ltb_lt in E|apply Z.ltb_ge in E].
    + rewrite H1. f_equal. lia.
    + rewrite H2. f_equal. lia.
  - subst m; unfold mergeFeatures; simpl.
    destruct (date_lt _ _); [left|right]; reflexivity.
  - intros t1 t2 H1 H2. subst m; unfold mergeFeatures; simpl.
    rewrite (date_lt_some _ _ _ _ H2 H1).
    destruct (t2 <? t1) eqn:E; [apply Z.ltb_lt in E|apply Z.ltb_ge in E].
    + rewrite H1. f_equal. lia.
    + rewrite H2. f_equal. lia.
  - subst m; unfold mergeFeatures; simpl.
    destruct f1 as [? ? ? ? ? ? ? c1], f2 as [? ? ? ? ? ? ? c2]; simpl.
    destruct c1, c2; reflexivity.
Qed.

(* ------------------------------------------------------------------ *)
(** ** Title similarity (grouping.ts, lines 12-104) *)

Open Scope Q_scope.

(** Regex [\w]: [A-Za-z0-9_]. *)
Definition is_word_char (c : ascii) : bool :=
  let n := nat_of_ascii c in
  ((48 <=? n)%nat && (n <=? 57)%nat) || ((65 <=? n)%nat && (n <=? 90)%nat)
  || ((97 <=? n)%nat && (n <=? 122)%nat) || (n =? 95)%nat.

(** Regex [\s] on 8-bit characters: TAB, LF, VT, FF, CR, SPACE and NBSP. *)
Definition is_space (c : ascii) : bool :=
  let n := nat_of_ascii c in
  ((9 <=? n)%nat && (n <=? 13)%nat) || (n =? 32)%nat || (n =? 160)%nat.

(** [.replace(/[^\w\s]/g, ' ')] *)
Fixpoint replace_punct (s : string) : string :=
  match s with
  | EmptyString => EmptyString
  | String c r =>
      String (if is_word_char c || is_space c then c else " "%char)
             (replace_punct r)
  end.

(** [.split(/\s+/)]: the pieces between maximal runs of whitespace (a leading
    or trailing run yields an empty piece). [cur] is the current piece,
    reversed; [prev_ws] tells whether the previous character was
    whitespace. *)
Fixpoint split_ws_aux (cur : list ascii) (prev_ws : bool) (s : string)
  : list string :=
  match s with
  | EmptyString => [string_of_list_ascii (rev cur)]
  | String c r =>
      if is_space c then
        if prev_ws then split_ws_aux cur true r
        else string_of_list_ascii (rev cur) :: split_ws_aux [] true r
      else split_ws_aux (c :: cur) false r
  end.

Definition split_ws (s : string) : list string := split_ws_aux [] false s.

Definition normalize (s : string) : list string :=
  filter (fun w => (2 <? String.length w)%nat)
         (split_ws (replace_punct (toLowerCase s))).

Example split_ws_example :
  split_ws " add  export" = [""; "add"; "export"]%string.
Proof. reflexivity. Qed.

(** [new Set(xs)] on strings, and [set.has]. *)
Fixpoint str_set_add_all (acc : list string) (l : list string) : list string :=
  match l with
  | [] => acc
  | x :: xs =>
      str_set_add_all (if includes acc x then acc else acc ++ [x]) xs
  end.

Definition new_StrSet (l : list string) : list string := str_set_add_all [] l.

Definition Q_of_nat (n : nat) : Q := inject_Z (Z.of_nat n).

(** [calculateSimilarity] *)
Definition calculateSimilarity (str1 str2 : string) : Q :=
  let tokens1 := new_StrSet (normalize str1) in
  let tokens2 := new_StrSet (normalize str2) in
  if (length tokens1 =? 0)%nat || (length tokens2 =? 0)%nat then 0
  else
    let intersection := new_StrSet (filter (includes tokens2) tokens1) in
    let union := new_StrSet (tokens1 ++ tokens2) in
    Q_of_nat (length intersection) / Q_of_nat (length union).

(** [levenshteinDistance]: the [dp] matrix computed row by row.
    [next_row a bs up_row diag left] computes [dp[i][1..n]] from
    [dp[i-1][1..n]] ([up_row]), [dp[i-1][j-1]] ([diag]) and [dp[i][j-1]]
    ([left]), where [a] is [str1[i-1]]. *)
Fixpoint next_row (a : ascii) (bs : list ascii) (up_row : list nat)
    (diag left : nat) : list nat :=
  match bs, up_row with
  | b :: bs', up :: up_row' =>
      let cost := if ascii_eqb a b then 0%nat else 1%nat in
      let v := Nat.min (up + 1) (Nat.min (left + 1) (diag + cost)) in
      v :: next_row a bs' up_row' up v
  | _, _ => []
  end.

Fixpoint lev_rows (i : nat) (as_ : list ascii) (bs : list ascii) (row : list nat)
  : list nat :=
  match as_ with
  | [] => row
  | a :: as' =>
      let row' := i :: next_row a bs (tl row) (hd 0%nat row) i in
      lev_rows (S i) as' bs row'
  end.

Definition levenshteinDistance (str1 str2 : string) : nat :=
  let bs := list_ascii_of_string str2 in
  let row0 := seq 0 (S (length bs)) in
  last (lev_rows 1 (list_ascii_of_string str1) bs row0) 0%nat.

Example levenshtein_kitten :
  levenshteinDistance "kitten" "sitting" = 3%nat.
Proof. reflexivity. Qed.

(** [levenshteinSimilarity] *)
Definition levenshteinSimilarity (str1 str2 : string) : Q :=
  let maxLen := Nat.max (String.length str1) (String.length str2) in
  if (maxLen =? 0)%nat then 1
  else
    let distance := levenshteinDistance (toLowerCase str1) (toLowerCase str2) in
    1 - Q_of_nat distance / Q_of_nat maxLen.

(** [featureSimilarity] *)
Definition featureSimilarity (f1 f2 : Feature) : Q :=
  if negb (String.eqb f1.(project) f2.(project)) then 0
  else if negb (FeatureType_eqb f1.(type) f2.(type)) then 0
  else
    let tokenSim := calculateSimilarity f1.(title) f2.(title) in
    let levenSim := levenshteinSimilarity f1.(title) f2.(title) in
    tokenSim * (6 # 10) + levenSim * (4 # 10).

(** [mergeSimilarFeatures]: the inner [while] loop over [remaining] with the
    pivot [current] returns the final pivot and the candidates left in
    [remaining]; the outer loop runs while [remaining] is non-empty
    ([fuel] is its length, an upper bound on the number of rounds). *)
Fixpoint scan (similarityThreshold : Q) (current : Feature)
    (remaining : list Feature) : Feature * list Feature :=
  match remaining with
  | [] => (current, [])
  | candidate :: rest =>
      if Qle_bool similarityThreshold (featureSimilarity current candidate)
      then scan similarityThreshold (mergeFeatures current candidate) rest
      else let (cur', rest') := scan similarityThreshold current rest in
           (cur', candidate :: rest')
  end.

Fixpoint merge_rounds (similarityThreshold : Q) (fuel : nat)
    (remaining : list Feature) : list Feature :=
  match fuel with
  | O => []
  | S fuel' =>
      match remaining with
      | [] => []
      | current :: rest =>
          let (cur', rest') := scan similarityThreshold current rest in
          cur' :: merge_rounds similarityThreshold fuel' rest'
      end
  end.

Definition mergeSimilarFeatures (similarityThreshold : Q) (features : list Feature)
  : list Feature :=
  if (length features <=? 1)%nat then features
  else merge_rounds similarityThreshold (length features) features.

(** The default threshold of [mergeSimilarFeatures] used by [groupFeatures]. *)
Definition defaultSimilarityThreshold : Q := 1 # 2.

Example mergeSimilar_export :
  map prs (mergeSimilarFeatures defaultSimilarityThreshold
    [mkFeature "a/b" "Add export button" "" feature [1%Z] "2024-03-01" "2024-03-01" high;
     mkFeature "a/b" "Add export feature" "" feature [2%Z] "2024-03-15" "2024-03-15" high])
  = [[1; 2]]%Z.
Proof. reflexivity. Qed.

(* ================================================================== *)
(** * Claims on feature similarity and clustering *)

(** The similarity as the spec states it: 0 across projects or types,
    otherwise [0.6 * |T1 ∩ T2| / |T1 ∪ T2| + 0.4 * (1 - d / max(len1, len2))]
    with [T1], [T2] the token sets of the titles and [d] the edit distance of
    the lower-cased titles.  Division is [Q]'s (a quotient by 0 is 0), which
    is the only reading of the formula when both token sets, or both titles,
    are empty. *)
Definition spec_token_jaccard (s1 s2 : string) : Q :=
  let tokens1 := new_StrSet (normalize s1) in
  let tokens2 := new_StrSet (normalize s2) in
  Q_of_nat (length (new_StrSet (filter (includes tokens2) tokens1)))
  / Q_of_nat (length (new_StrSet (tokens1 ++ tokens2))).

Definition spec_edit_similarity (s1 s2 : string) : Q :=
  1 - Q_of_nat (levenshteinDistance (toLowerCase s1) (toLowerCase s2))
      / Q_of_nat (Nat.max (String.length s1) (String.length s2)).

Definition spec_featureSimilarity (f1 f2 : Feature) : Q :=
  if String.eqb f1.(project) f2.(project) && FeatureType_eqb f1.(type) f2.(type)
  then (6 # 10) * spec_token_jaccard f1.(title) f2.(title)
       + (4 # 10) * spec_edit_similarity f1.(title) f2.(title)
  else 0.

Definition with_type (f : Feature) (ty : FeatureType) : Feature :=
  {| project := f.(project); title := f.(title); description := f.(description);
     type := ty; prs := f.(prs); startDate := f.(startDate);
     endDate := f.(endDate); confidence := f.(confidence) |}.

Lemma filter_includes_nil l : filter (includes []) l = [].
Proof. induction l; simpl; auto. Qed.

Lemma calculateSimilarity_spec s1 s2 :
  calculateSimilarity s1 s2 == spec_token_jaccard s1 s2.
Proof.
  unfold calculateSimilarity, spec_token_jaccard.
  destruct (length (new_StrSet (normalize s1)) =? 0)%nat eqn:E1.
  - apply Nat.eqb_eq, length_zero_iff_nil in E1. rewrite E1. simpl.
    unfold Qdiv. now rewrite Qmult_0_l.
  - destruct (length (new_StrSet (normalize s2)) =? 0)%nat eqn:E2; simpl.
    + apply Nat.eqb_eq, length_zero_iff_nil in E2. rewrite E2.
      rewrite filter_includes_nil. simpl. unfold Qdiv. now rewrite Qmult_0_l.
    + reflexivity.
Qed.

Lemma toLowerCase_length s : String.length (toLowerCase s) = String.length s.
Proof. induction s; simpl; auto. Qed.

Lemma levenshteinSimilarity_spec s1 s2 :
  levenshteinSimilarity s1 s2 == spec_edit_similarity s1 s2.
Proof.
  unfold levenshteinSimilarity, spec_edit_similarity.
  destruct (Nat.max (String.length s1) (String.length s2) =? 0)%nat eqn:E.
  - apply Nat.eqb_eq in E.
    pose proof (Nat.le_max_l (String.length s1) (String.length s2)).
    pose proof (Nat.le_max_r (String.length s1) (String.length s2)).
    destruct s1; [|simpl in *; lia]. destruct s2; [|simpl in *; lia].
    reflexivity.
  - reflexivity.
Qed.

(** C2: [featureSimilarity f1 f2] is 0 when the projects or the types differ,
    and otherwise [0.6] times the token Jaccard similarity of the titles plus
    [0.4] times their normalised edit-distance similarity.  In particular a
    feature and a copy of it with another type have similarity 0 and stay
    apart in [mergeSimilarFeatures] for any positive threshold. *)
Theorem featureSimilarity_formula : forall f1 f2,
  featureSimilarity f1 f2 == spec_featureSimilarity f1 f2 /\
  (forall ty thr, ty <> f1.(type) -> 0 < thr ->
     featureSimilarity f1 (with_type f1 ty) == 0 /\
     mergeSimilarFeatures thr [f1; with_type f1 ty] = [f1; with_type f1 ty]).
Proof.
  intros f1 f2. split.
  - unfold featureSimilarity, spec_featureSimilarity.
    destruct (String.eqb f1.(project) f2.(project)); simpl; [|reflexivity].
    destruct (FeatureType_eqb f1.(type) f2.(type)); simpl; [|reflexivity].
    rewrite calculateSimilarity_spec, levenshteinSimilarity_spec.
    rewrite (Qmult_comm (spec_token_jaccard _ _)),
            (Qmult_comm (spec_edit_similarity _ _)).
    reflexivity.
  - intros ty thr Hty Hthr.
    assert (Hs : featureSimilarity f1 (with_type f1 ty) = 0).
    { unfold featureSimilarity, with_type; simpl.
      rewrite String.eqb_refl. simpl.
      destruct (FeatureType_eqb (type f1) ty) eqn:E; [|reflexivity].
      apply FeatureType_eqb_spec in E. congruence. }
    split; [rewrite Hs; reflexivity|].
    unfold mergeSimilarFeatures. simpl. rewrite Hs.
    destruct (Qle_bool thr 0) eqn:E; [|reflexivity].
    apply Qle_bool_iff in E. exfalso. apply (Qlt_not_le _ _ Hthr E).
Qed.

(** *** Features whose title has no token *)

Definition no_tokens (f : Feature) : Prop := new_StrSet (normalize f.(title)) = [].

Lemma levenshteinSimilarity_le_1 s1 s2 : levenshteinSimilarity s1 s2 <= 1.
Proof.
  unfold levenshteinSimilarity.
  destruct (Nat.max _ _ =? 0)%nat eqn:E; [apply Qle_refl|].
  apply Nat.eqb_neq in E.
  assert (0 <= Q_of_nat (levenshteinDistance (toLowerCase s1) (toLowerCase s2))
                 / Q_of_nat (Nat.max (String.length s1) (String.length s2))).
  { apply Qle_shift_div_l.
    - unfold Q_of_nat, Qlt; simpl. lia.
    - rewrite Qmult_0_l. unfold Q_of_nat, Qle; simpl. lia. }
  rewrite <- (Qplus_0_r 1) at 2. unfold Qminus.
  apply Qplus_le_compat; [apply Qle_refl|].
  rewrite <- (Qopp_involutive 0). apply Qopp_le_compat. exact H.
Qed.

Lemma calculateSimilarity_no_tokens s1 s2 :
  new_StrSet (normalize s1) = [] \/ new_StrSet (normalize s2) = [] ->
  calculateSimilarity s1 s2 = 0.
Proof.
  unfold calculateSimilarity. intros [H|H]; rewrite H; simpl.
  - reflexivity.
  - rewrite Bool.orb_true_r. reflexivity.
Qed.

Lemma featureSimilarity_no_tokens_le f1 f2 :
  no_tokens f1 \/ no_tokens f2 -> featureSimilarity f1 f2 <= 2 # 5.
Proof.
  intros H. unfold featureSimilarity.
  destruct (negb _); [discriminate|].
  destruct (negb _); [discriminate|].
  rewrite (calculateSimilarity_no_tokens _ _ H).
  pose proof (levenshteinSimilarity_le_1 (title f1) (title f2)) as Hl.
  setoid_replace (0 * (6 # 10)) with 0 by reflexivity.
  rewrite Qplus_0_l.
  setoid_replace (2 # 5) with (1 * (4 # 10)) by reflexivity.
  apply Qmult_le_compat_r; [exact Hl|discriminate].
Qed.

Section NoTokens.
Variable thr : Q.
Hypothesis Hthr : 2 # 5 < thr.

Lemma no_merge_when_no_tokens f g :
  no_tokens f \/ no_tokens g -> Qle_bool thr (featureSimilarity f g) = false.
Proof.
  intros H. destruct (Qle_bool thr _) eqn:E; [|reflexivity].
  apply Qle_bool_iff in E. exfalso.
  pose proof (featureSimilarity_no_tokens_le _ _ H).
  apply (Qlt_not_le _ _ Hthr). eapply Qle_trans; eassumption.
Qed.

Lemma scan_length cur rem :
  (length (snd (scan thr cur rem)) <= length rem)%nat.
Proof.
  revert cur; induction rem as [|c cs IH]; intros cur; simpl; [lia|].
  destruct (Qle_bool thr _).
  - specialize (IH (mergeFeatures cur c)). lia.
  - specialize (IH cur). destruct (scan thr cur cs); simpl in *. lia.
Qed.

Lemma scan_pivot_no_tokens cur rem :
  no_tokens cur -> scan thr cur rem = (cur, rem).
Proof.
  intros H. induction rem as [|c cs IH]; simpl; [reflexivity|].
  rewrite no_merge_when_no_tokens by (left; exact H).
  rewrite IH. reflexivity.
Qed.

Lemma scan_keeps_no_tokens f cur rem :
  no_tokens f -> In f rem -> In f (snd (scan thr cur rem)).
Proof.
  intros Hf. revert cur; induction rem as [|c cs IH]; intros cur Hin;
    [destruct Hin|].
  simpl. destruct (Qle_bool thr (featureSimilarity cur c)) eqn:E.
  - destruct Hin as [<-|Hin].
    + rewrite no_merge_when_no_tokens in E by (right; exact Hf). discriminate.
    + now apply IH.
  - specialize (IH cur). destruct (scan thr cur cs) as [cur' rest'] eqn:Es.
    simpl in *. destruct Hin as [<-|Hin]; [now left|right; now apply IH].
Qed.

Lemma merge_rounds_keeps_no_tokens f fuel rem :
  no_tokens f -> (length rem <= fuel)%nat -> In f rem ->
  In f (merge_rounds thr fuel rem).
Proof.
  intros Hf. revert rem; induction fuel as [|fuel IH]; intros rem Hlen Hin.
  - destruct rem; [destruct Hin|simpl in Hlen; lia].
  - destruct rem as [|cur rest]; [destruct Hin|]. simpl.
    destruct Hin as [<-|Hin].
    + rewrite scan_pivot_no_tokens by exact Hf. now left.
    + pose proof (scan_keeps_no_tokens f cur rest Hf Hin) as Hk.
      pose proof (scan_length cur rest) as Hl.
      destruct (scan thr cur rest) as [cur' rest']. simpl in *.
      right. apply IH; [lia|exact Hk].
Qed.

Lemma mergeSimilarFeatures_keeps_no_tokens f features :
  no_tokens f -> In f features -> In f (mergeSimilarFeatures thr features).
Proof.
  intros Hf Hin. unfold mergeSimilarFeatures.
  destruct (length features <=? 1)%nat; [exact Hin|].
  apply merge_rounds_keeps_no_tokens; auto.
Qed.
End NoTokens.

(** C10: when both titles have an empty token set, the similarity of the two
    features is at most 0.4, and with the default threshold 0.5 each of them
    comes out of [mergeSimilarFeatures] unchanged, whatever list it is in, so
    the two are never merged (with each other or with anything else). *)
Theorem no_tokens_never_merged : forall f1 f2,
  new_StrSet (normalize f1.(title)) = [] ->
  new_StrSet (normalize f2.(title)) = [] ->
  featureSimilarity f1 f2 <= 2 # 5 /\
  (forall features, In f1 features -> In f2 features ->
     In f1 (mergeSimilarFeatures defaultSimilarityThreshold features) /\
     In f2 (mergeSimilarFeatures defaultSimilarityThreshold features)).
Proof.
  intros f1 f2 H1 H2. split.
  - apply featureSimilarity_no_tokens_le. now left.
  - assert (Hd : 2 # 5 < defaultSimilarityThreshold) by reflexivity.
    intros features Hin1 Hin2. split;
      apply mergeSimilarFeatures_keeps_no_tokens; assumption.
Qed.

Lemma no_tokens_never_merged_witness :
  let f1 := mkFeature "a/b" "UI" "" feature [1%Z] "2024-03-01" "2024-03-01" high in
  let f2 := mkFeature "a/b" "UX" "" feature [2%Z] "2024-03-02" "2024-03-02" high in
  featureSimilarity f1 f2 <= 2 # 5 /\
  In f1 (mergeSimilarFeatures defaultSimilarityThreshold [f1; f2]).
Proof.
  intros f1 f2.
  destruct (no_tokens_never_merged f1 f2 eq_refl eq_refl) as [H1 H2].
  split; [exact H1|].
  refine (proj1 (H2 [f1; f2] _ _)); [left; reflexivity|right; left; reflexivity].
Defined.

Close Scope Q_scope.
Open Scope Z_scope.

(* ------------------------------------------------------------------ *)
(** ** Discovery filters (part_000 / github/client.ts) *)

(** [isAllowedBaseBranch] (identical in [client.ts], lines 55-63, and in
    [part_000], lines 916-924). *)
Definition isAllowedBaseBranch (branch : string) : bool :=
  if String.eqb branch "main" || String.eqb branch "master" then true
  else if startsWith branch "release/" then true
  else false.

Lemma prefix_app_iff p s : String.prefix p s = true <-> exists r, s = (p ++ r)%string.
Proof.
  revert s; induction p as [|a p IH]; intros s.
  - split; [intros _; exists s; reflexivity|intros _; destruct s; reflexivity].
  - destruct s as [|b s]; simpl.
    + split; [discriminate|intros [r Hr]; discriminate].
    + destruct (ascii_dec a b) as [<-|Hab].
      * rewrite IH. split; intros [r Hr]; exists r; congruence.
      * split; [discriminate|intros [r Hr]; inversion Hr; congruence].
Qed.

(** C9: a base branch is allowed exactly when it is [main], [master] or starts
    with [release/]; [feature/x] is rejected and [release/9.2] accepted.  The
    predicate reads nothing but the branch name. *)
Theorem isAllowedBaseBranch_spec :
  (forall branch, isAllowedBaseBranch branch = true <->
     branch = "main"%string \/ branch = "master"%string \/
     exists rest, branch = ("release/" ++ rest)%string) /\
  isAllowedBaseBranch "feature/x" = false /\
  isAllowedBaseBranch "release/9.2" = true.
Proof.
  split; [|split; reflexivity].
  intros branch. unfold isAllowedBaseBranch, startsWith.
  rewrite <- prefix_app_iff.
  destruct (String.eqb_spec branch "main") as [->|H1]; simpl;
    [split; auto|].
  destruct (String.eqb_spec branch "master") as [->|H2]; simpl;
    [split; auto|].
  destruct (String.prefix "release/" branch); split; intuition congruence.
Qed.

(** *** [isDateInRange] (part_000, lines 929-935)

    [Date.prototype.setHours] works in the host's local time.  The local time
    zone is modelled by a fixed offset [tz_offset] (milliseconds added to UTC
    to obtain local time; a zone without daylight saving). *)

(** [untilDate.setHours(23, 59, 59, 999)] on a valid date [t]. *)
Definition setHours_end_of_day (tz_offset t : Z) : Z :=
  let local := t + tz_offset in
  let local_midnight := (local / ms_per_day) * ms_per_day in
  local_midnight + 86399999 - tz_offset.

Definition isDateInRange (tz_offset : Z) (dateStr since until : string) : bool :=
  match parse_date dateStr, parse_date since, parse_date until with
  | Some date, Some sinceDate, Some untilDate =>
      let untilDate := setHours_end_of_day tz_offset untilDate in
      (sinceDate <=? date) && (date <=? untilDate)
  | _, _, _ => false
  end.

(** The predicate as the spec states it: [since <= mergedAt <= endOfDay(until)]
    with [until]'s (UTC) day extended to 23:59:59.999. *)
Definition spec_end_of_day (t : Z) : Z := t - t mod ms_per_day + 86399999.

Definition spec_isDateInRange (dateStr since until : string) : bool :=
  match parse_date dateStr, parse_date since, parse_date until with
  | Some date, Some sinceDate, Some untilDate =>
      (sinceDate <=? date) && (date <=? spec_end_of_day untilDate)
  | _, _, _ => false
  end.

(** A zone at UTC-5 without daylight saving (e.g. America/Bogota). *)
Definition utc_minus_5 : Z := -5 * 3600000.

(** C8 (code_bug): on a host at UTC-5, a PR merged at noon UTC on the [until]
    day is out of range, because [setHours] moves the end of the range to the
    end of the LOCAL day that contains UTC midnight of [until] (the previous
    day there).  On a UTC host the code meets the spec on every input. *)
Theorem isDateInRange_local_time_slip :
  isDateInRange utc_minus_5 "2024-03-15T12:00:00Z" "2024-03-01" "2024-03-15"
    = false /\
  spec_isDateInRange "2024-03-15T12:00:00Z" "2024-03-01" "2024-03-15" = true /\
  (forall d s u, isDateInRange 0 d s u = spec_isDateInRange d s u).
Proof.
  split; [reflexivity|split; [reflexivity|]].
  intros d s u. unfold isDateInRange, spec_isDateInRange.
  destruct (parse_date d), (parse_date s), (parse_date u); try reflexivity.
  unfold setHours_end_of_day, spec_end_of_day.
  rewrite !Z.add_0_r, Z.sub_0_r.
  rewrite (Z.mod_eq z1 ms_per_day) by discriminate.
  f_equal. f_equal. f_equal. lia.
Qed.

(** *** Repository filters *)

Inductive RepoScope := scope_all | scope_personal | scope_orgs.

(** [GitHubClientOptions] (the fields the discovery engine reads). *)
Record GitHubClientOptions := mkOptions {
  scope : option RepoScope;
  repos : option (list string);
  orgs : option (list string);
  excludeRepos : option (list string);
  skipOrgScan : bool
}.

(** [xs?.includes(x)] *)
Definition opt_includes (xs : option (list string)) (x : string) : bool :=
  match xs with Some l => includes l x | None => false end.

(** [xs && xs.length > 0] *)
Definition nonempty (xs : option (list string)) : bool :=
  match xs with Some (_ :: _) => true | _ => false end.

Definition list_of (xs : option (list string)) : list string :=
  match xs with Some l => l | None => [] end.

(** [isOrgRepo] *)
Definition isOrgRepo (repoFullName username : string) : bool :=
  negb (String.eqb (toLowerCase (split_slash_first repoFullName))
                   (toLowerCase username)).

(** [shouldIncludeRepo] (part_000, lines 1249-1273). *)
Definition shouldIncludeRepo (o : GitHubClientOptions)
    (repoFullName username : string) : bool :=
  if opt_includes o.(excludeRepos) repoFullName then false
  else if
    match o.(scope) with
    | Some scope_personal => isOrgRepo repoFullName username
    | Some scope_orgs => negb (isOrgRepo repoFullName username)
    | _ => false
    end
  then false
  else if nonempty o.(repos) then includes (list_of o.(repos)) repoFullName
  else if nonempty o.(orgs) then
    let repoOrg := split_slash_first repoFullName in
    if String.eqb repoOrg "" then false else includes (list_of o.(orgs)) repoOrg
  else true.

(** The repositories [fetchPRsFromSpecificRepos] scans (part_000, lines
    1416-1443): the listed ones, minus the excluded ones. *)
Definition specificReposScanned (o : GitHubClientOptions) : list string :=
  if nonempty o.(repos) then
    filter (fun r => negb (opt_includes o.(excludeRepos) r)) (list_of o.(repos))
  else [].

(** [scope] as the spec states it: [personal] keeps repos whose owner is the
    user (case-insensitively), [orgs] the others. *)
Definition scope_ok (o : GitHubClientOptions) (repoFullName username : string)
  : bool :=
  match o.(scope) with
  | Some scope_personal =>
      String.eqb (toLowerCase (split_slash_first repoFullName)) (toLowerCase username)
  | Some scope_orgs =>
      negb (String.eqb (toLowerCase (split_slash_first repoFullName))
                       (toLowerCase username))
  | _ => true
  end.

(** *** Merge of the strategies' results ([fetchAllMergedPRs], lines 1445-1489) *)

(** [PullRequest] (the fields the merge step reads, plus the title). *)
Record PullRequest := mkPR {
  number : Z;
  pr_title : string;
  repoFullName : string;
  baseBranch : string;
  mergedAt : string
}.

(** [String(n)] for an integer [n]. *)
Definition number_to_string (n : Z) : string :=
  DecimalString.NilEmpty.string_of_int (Z.to_int n).

(** [`${pr.repoFullName}#${pr.number}`] *)
Definition pr_key (pr : PullRequest) : string :=
  (pr.(repoFullName) ++ String "#" (number_to_string pr.(number)))%string.

(** [const uniquePRs = new Map(); for (...) if (!has(key)) set(key, pr)]:
    the map as an insertion-ordered association list. *)
Fixpoint uniquePRs_fill (m : list (string * PullRequest)) (l : list PullRequest)
  : list (string * PullRequest) :=
  match l with
  | [] => m
  | pr :: rest =>
      let key := pr_key pr in
      uniquePRs_fill
        (if existsb (fun kv => String.eqb (fst kv) key) m then m else m ++ [(key, pr)])
        rest
  end.

(** [new Date(pr.mergedAt).getTime()] *)
Definition mergedAt_time (pr : PullRequest) : option Z := parse_date pr.(mergedAt).

(** [(a, b) => getTime(a) - getTime(b)] is positive; a NaN result counts as
    0 ([SortCompare]). *)
Definition mergedAt_gt (a b : PullRequest) : bool :=
  match mergedAt_time a, mergedAt_time b with
  | Some x, Some y => 0 <? x - y
  | _, _ => false
  end.

(** The tail of [fetchAllMergedPRs]: dedup, then [result.sort(...)]. *)
Definition dedup_and_sort (allPRs : list PullRequest) : list PullRequest :=
  sort_by mergedAt_gt (map snd (uniquePRs_fill [] allPRs)).

(** [fetchAllMergedPRs], with the three strategies' results as inputs: the
    explicit-repo scan, the global search and the org sweep. *)
Definition fetchAllMergedPRs (o : GitHubClientOptions)
    (specificPRs searchPRs orgPRs : list PullRequest) : list PullRequest :=
  let allPRs :=
    if nonempty o.(repos) then specificPRs
    else if negb o.(skipOrgScan) then searchPRs ++ orgPRs
    else searchPRs in
  dedup_and_sort allPRs.

Example dedup_and_sort_example :
  map (fun p => (p.(repoFullName), p.(number), p.(pr_title)))
    (dedup_and_sort
       [mkPR 7 "late" "a/b" "main" "2024-03-15T10:00:00Z";
        mkPR 3 "early" "a/b" "main" "2024-03-01T10:00:00Z";
        mkPR 7 "dup" "a/b" "main" "2024-02-01T10:00:00Z";
        mkPR 7 "other repo" "a/c" "main" "2024-03-10T10:00:00Z"])
  = [("a/b", 3, "early"); ("a/c", 7, "other repo"); ("a/b", 7, "late")]%string.
Proof. reflexivity. Qed.

(** *** The key [repo#number] determines the pair *)

Fixpoint has_hash (s : string) : bool :=
  match s with
  | EmptyString => false
  | String c r => ascii_eqb c "#"%char || has_hash r
  end.

Lemma has_hash_app a b : has_hash (a ++ String "#" b) = true.
Proof. induction a; simpl; auto. now rewrite IHa, Bool.orb_true_r. Qed.

Lemma number_to_string_no_hash n : has_hash (number_to_string n) = false.
Proof.
  assert (H : forall d, has_hash (DecimalString.NilEmpty.string_of_uint d) = false)
    by (induction d; simpl; auto).
  unfold number_to_string, DecimalString.NilEmpty.string_of_int.
  destruct (Z.to_int n); simpl; apply H.
Qed.

Lemma number_to_string_inj n m : number_to_string n = number_to_string m -> n = m.
Proof.
  unfold number_to_string. intros H.
  apply (f_equal DecimalString.NilEmpty.int_of_string) in H.
  rewrite !DecimalString.NilEmpty.isi in H. injection H as H.
  now apply DecimalZ.to_int_inj.
Qed.

Lemma app_hash_inj r1 d1 r2 d2 :
  has_hash d1 = false -> has_hash d2 = false ->
  (r1 ++ String "#" d1)%string = (r2 ++ String "#" d2)%string ->
  r1 = r2 /\ d1 = d2.
Proof.
  intros H1 H2. revert r2; induction r1 as [|c r1 IH]; intros [|c' r2] E;
    simpl in E.
  - injection E as E. auto.
  - injection E as E1 E2. subst. rewrite has_hash_app in H1. discriminate.
  - injection E as E1 E2. subst. rewrite has_hash_app in H2. discriminate.
  - injection E as E1 E2. subst. destruct (IH r2 E2) as [-> ->]. auto.
Qed.

Definition pr_pair (pr : PullRequest) : string * Z := (pr.(repoFullName), pr.(number)).

Lemma pr_key_eqb q p :
  String.eqb (pr_key q) (pr_key p) =
  String.eqb q.(repoFullName) p.(repoFullName) && Z.eqb q.(number) p.(number).
Proof.
  unfold pr_key.
  destruct (String.eqb_spec q.(repoFullName) p.(repoFullName)) as [Er|Er];
  destruct (Z.eqb_spec q.(number) p.(number)) as [En|En]; simpl;
  apply String.eqb_neq || apply String.eqb_eq;
  try (rewrite Er, En; reflexivity);
  intro E; apply app_hash_inj in E as [E1 E2];
  try apply number_to_string_no_hash; try apply number_to_string_inj in E2;
  contradiction.
Qed.

(** [find] of the first entry with the same (repoFullName, number). *)
Definition first_by_pair (l : list PullRequest) (p : PullRequest)
  : option PullRequest :=
  find (fun q => String.eqb q.(repoFullName) p.(repoFullName)
                 && Z.eqb q.(number) p.(number)) l.

Lemma existsb_key_in (m : list (string * PullRequest)) k :
  existsb (fun kv => String.eqb (fst kv) k) m = true <-> In k (map fst m).
Proof.
  rewrite existsb_exists, in_map_iff. split.
  - intros [kv [Hin E]]. apply String.eqb_eq in E. eauto.
  - intros [kv [E Hin]]. exists kv. split; [exact Hin|]. apply String.eqb_eq, E.
Qed.

(** *** The map [uniquePRs] *)

Definition keys_ok (m : list (string * PullRequest)) : Prop :=
  forall kv, In kv m -> fst kv = pr_key (snd kv).

Lemma uniquePRs_fill_inv m l :
  keys_ok m -> NoDup (map fst m) ->
  keys_ok (uniquePRs_fill m l) /\ NoDup (map fst (uniquePRs_fill m l)).
Proof.
  revert m; induction l as [|q qs IH]; intros m Hk Hnd; simpl; [auto|].
  destruct (existsb _ m) eqn:E; apply IH; auto.
  - intros kv Hin. apply in_app_iff in Hin as [Hin|[<-|[]]]; auto.
  - rewrite map_app. apply NoDup_app; auto; [repeat constructor; auto|].
    intros x Hx [<-|[]]. simpl in Hx. apply (existsb_key_in m) in Hx. congruence.
Qed.

Lemma uniquePRs_fill_in m l p :
  keys_ok m ->
  In p (map snd (uniquePRs_fill m l)) <->
  In p (map snd m) \/
  (~ In (pr_key p) (map fst m) /\
   find (fun q => String.eqb (pr_key q) (pr_key p)) l = Some p).
Proof.
  revert m; induction l as [|q qs IH]; intros m Hk; simpl.
  - split; [auto|intros [H|[_ H]]; [exact H|discriminate]].
  - destruct (existsb (fun kv => String.eqb (fst kv) (pr_key q)) m) eqn:E.
    + apply existsb_key_in in E. rewrite (IH m Hk).
      destruct (String.eqb_spec (pr_key q) (pr_key p)) as [Eq|Neq].
      * rewrite <- Eq. split; [intros [H|[H _]]; [now left|contradiction]|].
        intros [H|[H _]]; [now left|contradiction].
      * reflexivity.
    + assert (Hk' : keys_ok (m ++ [(pr_key q, q)])).
      { intros kv Hin. apply in_app_iff in Hin as [Hin|[<-|[]]]; auto. }
      rewrite (IH _ Hk'), !map_app, !in_app_iff. simpl.
      assert (Hq : ~ In (pr_key q) (map fst m)).
      { intro H. apply existsb_key_in in H. congruence. }
      destruct (String.eqb_spec (pr_key q) (pr_key p)) as [Eq|Neq].
      * split.
        -- intros [[H|[<-|[]]]|[H _]]; auto.
           exfalso. apply H. right. left. exact Eq.
        -- intros [H|[H1 H2]]; [auto|]. injection H2 as <-. auto.
      * split.
        -- intros [[H|[<-|[]]]|[H1 H2]]; auto; [contradiction|].
           right. split; [|exact H2]. intro. apply H1. left. assumption.
        -- intros [H|[H1 H2]]; [auto|]. right. split; [|exact H2].
           intros [H|[H|[]]]; [contradiction|]. apply Neq, H.
Qed.

(** *** Sorting by [mergedAt] *)

Section SortedBy.
Context {A : Type} (gt : A -> A -> bool) (R : A -> A -> Prop) (D : A -> Prop).
Hypothesis gt_true : forall a b, D a -> D b -> gt a b = true -> R b a.
Hypothesis gt_false : forall a b, D a -> D b -> gt a b = false -> R a b.

Lemma insert_by_sorted x l :
  D x -> Forall D l -> Sorted R l -> Sorted R (insert_by gt x l).
Proof.
  intros Hx HD Hs. induction Hs as [|y ys Hs IH Hhd]; simpl.
  - repeat constructor.
  - inversion HD as [|? ? Hy HDys]; subst.
    destruct (gt x y) eqn:E.
    + constructor; [now apply IH|].
      destruct ys as [|z zs]; simpl; [constructor; now apply gt_true|].
      destruct (gt x z); constructor; [now inversion Hhd|now apply gt_true].
    + constructor; [constructor; assumption|]. constructor. now apply gt_false.
Qed.

Lemma sort_by_sorted_D l : Forall D l -> Sorted R (sort_by gt l).
Proof.
  induction l as [|x xs IH]; intros HD; simpl; [constructor|].
  inversion HD; subst. apply insert_by_sorted; auto.
  apply (Permutation_Forall (Permutation_sym (sort_by_perm gt xs))); auto.
Qed.
End SortedBy.

Definition mergedAt_le (a b : PullRequest) : Prop :=
  match mergedAt_time a, mergedAt_time b with
  | Some x, Some y => x <= y
  | _, _ => False
  end.

Lemma find_ext {A} (f g : A -> bool) l :
  (forall x, f x = g x) -> find f l = find g l.
Proof. intros H; induction l; simpl; [reflexivity|]. now rewrite H, IHl. Qed.

Lemma In_dedup_iff l p :
  In p (map snd (uniquePRs_fill [] l)) <-> first_by_pair l p = Some p.
Proof.
  rewrite uniquePRs_fill_in by (intros kv []).
  unfold first_by_pair. rewrite (find_ext _ _ l (fun q => pr_key_eqb q p)).
  simpl. intuition.
Qed.

Lemma NoDup_pairs_dedup l : NoDup (map pr_pair (map snd (uniquePRs_fill [] l))).
Proof.
  destruct (uniquePRs_fill_inv [] l) as [Hk Hnd]; [intros kv []|constructor|].
  set (M := uniquePRs_fill [] l) in *.
  assert (E : map fst M =
              map (fun rn => (fst rn ++ String "#" (number_to_string (snd rn)))%string)
                  (map pr_pair (map snd M))).
  { rewrite !map_map. apply map_ext_in. intros kv Hin. apply Hk, Hin. }
  rewrite E in Hnd. eapply NoDup_map_inv, Hnd.
Qed.

(** C3: the list [fetchAllMergedPRs] returns, from the concatenation of the
    strategies' results, holds at most one PR per (repoFullName, number);
    it holds exactly the first occurrence of each such pair in the
    concatenation; and, when every [mergedAt] is a valid date, it is sorted
    ascending by merge time. *)
Theorem fetchAllMergedPRs_dedup_first_sorted :
  forall o specificPRs searchPRs orgPRs,
  let allPRs :=
    if nonempty o.(repos) then specificPRs
    else if negb o.(skipOrgScan) then searchPRs ++ orgPRs else searchPRs in
  let result := fetchAllMergedPRs o specificPRs searchPRs orgPRs in
  NoDup (map pr_pair result) /\
  (forall p, In p result <-> first_by_pair allPRs p = Some p) /\
  (Forall (fun p => mergedAt_time p <> None) allPRs -> Sorted mergedAt_le result).
Proof.
  intros o sp se og allPRs result.
  assert (Hres : result = dedup_and_sort allPRs) by reflexivity.
  rewrite Hres. unfold dedup_and_sort.
  pose proof (sort_by_perm mergedAt_gt (map snd (uniquePRs_fill [] allPRs))) as Hp.
  split; [|split].
  - eapply Permutation_NoDup; [apply Permutation_map; symmetry; exact Hp|].
    apply NoDup_pairs_dedup.
  - intros p. rewrite <- In_dedup_iff. split; intro H.
    + exact (Permutation_in _ Hp H).
    + exact (Permutation_in _ (Permutation_sym Hp) H).
  - intros HD. apply (sort_by_sorted_D _ _ (fun p => mergedAt_time p <> None)).
    + intros a b Ha Hb. unfold mergedAt_gt, mergedAt_le.
      destruct (mergedAt_time a), (mergedAt_time b); try contradiction.
      intro E. apply Z.ltb_lt in E. lia.
    + intros a b Ha Hb. unfold mergedAt_gt, mergedAt_le.
      destruct (mergedAt_time a), (mergedAt_time b); try contradiction.
      intro E. apply Z.ltb_ge in E. lia.
    + apply Forall_forall. intros p Hin.
      apply In_dedup_iff in Hin. apply find_some in Hin as [Hin _].
      rewrite Forall_forall in HD. now apply HD.
Qed.

(* ------------------------------------------------------------------ *)
(** ** Rate limiting and retries ([GitHubClient.request], part_000, lines 1003-1067) *)

(** The parts of a [fetch] response that [request] reads. *)
Record Response := mkResponse {
  status : Z;
  rateLimitRemaining : option string;  (** [headers.get('X-RateLimit-Remaining')] *)
  rateLimitReset : option string;      (** [headers.get('X-RateLimit-Reset')] *)
  bodyIsJson : bool                     (** [await response.json()] parses the body *)
}.

(** [response.ok] *)
Definition response_ok (r : Response) : bool := (200 <=? r.(status)) && (r.(status) <=? 299).

(** [parseInt(s, 10)]: leading whitespace, an optional sign, then the longest
    run of decimal digits; [None] (NaN) when there is no digit. *)
Fixpoint skip_ws (s : string) : string :=
  match s with
  | String c r => if is_space c then skip_ws r else s
  | EmptyString => s
  end.

Fixpoint digits_prefix (acc : Z) (seen : bool) (s : string) : option Z :=
  match s with
  | EmptyString => if seen then Some acc else None
  | String c r =>
      match digit_val c with
      | Some d => digits_prefix (acc * 10 + d) true r
      | None => if seen then Some acc else None
      end
  end.

Definition parseInt10 (s : string) : option Z :=
  match skip_ws s with
  | String c r =>
      if ascii_eqb c "-"%char then option_map Z.opp (digits_prefix 0 false r)
      else if ascii_eqb c "+"%char then digits_prefix 0 false r
      else digits_prefix 0 false (String c r)
  | EmptyString => None
  end.

(** The wait before a retry; [None] is NaN (a reset header with no digits). *)
Definition computeWaitTime (now : Z) (rateLimitReset : option string) : option Z :=
  match rateLimitReset with
  | Some s =>
      if String.eqb s "" then Some 60000  (* an empty header is falsy *)
      else
        match parseInt10 s with
        | Some r =>
            let resetTime := r * 1000 in
            let waitTime := Z.max (resetTime - now + 1000) 1000 in
            Some (Z.min waitTime 300000)
        | None => None
        end
  | None => Some 60000
  end.

Inductive ErrorKind := rate_limit_exceeded | api_error.

Inductive RequestOutcome :=
  | request_data
  | GitHubClientError (kind : ErrorKind) (status : Z)
  | json_syntax_error  (** the [SyntaxError] of [response.json()] *)
  | no_response.  (** the environment ran out of responses *)

Inductive Event := fetch_event (endpoint : string) | sleep_event (ms : option Z).

(** One response, as handled by the body of [request]. *)
Inductive StepResult :=
  | step_retry (waitTime : option Z)
  | step_done (o : RequestOutcome).

Definition request_step (retryCount : nat) (now : Z) (response : Response)
  : StepResult :=
  let throttled :=
    if (response.(status) =? 403) || (response.(status) =? 429) then
      match response.(rateLimitRemaining) with
      | Some s => String.eqb s "0"
      | None => false
      end || (response.(status) =? 429)
    else false in
  if throttled then
    if (3 <=? retryCount)%nat then
      step_done (GitHubClientError rate_limit_exceeded response.(status))
    else step_retry (computeWaitTime now response.(rateLimitReset))
  else if negb (response_ok response) then
    step_done (GitHubClientError api_error response.(status))
  else if response.(bodyIsJson) then step_done request_data
  else step_done json_syntax_error.

(** [request(endpoint, options, retryCount)]: each call fetches once; the
    environment [env] gives, call after call, the clock ([Date.now()]) and the
    response.  The trace lists the fetches and the retry sleeps. *)
Fixpoint request (endpoint : string) (retryCount : nat) (env : list (Z * Response))
  : RequestOutcome * list Event :=
  match env with
  | [] => (no_response, [])
  | (now, response) :: env' =>
      match request_step retryCount now response with
      | step_retry w =>
          let (o, trace) := request endpoint (S retryCount) env' in
          (o, fetch_event endpoint :: sleep_event w :: trace)
      | step_done o => (o, [fetch_event endpoint])
      end
  end.

(** A throttled response as the spec describes it: a 403 with zero remaining
    quota, or any 429. *)
Definition is_throttled (r : Response) : Prop :=
  (r.(status) = 403 /\ r.(rateLimitRemaining) = Some "0"%string) \/ r.(status) = 429.

Example computeWaitTime_example :
  computeWaitTime 1700000000000 (Some "1700000030"%string) = Some 31000.
Proof. reflexivity. Qed.

Lemma request_step_throttled n now r :
  is_throttled r ->
  request_step n now r =
    if (3 <=? n)%nat then step_done (GitHubClientError rate_limit_exceeded r.(status))
    else step_retry (computeWaitTime now r.(rateLimitReset)).
Proof.
  unfold request_step. intros [[Hs Hr]|Hs]; rewrite Hs.
  - rewrite Hr. reflexivity.
  - simpl. rewrite Bool.orb_true_r. reflexivity.
Qed.

(** C5: a throttled response (403 with no remaining quota, or 429) met with
    fewer than 3 retries consumed makes [request] sleep
    [min(max(reset * 1000 - now + 1000, 1000), 300000)] ms when the reset
    header holds an integer [reset], or 60000 ms when the header is absent,
    and fetch the same endpoint again with one more retry counted; with 3
    retries consumed it raises the rate-limit [GitHubClientError].  So four
    throttled responses in a row give three sleeps and then that error. *)
Theorem request_rate_limit_retries :
  (forall endpoint n now r env, is_throttled r -> (n < 3)%nat ->
     request endpoint n ((now, r) :: env) =
       let (o, trace) := request endpoint (S n) env in
       (o, fetch_event endpoint
             :: sleep_event (computeWaitTime now r.(rateLimitReset)) :: trace)) /\
  (forall endpoint n now r env, is_throttled r -> (3 <= n)%nat ->
     request endpoint n ((now, r) :: env) =
       (GitHubClientError rate_limit_exceeded r.(status), [fetch_event endpoint])) /\
  (forall now s reset, parseInt10 s = Some reset ->
     computeWaitTime now (Some s) =
       Some (Z.min (Z.max (reset * 1000 - now + 1000) 1000) 300000)) /\
  (forall now, computeWaitTime now None = Some 60000) /\
  (forall endpoint t1 t2 t3 t4 r1 r2 r3 r4 env,
     is_throttled r1 -> is_throttled r2 -> is_throttled r3 -> is_throttled r4 ->
     request endpoint 0 ((t1, r1) :: (t2, r2) :: (t3, r3) :: (t4, r4) :: env) =
       (GitHubClientError rate_limit_exceeded r4.(status),
        [fetch_event endpoint; sleep_event (computeWaitTime t1 r1.(rateLimitReset));
         fetch_event endpoint; sleep_event (computeWaitTime t2 r2.(rateLimitReset));
         fetch_event endpoint; sleep_event (computeWaitTime t3 r3.(rateLimitReset));
         fetch_event endpoint])).
Proof.
  split; [|split; [|split; [|split]]].
  - intros e n now r env Hr Hn. simpl. rewrite (request_step_throttled n now r Hr).
    destruct (3 <=? n)%nat eqn:E; [apply Nat.leb_le in E; lia|reflexivity].
  - intros e n now r env Hr Hn. simpl. rewrite (request_step_throttled n now r Hr).
    destruct (3 <=? n)%nat eqn:E; [reflexivity|apply Nat.leb_gt in E; lia].
  - intros now s reset H. unfold computeWaitTime.
    destruct (String.eqb_spec s "") as [->|_]; [discriminate|].
    now rewrite H.
  - reflexivity.
  - intros e t1 t2 t3 t4 r1 r2 r3 r4 env H1 H2 H3 H4. simpl.
    rewrite (request_step_throttled 0 t1 r1 H1), (request_step_throttled 1 t2 r2 H2),
      (request_step_throttled 2 t3 r3 H3), (request_step_throttled 3 t4 r4 H4).
    reflexivity.
Qed.

(* ------------------------------------------------------------------ *)
(** ** The file cache ([cache.ts]) *)

Definition CACHE_TTL_MS : Z := 24 * 60 * 60 * 1000.
Definition CACHE_VERSION : Z := 1.

(** [ToInt32] *)
Definition to_int32 (z : Z) : Z := (z + 2 ^ 31) mod 2 ^ 32 - 2 ^ 31.

Definition hex_char (d : Z) : ascii :=
  if d <? 10 then ascii_of_nat (Z.to_nat (48 + d)) else ascii_of_nat (Z.to_nat (87 + d)).

Fixpoint hex_aux (fuel : nat) (n : Z) (acc : string) : string :=
  match fuel with
  | O => acc
  | S fuel' =>
      let acc' := String (hex_char (n mod 16)) acc in
      if n / 16 =? 0 then acc' else hex_aux fuel' (n / 16) acc'
  end.

(** [n.toString(16)] for [0 <= n < 2^64]. *)
Definition toString16 (n : Z) : string := hex_aux 64 n EmptyString.

Example toString16_example : toString16 48879 = "beef"%string.
Proof. reflexivity. Qed.

(** The hash loop of [generateKey]:
    [hash = ((hash << 5) - hash) + char; hash = hash & hash]. *)
Fixpoint hash_loop (hash : Z) (s : string) : Z :=
  match s with
  | EmptyString => hash
  | String c r =>
      let char := Z.of_nat (nat_of_ascii c) in
      hash_loop (to_int32 (to_int32 (hash * 32) - hash + char)) r
  end.

Fixpoint join (sep : string) (xs : list string) : string :=
  match xs with
  | [] => EmptyString
  | [x] => x
  | x :: xs' => (x ++ sep ++ join sep xs')%string
  end.

(** [s.split(c)] for a one-character separator. *)
Fixpoint split_char (c : ascii) (s : string) : list string :=
  match s with
  | EmptyString => [EmptyString]
  | String x r =>
      if ascii_eqb x c then EmptyString :: split_char c r
      else match split_char c r with
           | h :: t => String x h :: t
           | [] => [String x EmptyString]
           end
  end.

(** [s] contains the character [c]. *)
Fixpoint has_char (c : ascii) (s : string) : bool :=
  match s with
  | EmptyString => false
  | String x r => ascii_eqb x c || has_char c r
  end.

Section Paths.
Local Open Scope string_scope.

(** [path.posix.normalize]: the segment stack of [normalizeString], kept
    with its top first.  An empty or [.] segment is dropped, [..] pops the
    top unless it is [..] itself (or the stack is empty), in which case it
    is pushed when the path may go above its root; any other segment is
    pushed. *)
Definition normalize_segment (allowAboveRoot : bool) (stack : list string)
    (segment : string) : list string :=
  if String.eqb segment "" || String.eqb segment "." then stack
  else if String.eqb segment ".." then
    match stack with
    | top :: rest =>
        if String.eqb top ".." then (if allowAboveRoot then ".." :: stack else stack)
        else rest
    | [] => if allowAboveRoot then [".."] else []
    end
  else segment :: stack.

Definition normalize_stack (allowAboveRoot : bool) (path : string) : list string :=
  fold_left (normalize_segment allowAboveRoot) (split_char "/"%char path) [].

(** [normalizeString(path, allowAboveRoot, '/')] *)
Definition normalizeString (allowAboveRoot : bool) (path : string) : string :=
  join "/" (rev (normalize_stack allowAboveRoot path)).

(** The last character of [s] is ['/']. *)
Fixpoint ends_with_slash (s : string) : bool :=
  match s with
  | EmptyString => false
  | String c EmptyString => ascii_eqb c "/"%char
  | String _ r => ends_with_slash r
  end.

(** [path.posix.normalize(path)] *)
Definition path_normalize (path : string) : string :=
  if String.eqb path "" then "."
  else
    let isAbsolute := String.prefix "/" path in
    let trailingSeparator := ends_with_slash path in
    let path' := normalizeString (negb isAbsolute) path in
    if String.eqb path' "" then
      (if isAbsolute then "/" else if trailingSeparator then "./" else ".")
    else
      let path'' := if trailingSeparator then (path' ++ "/")%string else path' in
      if isAbsolute then ("/" ++ path'')%string else path''.

(** [path.posix.join(a, b)]: the non-empty arguments joined with ['/'],
    then normalized; ["."] when both are empty. *)
Definition path_join (a b : string) : string :=
  let joined :=
    if String.eqb a "" then b
    else if String.eqb b "" then a
    else (a ++ "/" ++ b)%string in
  if String.eqb joined "" then "." else path_normalize joined.

End Paths.

Record CacheEntry (A : Type) := mkEntry {
  data : A;
  timestamp : Z;
  version : Z
}.
Arguments mkEntry {A}.
Arguments data {A}.
Arguments timestamp {A}.
Arguments version {A}.

(** A cache file: a JSON text that parses to an entry, or one that does not. *)
Inductive CacheFile (A : Type) := json_entry (e : CacheEntry A) | unparsable.
Arguments json_entry {A}.
Arguments unparsable {A}.

(** The end of the write of [Cache.set]: done, or thrown with the file left
    as [leftover]. *)
Inductive WriteOutcome (A : Type) := write_ok | write_failed (leftover : option (CacheFile A)).
Arguments write_ok {A}.
Arguments write_failed {A}.

Section Cache.
(** [String.prototype.localeCompare] (host collation) and the cache
    directory [join(homedir(), '.whatidid-cache')]. *)
Variable localeCompare : string -> string -> Z.
Variable CACHE_DIR : string.
Context {A : Type}.

(** [generateKey] *)
Definition generateKey (prefix : string) (params : list (string * string))
  : string :=
  let sortedParams :=
    join "&" (map (fun kv => (fst kv ++ "=" ++ snd kv)%string)
                (sort_by (fun a b => 0 <? localeCompare (fst a) (fst b)) params)) in
  let str := (prefix ++ ":" ++ sortedParams)%string in
  let hash := hash_loop 0 str in
  (prefix ++ "_" ++ toString16 (Z.abs hash))%string.

(** [getCachePath]: [join(CACHE_DIR, `${key}.json`)]. *)
Definition getCachePath (key : string) : string :=
  path_join CACHE_DIR (key ++ ".json").

(** The file system: path to file contents. *)
Definition FileSystem := string -> option (CacheFile A).

(** [Cache.get] at time [now] ([Date.now()]). *)
Definition cache_get (enabled : bool) (fs : FileSystem) (now : Z)
    (prefix : string) (params : list (string * string)) : option A :=
  if negb enabled then None
  else
    let key := generateKey prefix params in
    let path := getCachePath key in
    match fs path with
    | None => None                          (* !existsSync(path) *)
    | Some unparsable => None               (* JSON.parse throws *)
    | Some (json_entry entry) =>
        if negb (entry.(version) =? CACHE_VERSION) then None
        else if now - entry.(timestamp) >? CACHE_TTL_MS then None
        else Some entry.(data)
    end.

(** [Cache.set] at time [now]. [JSON.stringify] and [Bun.write] either
    write the entry to the key's file, or throw, the error being swallowed,
    leaving that file as [leftover] (as it was, or partly written). *)
Definition cache_set_io (enabled : bool) (fs : FileSystem) (now : Z)
    (prefix : string) (params : list (string * string)) (d : A)
    (outcome : WriteOutcome A) : FileSystem :=
  if negb enabled then fs
  else
    let path := getCachePath (generateKey prefix params) in
    let content :=
      match outcome with
      | write_ok => Some (json_entry (mkEntry d now CACHE_VERSION))
      | write_failed leftover => leftover
      end in
    fun p => if String.eqb p path then content else fs p.

(** [Cache.set] whose write succeeds. *)
Definition cache_set (enabled : bool) (fs : FileSystem) (now : Z)
    (prefix : string) (params : list (string * string)) (d : A) : FileSystem :=
  cache_set_io enabled fs now prefix params d write_ok.
End Cache.

(** C6: [Cache.get] of a (prefix, params) whose cache file holds an entry
    with another version, or one older than 24 hours, returns [null]; in
    particular an entry written by [Cache.set] at [T] and read at [T + 25h] is
    absent. *)
Theorem cache_get_expired_or_stale :
  forall localeCompare CACHE_DIR A,
  (forall enabled (fs : FileSystem (A := A)) now prefix params (entry : CacheEntry A),
     fs (getCachePath CACHE_DIR (generateKey localeCompare prefix params))
       = Some (json_entry entry) ->
     entry.(version) <> CACHE_VERSION \/ now - entry.(timestamp) > CACHE_TTL_MS ->
     cache_get localeCompare CACHE_DIR enabled fs now prefix params = None) /\
  (forall enabled (fs : FileSystem (A := A)) T prefix params (d : A),
     cache_get localeCompare CACHE_DIR enabled
       (cache_set localeCompare CACHE_DIR enabled fs T prefix params d)
       (T + 25 * 60 * 60 * 1000) prefix params = None).
Proof.
  intros lc dir A. split.
  - intros enabled fs now prefix params entry Hfs Hold.
    unfold cache_get. destruct enabled; [|reflexivity]. simpl. rewrite Hfs.
    destruct Hold as [Hv|Ht].
    + destruct (version entry =? CACHE_VERSION) eqn:E; [|reflexivity].
      apply Z.eqb_eq in E. contradiction.
    + destruct (negb _); [reflexivity|].
      destruct (now - timestamp entry >? CACHE_TTL_MS) eqn:E; [reflexivity|].
      rewrite Z.gtb_ltb in E. apply Z.ltb_ge in E. lia.
  - intros enabled fs T prefix params d.
    unfold cache_get, cache_set, cache_set_io. destruct enabled; [|reflexivity]. simpl.
    rewrite String.eqb_refl. simpl.
    destruct (_ >? CACHE_TTL_MS) eqn:E; [reflexivity|].
    rewrite Z.gtb_ltb in E. apply Z.ltb_ge in E. unfold CACHE_TTL_MS in E. lia.
Qed.

(* ================================================================== *)
(** * Further properties of the clustering engine *)

(** PR numbers carried by a list of features. *)
Definition prs_of (l : list Feature) (x : Z) : Prop :=
  exists f, In f l /\ In x f.(prs).

Lemma mergeFeatures_prs_iff f1 f2 x :
  In x (mergeFeatures f1 f2).(prs) <-> In x f1.(prs) \/ In x f2.(prs).
Proof.
  destruct (set_add_all_spec [] (f1.(prs) ++ f2.(prs)) (NoDup_nil _)) as [_ Hin].
  simpl. split; intro H.
  - apply (Permutation_in _ (sort_by_perm _ _)) in H.
    apply Hin in H as [[]|H]. now apply in_app_iff.
  - apply (Permutation_in _ (Permutation_sym (sort_by_perm _ _))).
    apply Hin. right. now apply in_app_iff.
Qed.

(** A property of features that a merge keeps: it holds of the merge as soon
    as it holds of both inputs. *)
Definition merge_closed (P : Feature -> Prop) : Prop :=
  forall f1 f2, P f1 -> P f2 -> P (mergeFeatures f1 f2).

Lemma merge_closed_project k : merge_closed (fun f => f.(project) = k).
Proof.
  intros f1 f2 H1 H2. unfold mergeFeatures; simpl.
  destruct (_ || _); assumption.
Qed.

Lemma merge_closed_dates : merge_closed
  (fun f => parse_date f.(startDate) <> None /\ parse_date f.(endDate) <> None).
Proof.
  intros f1 f2 [H1 H1'] [H2 H2']. unfold mergeFeatures; simpl.
  split; destruct (date_lt _ _); assumption.
Qed.

Section ScanInvariants.
Variable thr : Q.

Lemma scan_rest_sub cur rem f :
  In f (snd (scan thr cur rem)) -> In f rem.
Proof.
  revert cur; induction rem as [|c cs IH]; intros cur; simpl; [auto|].
  destruct (Qle_bool thr _).
  - intros H. right. eapply IH, H.
  - specialize (IH cur). destruct (scan thr cur cs) as [c' r'] eqn:E.
    simpl in *. intros [<-|H]; auto.
Qed.

Lemma scan_prs cur rem x :
  let (cur', rest') := scan thr cur rem in
  (In x cur'.(prs) \/ prs_of rest' x) <-> (In x cur.(prs) \/ prs_of rem x).
Proof.
  revert cur; induction rem as [|c cs IH]; intros cur; simpl; [reflexivity|].
  destruct (Qle_bool thr _).
  - specialize (IH (mergeFeatures cur c)).
    destruct (scan thr (mergeFeatures cur c) cs) as [c' r']. rewrite IH.
    rewrite mergeFeatures_prs_iff. unfold prs_of. simpl. split.
    + intros [[H|H]|[f [Hf Hx]]]; auto.
      * right. exists c. auto.
      * right. exists f. auto.
    + intros [H|[f [[<-|Hf] Hx]]]; auto. right. exists f. auto.
  - specialize (IH cur). destruct (scan thr cur cs) as [c' r'].
    unfold prs_of in *. simpl. split.
    + intros [H|[f [[Hf|Hf] Hx]]].
      * destruct (proj1 IH (or_introl H)) as [H'|[g [Hg Hx']]]; auto.
        right. exists g. auto.
      * right. exists f. auto.
      * destruct (proj1 IH (or_intror (ex_intro _ f (conj Hf Hx))))
          as [H'|[g [Hg Hx']]]; auto. right. exists g. auto.
    + intros [H|[f [[Hf|Hf] Hx]]].
      * destruct (proj2 IH (or_introl H)) as [H'|[g [Hg Hx']]]; auto.
        right. exists g. auto.
      * right. exists f. auto.
      * destruct (proj2 IH (or_intror (ex_intro _ f (conj Hf Hx))))
          as [H'|[g [Hg Hx']]]; auto. right. exists g. auto.
Qed.

Lemma scan_closed (P : Feature -> Prop) cur rem :
  merge_closed P -> P cur -> Forall P rem -> P (fst (scan thr cur rem)).
Proof.
  intros HP. revert cur; induction rem as [|c cs IH]; intros cur Hc Hr; simpl;
    [exact Hc|].
  inversion Hr; subst.
  destruct (Qle_bool thr _).
  - apply IH; auto.
  - specialize (IH cur Hc). destruct (scan thr cur cs); simpl in *; auto.
Qed.

Lemma merge_rounds_prs fuel rem x :
  (length rem <= fuel)%nat ->
  (prs_of (merge_rounds thr fuel rem) x <-> prs_of rem x).
Proof.
  revert rem; induction fuel as [|fuel IH]; intros rem Hlen.
  - destruct rem; [reflexivity|simpl in Hlen; lia].
  - destruct rem as [|cur rest]; [reflexivity|]. simpl.
    pose proof (scan_prs cur rest x) as Hs.
    pose proof (scan_length thr cur rest) as Hl.
    destruct (scan thr cur rest) as [c' r']. simpl in Hl.
    assert (Hr : prs_of (merge_rounds thr fuel r') x <-> prs_of r' x)
      by (apply IH; simpl in Hlen; lia).
    unfold prs_of in *. simpl. split.
    + intros [f [[<-|Hf] Hx]].
      * destruct (proj1 Hs (or_introl Hx)) as [H|[g [Hg H]]];
          [exists cur|exists g]; auto.
      * destruct (proj1 Hr (ex_intro _ f (conj Hf Hx))) as [g [Hg H]].
        destruct (proj1 Hs (or_intror (ex_intro _ g (conj Hg H))))
          as [H'|[h [Hh H']]]; [exists cur|exists h]; auto.
    + intros [f [[<-|Hf] Hx]].
      * destruct (proj2 Hs (or_introl Hx)) as [H|[g [Hg H]]].
        -- exists c'. auto.
        -- destruct (proj2 Hr (ex_intro _ g (conj Hg H))) as [h [Hh H']].
           exists h. auto.
      * destruct (proj2 Hs (or_intror (ex_intro _ f (conj Hf Hx))))
          as [H|[g [Hg H]]].
        -- exists c'. auto.
        -- destruct (proj2 Hr (ex_intro _ g (conj Hg H))) as [h [Hh H']].
           exists h. auto.
Qed.

Lemma merge_rounds_closed (P : Feature -> Prop) fuel rem :
  merge_closed P -> Forall P rem -> Forall P (merge_rounds thr fuel rem).
Proof.
  intros HP. revert rem; induction fuel as [|fuel IH]; intros rem Hr;
    [constructor|].
  destruct rem as [|cur rest]; [constructor|]. simpl.
  inversion Hr; subst.
  pose proof (scan_closed P cur rest HP) as Hc.
  assert (Hf : Forall P (snd (scan thr cur rest))).
  { apply Forall_forall. intros f Hf. apply scan_rest_sub in Hf.
    rewrite Forall_forall in *. auto. }
  destruct (scan thr cur rest) as [c' r']. simpl in *.
  constructor; auto.
Qed.

Lemma merge_rounds_length fuel rem :
  (length (merge_rounds thr fuel rem) <= length rem)%nat.
Proof.
  revert rem; induction fuel as [|fuel IH]; intros rem; simpl; [lia|].
  destruct rem as [|cur rest]; simpl; [lia|].
  pose proof (scan_length thr cur rest) as Hl.
  destruct (scan thr cur rest) as [c' r']. simpl in *.
  specialize (IH r'). lia.
Qed.

Lemma merge_rounds_nonempty fuel rem :
  (0 < fuel)%nat -> rem <> [] -> merge_rounds thr fuel rem <> [].
Proof.
  destruct fuel; [lia|]. destruct rem as [|cur rest]; [congruence|].
  intros _ _. simpl. destruct (scan thr cur rest). discriminate.
Qed.

End ScanInvariants.

Lemma mergeSimilarFeatures_closed (P : Feature -> Prop) thr l :
  merge_closed P -> Forall P l -> Forall P (mergeSimilarFeatures thr l).
Proof.
  intros HP Hl. unfold mergeSimilarFeatures.
  destruct (_ <=? 1)%nat; [exact Hl|]. now apply merge_rounds_closed.
Qed.

(** X1: [mergeSimilarFeatures] neither loses nor invents a PR number: a PR is
    carried by some output feature exactly when it is carried by some input
    feature; and it never returns more features than it was given. *)
Theorem mergeSimilarFeatures_conserves_prs : forall thr features,
  (forall x, prs_of (mergeSimilarFeatures thr features) x <-> prs_of features x) /\
  (length (mergeSimilarFeatures thr features) <= length features)%nat.
Proof.
  intros thr l. unfold mergeSimilarFeatures.
  destruct (length l <=? 1)%nat; [split; [reflexivity|lia]|].
  split; [intros x; apply merge_rounds_prs; lia|apply merge_rounds_length].
Qed.

(* ------------------------------------------------------------------ *)
(** ** Grouping and summaries (grouping.ts, lines 143-287) *)

(** [groups.get(feature.project)] then [push] or [set]: the [Map] as an
    insertion-ordered association list. *)
Definition group_add (groups : list (string * list Feature)) (feature : Feature)
  : list (string * list Feature) :=
  if existsb (fun kg => String.eqb (fst kg) feature.(project)) groups
  then map (fun kg => if String.eqb (fst kg) feature.(project)
                      then (fst kg, snd kg ++ [feature]) else kg) groups
  else groups ++ [(feature.(project), [feature])].

(** [groupByRepository] *)
Definition groupByRepository (features : list Feature) : list (string * list Feature) :=
  fold_left group_add features [].

(** [sortFeatures]: by [new Date(endDate).getTime()]. *)
Definition endDate_gt (a b : Feature) : bool :=
  match parse_date a.(endDate), parse_date b.(endDate) with
  | Some x, Some y => 0 <? x - y
  | _, _ => false
  end.

Definition sortFeatures (features : list Feature) : list Feature :=
  sort_by endDate_gt features.

Record ProjectSummary := mkSummary {
  ps_repoName : string;
  ps_repoFullName : string;
  ps_features : list Feature;
  ps_startDate : string;
  ps_endDate : string;
  ps_totalPRs : nat
}.

(** [s.split('/')[1] ?? s] *)
Fixpoint after_first_slash (s : string) : option string :=
  match s with
  | EmptyString => None
  | String c r => if ascii_eqb c "/"%char then Some r else after_first_slash r
  end.

Definition repoName_of (repoFullName : string) : string :=
  match after_first_slash repoFullName with
  | Some rest => split_slash_first rest
  | None => repoFullName
  end.

(** The loop of [groupFeatures] over the sorted features computing the date
    range ([''] is falsy). *)
Definition summary_dates_step (se : string * string) (feature : Feature)
  : string * string :=
  let (start, end_) := se in
  let start :=
    if String.eqb start "" || date_lt feature.(startDate) start
    then feature.(startDate) else start in
  let end_ :=
    if String.eqb end_ "" || date_lt end_ feature.(endDate)
    then feature.(endDate) else end_ in
  (start, end_).

Definition summarize (group : string * list Feature) : ProjectSummary :=
  let (repoFullName, repoFeatures) := group in
  let mergedFeatures := mergeSimilarFeatures defaultSimilarityThreshold repoFeatures in
  let sortedFeatures := sortFeatures mergedFeatures in
  let (start, end_) := fold_left summary_dates_step sortedFeatures (""%string, ""%string) in
  let allPRs := new_Set (concat (map prs sortedFeatures)) in
  {| ps_repoName := repoName_of repoFullName;
     ps_repoFullName := repoFullName;
     ps_features := sortedFeatures;
     ps_startDate := start;
     ps_endDate := end_;
     ps_totalPRs := length allPRs |}.

Definition startDate_gt (a b : ProjectSummary) : bool :=
  match parse_date a.(ps_startDate), parse_date b.(ps_startDate) with
  | Some x, Some y => 0 <? x - y
  | _, _ => false
  end.

(** [groupFeatures] *)
Definition groupFeatures (features : list Feature) : list ProjectSummary :=
  sort_by startDate_gt (map summarize (groupByRepository features)).

Example repoName_of_example : repoName_of "acme/tool" = "tool"%string.
Proof. reflexivity. Qed.

(** *** [groupByRepository] in closed form *)

Definition proj_is (k : string) (f : Feature) : bool := String.eqb f.(project) k.

Definition groups_spec (P : list Feature) : list (string * list Feature) :=
  map (fun k => (k, filter (proj_is k) P)) (new_StrSet (map project P)).

Lemma str_set_add_all_snoc acc l x :
  str_set_add_all acc (l ++ [x]) =
  let s := str_set_add_all acc l in if includes s x then s else s ++ [x].
Proof. revert acc; induction l; intros acc; simpl; auto. Qed.

Lemma includes_iff xs x : includes xs x = true <-> In x xs.
Proof.
  unfold includes. rewrite existsb_exists. split.
  - intros [y [Hy E]]. apply String.eqb_eq in E. now subst.
  - intros H. exists x. split; [exact H|apply String.eqb_refl].
Qed.

Lemma str_set_add_all_in acc l x :
  In x (str_set_add_all acc l) <-> In x acc \/ In x l.
Proof.
  revert acc; induction l as [|y ys IH]; intros acc; simpl; [intuition|].
  rewrite IH. destruct (includes acc y) eqn:E.
  - apply includes_iff in E. split; [intuition|].
    intros [H|[<-|H]]; auto.
  - rewrite in_app_iff. simpl. intuition.
Qed.

Lemma str_set_add_all_nodup acc l :
  NoDup acc -> NoDup (str_set_add_all acc l).
Proof.
  revert acc; induction l as [|y ys IH]; intros acc H; simpl; [exact H|].
  apply IH. destruct (includes acc y) eqn:E; [exact H|].
  apply NoDup_app; [exact H|repeat constructor; auto|].
  intros x Hx [<-|[]]. assert (includes acc y = true) by now apply includes_iff.
  congruence.
Qed.

Lemma filter_none {A} (p : A -> bool) l :
  (forall x, In x l -> p x = false) -> filter p l = [].
Proof.
  induction l as [|a l IH]; intros H; simpl; [reflexivity|].
  rewrite H by (now left). apply IH. intros x Hx. apply H. now right.
Qed.

Lemma group_add_spec P f : group_add (groups_spec P) f = groups_spec (P ++ [f]).
Proof.
  unfold group_add, groups_spec, new_StrSet.
  replace (map project (P ++ [f])) with (map project P ++ [project f])
    by (rewrite map_app; reflexivity).
  rewrite str_set_add_all_snoc. cbv zeta.
  set (keys := str_set_add_all [] (map project P)).
  assert (Hex : existsb (fun kg => String.eqb (fst kg) (project f))
                  (map (fun k => (k, filter (proj_is k) P)) keys)
                = includes keys (project f)).
  { unfold includes. clear. induction keys as [|k ks IH]; simpl; [reflexivity|].
    now rewrite IH, String.eqb_sym. }
  rewrite Hex. destruct (includes keys (project f)) eqn:E.
  - rewrite map_map. apply map_ext. intros k. simpl.
    rewrite filter_app. simpl. unfold proj_is.
    destruct (String.eqb_spec k (project f)) as [Ek|Ek];
    destruct (String.eqb_spec (project f) k); try congruence.
    now rewrite app_nil_r.
  - rewrite map_app. simpl. f_equal.
    + apply map_ext_in. intros k Hk. rewrite filter_app. simpl.
      unfold proj_is. destruct (String.eqb_spec (project f) k) as [Ek|Ek].
      * subst. assert (includes keys (project f) = true) by now apply includes_iff.
        congruence.
      * now rewrite ?app_nil_r.
    + f_equal. f_equal. rewrite filter_app. simpl.
      unfold proj_is. rewrite String.eqb_refl.
      rewrite filter_none; [reflexivity|].
      intros g Hg. destruct (String.eqb_spec (project g) (project f))
        as [Eg|]; [|reflexivity].
      exfalso. assert (includes keys (project f) = true); [|congruence].
      apply includes_iff, str_set_add_all_in. right.
      rewrite <- Eg. now apply in_map.
Qed.

(** X2: [groupByRepository] returns one group per distinct project, in the
    order in which the projects first occur, and each group holds exactly the
    features of its project in their input order. *)
Theorem groupByRepository_closed_form : forall features,
  groupByRepository features =
    map (fun k => (k, filter (fun f => String.eqb f.(project) k) features))
        (new_StrSet (map project features)).
Proof.
  intros l. change (groupByRepository l = groups_spec l).
  unfold groupByRepository.
  change [] with (groups_spec []).
  change l with ([] ++ l) at 2. generalize (@nil Feature) as P.
  induction l as [|f l IH]; intros P; simpl; [now rewrite app_nil_r|].
  rewrite group_add_spec, IH, <- app_assoc. reflexivity.
Qed.

(** *** Invariants of [groupFeatures] *)

Lemma mergeSimilarFeatures_prs thr l x :
  prs_of (mergeSimilarFeatures thr l) x <-> prs_of l x.
Proof.
  unfold mergeSimilarFeatures.
  destruct (length l <=? 1)%nat eqn:E; [reflexivity|].
  apply merge_rounds_prs. lia.
Qed.

Lemma mergeSimilarFeatures_nonempty thr l :
  l <> [] -> mergeSimilarFeatures thr l <> [].
Proof.
  intros Hl. unfold mergeSimilarFeatures.
  destruct (length l <=? 1)%nat eqn:E; [exact Hl|].
  apply Nat.leb_gt in E. apply merge_rounds_nonempty; [lia|exact Hl].
Qed.

Lemma prs_of_perm l l' x : Permutation l l' -> prs_of l x -> prs_of l' x.
Proof.
  intros Hp [f [Hf Hx]]. exists f. split; [|exact Hx].
  eapply Permutation_in; eassumption.
Qed.

Lemma in_concat_prs l x : In x (concat (map prs l)) <-> prs_of l x.
Proof.
  rewrite in_concat. unfold prs_of. split.
  - intros [ps [Hps Hx]]. apply in_map_iff in Hps as [f [<- Hf]]. eauto.
  - intros [f [Hf Hx]]. exists f.(prs). split; [now apply in_map|exact Hx].
Qed.

Lemma nodup_same_length (a b : list Z) :
  NoDup a -> NoDup b -> (forall x, In x a <-> In x b) -> length a = length b.
Proof.
  intros Ha Hb H. apply Nat.le_antisymm; apply NoDup_incl_length; auto;
    intros x; apply H.
Qed.

Lemma summarize_fields k g :
  let s := summarize (k, g) in
  s.(ps_repoName) = repoName_of k /\
  s.(ps_repoFullName) = k /\
  s.(ps_features) = sortFeatures (mergeSimilarFeatures defaultSimilarityThreshold g) /\
  s.(ps_startDate) = fst (fold_left summary_dates_step s.(ps_features) (""%string, ""%string)) /\
  s.(ps_endDate) = snd (fold_left summary_dates_step s.(ps_features) (""%string, ""%string)) /\
  s.(ps_totalPRs) = length (new_Set (concat (map prs s.(ps_features)))).
Proof.
  unfold summarize.
  destruct (fold_left summary_dates_step _ _) as [st en] eqn:E.
  simpl. rewrite E. repeat split.
Qed.

Lemma In_groupFeatures features s :
  In s (groupFeatures features) <->
  exists k, In k (new_StrSet (map project features)) /\
            s = summarize (k, filter (proj_is k) features).
Proof.
  unfold groupFeatures. split.
  - intros H. apply (Permutation_in _ (sort_by_perm _ _)) in H.
    rewrite groupByRepository_closed_form in H.
    apply in_map_iff in H as [kg [<- Hkg]].
    apply in_map_iff in Hkg as [k [<- Hk]]. eauto.
  - intros [k [Hk ->]]. apply (Permutation_in _ (Permutation_sym (sort_by_perm _ _))).
    rewrite groupByRepository_closed_form. apply in_map.
    apply in_map_iff. exists k. split; [reflexivity|exact Hk].
Qed.

Lemma groupFeatures_names features :
  Permutation (map ps_repoFullName (groupFeatures features))
              (new_StrSet (map project features)).
Proof.
  unfold groupFeatures. rewrite (Permutation_map _ (sort_by_perm _ _)).
  rewrite groupByRepository_closed_form, !map_map.
  erewrite map_ext; [rewrite map_id; reflexivity|].
  intros k. simpl. apply (summarize_fields k).
Qed.

Lemma filter_proj_nonempty k l :
  In k (map project l) -> filter (proj_is k) l <> [].
Proof.
  intros Hk. apply in_map_iff in Hk as [f [Ef Hf]].
  assert (In f (filter (proj_is k) l)).
  { apply filter_In. split; [exact Hf|]. unfold proj_is. subst. apply String.eqb_refl. }
  destruct (filter (proj_is k) l); [contradiction|discriminate].
Qed.

(** X3: [groupFeatures] returns one summary per distinct repository of its
    input (no repository twice, none left out). The features of a summary all
    belong to its repository, they carry exactly the PR numbers of the input
    features of that repository, there is at least one, and [totalPRs] is the
    number of distinct PR numbers among those input features. *)
Theorem groupFeatures_summaries : forall features,
  Permutation (map ps_repoFullName (groupFeatures features))
              (new_StrSet (map project features)) /\
  NoDup (map ps_repoFullName (groupFeatures features)) /\
  forall s, In s (groupFeatures features) ->
    s.(ps_features) <> [] /\
    Forall (fun f => f.(project) = s.(ps_repoFullName)) s.(ps_features) /\
    (forall x, prs_of s.(ps_features) x <->
               exists f, In f features /\ f.(project) = s.(ps_repoFullName) /\ In x f.(prs)) /\
    s.(ps_totalPRs) =
      length (new_Set (concat (map prs
        (filter (fun f => String.eqb f.(project) s.(ps_repoFullName)) features)))).
Proof.
  intros l. pose proof (groupFeatures_names l) as Hn.
  split; [exact Hn|]. split.
  { eapply Permutation_NoDup; [apply Permutation_sym, Hn|].
    apply str_set_add_all_nodup. constructor. }
  intros s Hs. apply In_groupFeatures in Hs as [k [Hk ->]].
  destruct (summarize_fields k (filter (proj_is k) l)) as (_ & Hname & Hfeat & _ & _ & Hcnt).
  rewrite Hcnt, Hname, Hfeat.
  assert (Hprs : forall x, prs_of (sortFeatures (mergeSimilarFeatures
                   defaultSimilarityThreshold (filter (proj_is k) l))) x <->
                 prs_of (filter (proj_is k) l) x).
  { intros x. split.
    - intros H. apply prs_of_perm with (l' := mergeSimilarFeatures
        defaultSimilarityThreshold (filter (proj_is k) l)) in H;
        [|apply sort_by_perm]. now apply mergeSimilarFeatures_prs in H.
    - intros H. apply (mergeSimilarFeatures_prs defaultSimilarityThreshold) in H.
      eapply prs_of_perm; [apply Permutation_sym, sort_by_perm|exact H]. }
  split; [|split; [|split]].
  - intros E. pose proof (sort_by_perm endDate_gt (mergeSimilarFeatures
      defaultSimilarityThreshold (filter (proj_is k) l))) as P.
    unfold sortFeatures in E. rewrite E in P. apply Permutation_nil in P.
    revert P. apply mergeSimilarFeatures_nonempty, filter_proj_nonempty.
    apply str_set_add_all_in in Hk as [[]|Hk]. exact Hk.
  - apply Forall_forall. intros f Hf.
    apply (Permutation_in _ (sort_by_perm _ _)) in Hf. revert f Hf.
    apply Forall_forall, mergeSimilarFeatures_closed; [apply merge_closed_project|].
    apply Forall_forall. intros f Hf. apply filter_In in Hf as [_ Hf].
    now apply String.eqb_eq in Hf.
  - intros x. rewrite Hprs. unfold prs_of. split.
    + intros [f [Hf Hx]]. apply filter_In in Hf as [Hf E].
      apply String.eqb_eq in E. eauto.
    + intros [f [Hf [E Hx]]]. exists f. split; [|exact Hx].
      apply filter_In. split; [exact Hf|]. unfold proj_is. rewrite E.
      apply String.eqb_refl.
  - apply nodup_same_length.
    + apply set_add_all_spec. constructor.
    + apply set_add_all_spec. constructor.
    + intros x. unfold new_Set.
      rewrite (proj2 (set_add_all_spec [] _ (NoDup_nil _))).
      rewrite (proj2 (set_add_all_spec [] _ (NoDup_nil _))).
      rewrite in_concat_prs, in_concat_prs. specialize (Hprs x).
      unfold proj_is in Hprs. simpl. tauto.
Qed.

(** *** Dates of the summaries *)

(** [a] and [b] are valid dates and [a] is not later than [b]. *)
Definition date_le (a b : string) : Prop :=
  exists x y, parse_date a = Some x /\ parse_date b = Some y /\ x <= y.

Definition valid_dates (f : Feature) : Prop :=
  parse_date f.(startDate) <> None /\ parse_date f.(endDate) <> None.

Definition start_step (start : string) (feature : Feature) : string :=
  if String.eqb start "" || date_lt feature.(startDate) start
  then feature.(startDate) else start.

Definition end_step (end_ : string) (feature : Feature) : string :=
  if String.eqb end_ "" || date_lt end_ feature.(endDate)
  then feature.(endDate) else end_.

Lemma summary_dates_fold fs s e :
  fold_left summary_dates_step fs (s, e) =
  (fold_left start_step fs s, fold_left end_step fs e).
Proof. revert s e; induction fs as [|f fs IH]; intros s e; simpl; auto. Qed.

Lemma parse_date_empty : parse_date "" = None.
Proof. reflexivity. Qed.

Lemma parse_some_nonempty s x : parse_date s = Some x -> String.eqb s "" = false.
Proof.
  intros H. destruct (String.eqb_spec s ""); [subst; discriminate|reflexivity].
Qed.

Lemma start_fold fs s x :
  Forall (fun f => parse_date f.(startDate) <> None) fs -> parse_date s = Some x ->
  exists y, parse_date (fold_left start_step fs s) = Some y /\ y <= x /\
    (fold_left start_step fs s = s \/ In (fold_left start_step fs s) (map startDate fs)) /\
    (forall f z, In f fs -> parse_date f.(startDate) = Some z -> y <= z).
Proof.
  revert s x; induction fs as [|f fs IH]; intros s x Hv Hs; simpl.
  - exists x. repeat split; auto; [lia|intros ? ? []].
  - inversion Hv as [|? ? Hf Hv']; subst.
    destruct (parse_date f.(startDate)) as [z|] eqn:Ez; [|congruence].
    replace (start_step s f) with (if z <? x then f.(startDate) else s)
      by (unfold start_step; now rewrite (parse_some_nonempty _ _ Hs),
            (date_lt_some _ _ _ _ Ez Hs)).
    destruct (z <? x) eqn:Ezx.
    + apply Z.ltb_lt in Ezx.
      destruct (IH _ _ Hv' Ez) as (y & Hy & Hyz & Hin & Hall).
      exists y. repeat split; auto; [lia| |].
      * destruct Hin as [->|Hin]; auto.
      * intros g w [<-|Hg] Hw; [congruence|eauto].
    + apply Z.ltb_ge in Ezx.
      destruct (IH _ _ Hv' Hs) as (y & Hy & Hyx & Hin & Hall).
      exists y. repeat split; auto.
      * destruct Hin as [->|Hin]; auto.
      * intros g w [<-|Hg] Hw; [|eauto]. rewrite Ez in Hw. injection Hw. lia.
Qed.

Lemma end_fold fs s x :
  Forall (fun f => parse_date f.(endDate) <> None) fs -> parse_date s = Some x ->
  exists y, parse_date (fold_left end_step fs s) = Some y /\ x <= y /\
    (fold_left end_step fs s = s \/ In (fold_left end_step fs s) (map endDate fs)) /\
    (forall f z, In f fs -> parse_date f.(endDate) = Some z -> z <= y).
Proof.
  revert s x; induction fs as [|f fs IH]; intros s x Hv Hs; simpl.
  - exists x. repeat split; auto; [lia|intros ? ? []].
  - inversion Hv as [|? ? Hf Hv']; subst.
    destruct (parse_date f.(endDate)) as [z|] eqn:Ez; [|congruence].
    replace (end_step s f) with (if x <? z then f.(endDate) else s)
      by (unfold end_step; now rewrite (parse_some_nonempty _ _ Hs),
            (date_lt_some _ _ _ _ Hs Ez)).
    destruct (x <? z) eqn:Ezx.
    + apply Z.ltb_lt in Ezx.
      destruct (IH _ _ Hv' Ez) as (y & Hy & Hyz & Hin & Hall).
      exists y. repeat split; auto; [lia| |].
      * destruct Hin as [->|Hin]; auto.
      * intros g w [<-|Hg] Hw; [congruence|eauto].
    + apply Z.ltb_ge in Ezx.
      destruct (IH _ _ Hv' Hs) as (y & Hy & Hyx & Hin & Hall).
      exists y. repeat split; auto.
      * destruct Hin as [->|Hin]; auto.
      * intros g w [<-|Hg] Hw; [|eauto]. rewrite Ez in Hw. injection Hw. lia.
Qed.

(** The date range computed by the loop of [groupFeatures] over a nonempty
    list of valid features. *)
Lemma summary_range fs :
  fs <> [] -> Forall valid_dates fs ->
  let (start, end_) := fold_left summary_dates_step fs (""%string, ""%string) in
  In start (map startDate fs) /\ In end_ (map endDate fs) /\
  forall f, In f fs -> date_le start f.(startDate) /\ date_le f.(endDate) end_.
Proof.
  destruct fs as [|f0 fs]; [congruence|]. intros _ Hv.
  rewrite summary_dates_fold. simpl.
  replace (start_step "" f0) with f0.(startDate) by reflexivity.
  replace (end_step "" f0) with f0.(endDate) by reflexivity.
  inversion Hv as [|? ? [Hs0 He0] Hv']; subst.
  destruct (parse_date f0.(startDate)) as [s0|] eqn:Es0; [|congruence].
  destruct (parse_date f0.(endDate)) as [e0|] eqn:Ee0; [|congruence].
  assert (Hvs : Forall (fun f => parse_date f.(startDate) <> None) fs)
    by (eapply Forall_impl; [|exact Hv']; intros f []; assumption).
  assert (Hve : Forall (fun f => parse_date f.(endDate) <> None) fs)
    by (eapply Forall_impl; [|exact Hv']; intros f []; assumption).
  destruct (start_fold fs _ _ Hvs Es0) as (ys & Hys & Hys0 & Hsin & Hsall).
  destruct (end_fold fs _ _ Hve Ee0) as (ye & Hye & Hye0 & Hein & Heall).
  split; [|split].
  - destruct Hsin as [->|H]; [now left|now right].
  - destruct Hein as [->|H]; [now left|now right].
  - intros f Hf. rewrite Forall_forall in Hv.
    destruct (Hv f Hf) as [Hfs Hfe].
    destruct (parse_date f.(startDate)) as [zs|] eqn:Ezs; [|congruence].
    destruct (parse_date f.(endDate)) as [ze|] eqn:Eze; [|congruence].
    split.
    + exists ys, zs. repeat split; auto.
      destruct Hf as [<-|Hf]; [congruence|eauto].
    + exists ze, ye. repeat split; auto.
      destruct Hf as [<-|Hf]; [congruence|eauto].
Qed.

Lemma summary_features_valid k g :
  Forall valid_dates g ->
  Forall valid_dates (summarize (k, g)).(ps_features).
Proof.
  intros Hg. destruct (summarize_fields k g) as (_ & _ & -> & _).
  apply Forall_forall. intros f Hf.
  apply (Permutation_in _ (sort_by_perm _ _)) in Hf. revert f Hf.
  apply Forall_forall, mergeSimilarFeatures_closed; [apply merge_closed_dates|exact Hg].
Qed.

Lemma summary_nonempty k l :
  In k (new_StrSet (map project l)) ->
  (summarize (k, filter (proj_is k) l)).(ps_features) <> [].
Proof.
  intros Hk. destruct (summarize_fields k (filter (proj_is k) l)) as (_ & _ & -> & _).
  intros E. pose proof (sort_by_perm endDate_gt (mergeSimilarFeatures
    defaultSimilarityThreshold (filter (proj_is k) l))) as P.
  unfold sortFeatures in E. rewrite E in P. apply Permutation_nil in P.
  revert P. apply mergeSimilarFeatures_nonempty, filter_proj_nonempty.
  apply str_set_add_all_in in Hk as [[]|Hk]. exact Hk.
Qed.

(** X4: when every input feature has a valid start and end date, the
    summaries of [groupFeatures] come in ascending order of start date, the
    features of each summary in ascending order of end date, and each
    summary's [startDate] is the earliest start date of its features and its
    [endDate] the latest end date. *)
Theorem groupFeatures_date_order : forall features,
  Forall valid_dates features ->
  Sorted (fun a b => date_le a.(ps_startDate) b.(ps_startDate)) (groupFeatures features) /\
  forall s, In s (groupFeatures features) ->
    Sorted (fun f g => date_le f.(endDate) g.(endDate)) s.(ps_features) /\
    In s.(ps_startDate) (map startDate s.(ps_features)) /\
    In s.(ps_endDate) (map endDate s.(ps_features)) /\
    (forall f, In f s.(ps_features) ->
       date_le s.(ps_startDate) f.(startDate) /\ date_le f.(endDate) s.(ps_endDate)).
Proof.
  intros l Hl.
  assert (Hsum : forall s, In s (groupFeatures l) ->
    Sorted (fun f g => date_le f.(endDate) g.(endDate)) s.(ps_features) /\
    In s.(ps_startDate) (map startDate s.(ps_features)) /\
    In s.(ps_endDate) (map endDate s.(ps_features)) /\
    (forall f, In f s.(ps_features) ->
       date_le s.(ps_startDate) f.(startDate) /\ date_le f.(endDate) s.(ps_endDate))).
  { intros s Hs. apply In_groupFeatures in Hs as [k [Hk ->]].
    assert (Hv : Forall valid_dates (filter (proj_is k) l)).
    { apply Forall_forall. intros f Hf. apply filter_In in Hf as [Hf _].
      rewrite Forall_forall in Hl. auto. }
    pose proof (summary_features_valid k _ Hv) as Hfv.
    pose proof (summary_nonempty k l Hk) as Hne.
    pose proof (summary_range _ Hne Hfv) as Hr.
    destruct (summarize_fields k (filter (proj_is k) l))
      as (_ & _ & Hfeat & Hst & Hen & _).
    rewrite Hst, Hen.
    destruct (fold_left summary_dates_step _ _) as [st en].
    cbv beta iota in Hr |- *.
    destruct Hr as (Hsi & Hei & Hall). split; [|auto].
    rewrite Hfeat. rewrite Hfeat in Hfv. unfold sortFeatures in *.
    apply sort_by_sorted_D with (D := valid_dates).
    - intros a b [_ Ha] [_ Hb]. unfold endDate_gt, date_le.
      destruct (parse_date a.(endDate)) as [x|]; [|congruence].
      destruct (parse_date b.(endDate)) as [y|]; [|congruence].
      intros E. apply Z.ltb_lt in E. exists y, x. repeat split. lia.
    - intros a b [_ Ha] [_ Hb]. unfold endDate_gt, date_le.
      destruct (parse_date a.(endDate)) as [x|]; [|congruence].
      destruct (parse_date b.(endDate)) as [y|]; [|congruence].
      intros E. apply Z.ltb_ge in E. exists x, y. repeat split. lia.
    - apply Forall_forall. intros f Hf.
      rewrite Forall_forall in Hfv. apply Hfv.
      apply (Permutation_in _ (Permutation_sym (sort_by_perm _ _))). exact Hf. }
  split; [|exact Hsum].
  unfold groupFeatures.
  apply sort_by_sorted_D with (D := fun s => parse_date s.(ps_startDate) <> None).
  - intros a b Ha Hb. unfold startDate_gt, date_le.
    destruct (parse_date a.(ps_startDate)) as [x|]; [|congruence].
    destruct (parse_date b.(ps_startDate)) as [y|]; [|congruence].
    intros E. apply Z.ltb_lt in E. exists y, x. repeat split. lia.
  - intros a b Ha Hb. unfold startDate_gt, date_le.
    destruct (parse_date a.(ps_startDate)) as [x|]; [|congruence].
    destruct (parse_date b.(ps_startDate)) as [y|]; [|congruence].
    intros E. apply Z.ltb_ge in E. exists x, y. repeat split. lia.
  - apply Forall_forall. intros s Hs.
    assert (Hs' : In s (groupFeatures l)).
    { unfold groupFeatures. apply (Permutation_in _ (Permutation_sym (sort_by_perm _ _))).
      exact Hs. }
    destruct (Hsum s Hs') as (_ & Hin & _ & Hall).
    apply in_map_iff in Hin as [f [Ef Hf]].
    destruct (Hall f Hf) as [(x & y & Hx & _) _]. congruence.
Qed.

Lemma groupFeatures_date_order_witness :
  let fs := [mkFeature "a/b" "Export" "" feature [1%Z] "2024-03-05" "2024-03-06" high;
             mkFeature "c/d" "Login" "" bugfix [2%Z] "2024-03-01" "2024-03-02" high] in
  Forall valid_dates fs /\
  Sorted (fun a b => date_le a.(ps_startDate) b.(ps_startDate)) (groupFeatures fs).
Proof.
  intros fs.
  assert (H : Forall valid_dates fs)
    by (repeat constructor; intro E; vm_compute in E; discriminate E).
  split; [exact H|exact (proj1 (groupFeatures_date_order fs H))].
Defined.

(** *** [calculateStats] *)

(** [feature.type] as the string the code stores. *)
Definition FeatureType_name (t : FeatureType) : string :=
  match t with
  | feature => "feature" | enhancement => "enhancement" | bugfix => "bugfix"
  | infra => "infra" | refactor => "refactor"
  end.

(** A [Record<string, number>] with string keys: the keys in insertion
    order, an assignment to an existing key keeps its place. *)
Fixpoint obj_get (m : list (string * nat)) (k : string) : option nat :=
  match m with
  | [] => None
  | (k', v) :: r => if String.eqb k' k then Some v else obj_get r k
  end.

Fixpoint obj_set (m : list (string * nat)) (k : string) (v : nat) : list (string * nat) :=
  match m with
  | [] => [(k, v)]
  | (k', v') :: r => if String.eqb k' k then (k', v) :: r else (k', v') :: obj_set r k v
  end.

Record Stats := mkStats {
  st_totalPRs : nat;
  st_totalFeatures : nat;
  st_featuresByType : list (string * nat)
}.

(** [featuresByType[feature.type] = (featuresByType[feature.type] ?? 0) + 1] *)
Definition count_type (featuresByType : list (string * nat)) (f : Feature) :=
  obj_set featuresByType (FeatureType_name f.(type))
    (match obj_get featuresByType (FeatureType_name f.(type)) with
     | Some n => n | None => 0 end + 1)%nat.

Definition stats_step (st : Stats) (summary : ProjectSummary) : Stats :=
  {| st_totalPRs := st.(st_totalPRs) + summary.(ps_totalPRs);
     st_totalFeatures := st.(st_totalFeatures) + length summary.(ps_features);
     st_featuresByType := fold_left count_type summary.(ps_features) st.(st_featuresByType) |}.

(** [calculateStats] *)
Definition calculateStats (summaries : list ProjectSummary) : Stats :=
  fold_left stats_step summaries (mkStats 0 0 []).

Definition opt_count (n : nat) : option nat := if (n =? 0)%nat then None else Some n.

Lemma obj_get_set m k v k' :
  obj_get (obj_set m k v) k' = if String.eqb k k' then Some v else obj_get m k'.
Proof.
  induction m as [|[k0 v0] r IH]; simpl.
  - now rewrite String.eqb_sym.
  - destruct (String.eqb_spec k0 k) as [->|Hk]; simpl.
    + destruct (String.eqb k k'); reflexivity.
    + rewrite IH. destruct (String.eqb_spec k0 k'), (String.eqb_spec k k');
        congruence.
Qed.

Lemma obj_set_keys m k v k' :
  In k' (map fst (obj_set m k v)) <-> k' = k \/ In k' (map fst m).
Proof.
  induction m as [|[k0 v0] r IH]; simpl; [intuition|].
  destruct (String.eqb_spec k0 k) as [->|Hk]; simpl; [intuition|].
  rewrite IH. intuition.
Qed.

Lemma obj_set_nodup m k v :
  NoDup (map fst m) -> NoDup (map fst (obj_set m k v)).
Proof.
  induction m as [|[k0 v0] r IH]; simpl; intros H; [repeat constructor; auto|].
  inversion H as [|? ? Hn Hr]; subst.
  destruct (String.eqb_spec k0 k); simpl; constructor; auto.
  rewrite obj_set_keys. intuition.
Qed.

Lemma obj_set_sum m k v :
  (list_sum (map snd (obj_set m k v)) +
   match obj_get m k with Some n => n | None => 0 end =
   list_sum (map snd m) + v)%nat.
Proof.
  induction m as [|[k0 v0] r IH]; simpl; [lia|].
  destruct (String.eqb_spec k0 k); simpl; lia.
Qed.

Lemma FeatureType_name_eqb a b :
  String.eqb (FeatureType_name a) (FeatureType_name b) = FeatureType_eqb a b.
Proof. destruct a, b; reflexivity. Qed.

Definition count_of (t : FeatureType) (fs : list Feature) : nat :=
  length (filter (fun f => FeatureType_eqb f.(type) t) fs).

Definition byType_inv (m : list (string * nat)) (P : list Feature) : Prop :=
  NoDup (map fst m) /\
  (forall t, obj_get m (FeatureType_name t) = opt_count (count_of t P)) /\
  (forall k, In k (map fst m) -> exists t, k = FeatureType_name t) /\
  list_sum (map snd m) = length P.

Lemma opt_count_val c : match opt_count c with Some n => n | None => 0%nat end = c.
Proof. unfold opt_count. destruct (Nat.eqb_spec c 0); auto. Qed.

Lemma count_of_snoc t P f :
  count_of t (P ++ [f]) = (count_of t P + if FeatureType_eqb f.(type) t then 1 else 0)%nat.
Proof.
  unfold count_of. rewrite filter_app, length_app. simpl.
  destruct (FeatureType_eqb (type f) t); reflexivity.
Qed.

Lemma count_of_le t P : (count_of t P <= length P)%nat.
Proof.
  unfold count_of. induction P as [|f P IH]; simpl; [lia|].
  destruct (FeatureType_eqb (type f) t); simpl; lia.
Qed.

Lemma count_type_inv m P f :
  byType_inv m P -> byType_inv (count_type m f) (P ++ [f]).
Proof.
  intros (Hnd & Hget & Hkeys & Hsum). unfold count_type.
  rewrite Hget, opt_count_val. split; [|split; [|split]].
  - now apply obj_set_nodup.
  - intros t. rewrite obj_get_set, FeatureType_name_eqb, Hget, count_of_snoc.
    destruct (FeatureType_eqb (type f) t) eqn:E.
    + apply FeatureType_eqb_spec in E. subst t.
      unfold opt_count. destruct (Nat.eqb_spec (count_of (type f) P + 1) 0);
        [lia|reflexivity].
    + now rewrite Nat.add_0_r.
  - intros k Hk. apply obj_set_keys in Hk as [->|Hk]; eauto.
  - pose proof (obj_set_sum m (FeatureType_name (type f))
      (count_of (type f) P + 1)) as Hs.
    rewrite Hget, opt_count_val in Hs. rewrite length_app. simpl.
    assert (count_of (type f) P <= length P)%nat by apply count_of_le.
    lia.
Qed.

Lemma count_type_fold m P fs :
  byType_inv m P -> byType_inv (fold_left count_type fs m) (P ++ fs).
Proof.
  revert m P; induction fs as [|f fs IH]; intros m P H; simpl.
  - now rewrite app_nil_r.
  - replace (P ++ f :: fs) with ((P ++ [f]) ++ fs) by now rewrite <- app_assoc.
    apply IH, count_type_inv, H.
Qed.

Lemma calculateStats_fold summaries st P :
  byType_inv st.(st_featuresByType) P ->
  let st' := fold_left stats_step summaries st in
  st'.(st_totalPRs) = (st.(st_totalPRs) + list_sum (map ps_totalPRs summaries))%nat /\
  st'.(st_totalFeatures) = (st.(st_totalFeatures) + length (concat (map ps_features summaries)))%nat /\
  byType_inv st'.(st_featuresByType) (P ++ concat (map ps_features summaries)).
Proof.
  revert st P; induction summaries as [|s ss IH]; intros st P H; simpl.
  - rewrite app_nil_r. split; [lia|split; [lia|exact H]].
  - destruct (IH (stats_step st s) (P ++ ps_features s)) as (H1 & H2 & H3).
    { apply count_type_fold, H. }
    simpl in H1, H2. rewrite length_app, <- app_assoc in *.
    split; [lia|split; [lia|exact H3]].
Qed.

(** X5: [calculateStats] adds up the [totalPRs] of the summaries and counts
    their features; [featuresByType] has one key per feature type that
    occurs, no other key and no key twice, the value of a type's key is the
    number of features of that type, and the values add up to
    [totalFeatures]. *)
Theorem calculateStats_counts : forall summaries,
  let st := calculateStats summaries in
  let all := concat (map ps_features summaries) in
  st.(st_totalPRs) = list_sum (map ps_totalPRs summaries) /\
  st.(st_totalFeatures) = length all /\
  NoDup (map fst st.(st_featuresByType)) /\
  (forall t, obj_get st.(st_featuresByType) (FeatureType_name t) =
             opt_count (count_of t all)) /\
  (forall k, In k (map fst st.(st_featuresByType)) -> exists t, k = FeatureType_name t) /\
  list_sum (map snd st.(st_featuresByType)) = st.(st_totalFeatures).
Proof.
  intros summaries st all.
  assert (H0 : byType_inv [] []).
  { split; [constructor|split; [|split]]; [|intros k []|reflexivity].
    intros t. unfold count_of, opt_count. reflexivity. }
  destruct (calculateStats_fold summaries (mkStats 0 0 []) [] H0)
    as (H1 & H2 & (H3 & H4 & H5 & H6)).
  simpl in *. fold all in H2, H4, H6, H3, H5. unfold st, calculateStats.
  repeat split; auto. rewrite H6, H2. reflexivity.
Qed.

(* ------------------------------------------------------------------ *)
(** ** The response cache (cache.ts) *)

Lemma string_length_app (s t : string) :
  String.length (s ++ t) = (String.length s + String.length t)%nat.
Proof. induction s; simpl; auto. Qed.



(** [s] contains an underscore. *)
Fixpoint has_underscore (s : string) : bool :=
  match s with
  | EmptyString => false
  | String c r => ascii_eqb c "_"%char || has_underscore r
  end.

Lemma underscore_prefix_inj p1 p2 h1 h2 :
  has_underscore p1 = false -> has_underscore p2 = false ->
  (p1 ++ "_" ++ h1 = p2 ++ "_" ++ h2)%string -> p1 = p2.
Proof.
  revert p2; induction p1 as [|c p1 IH]; intros [|c' p2] H1 H2 E; simpl in *.
  - reflexivity.
  - injection E as Ec _. subst c'. discriminate H2.
  - injection E as Ec _. subst c. discriminate H1.
  - apply orb_false_iff in H1 as [_ H1]. apply orb_false_iff in H2 as [_ H2].
    injection E as -> E. f_equal. now apply IH.
Qed.

(** X8: cache keys of different prefixes never coincide when neither prefix
    contains an underscore, whatever the parameters: [generateKey] puts the
    prefix and then ['_'] in front of the hash. *)
Theorem generateKey_prefix_inj : forall lc prefix1 prefix2 params1 params2,
  has_underscore prefix1 = false -> has_underscore prefix2 = false ->
  prefix1 <> prefix2 ->
  generateKey lc prefix1 params1 <> generateKey lc prefix2 params2.
Proof.
  intros lc p1 p2 q1 q2 H1 H2 Hne E. unfold generateKey in E.
  apply Hne. eapply underscore_prefix_inj; eassumption.
Qed.

Lemma generateKey_prefix_inj_witness :
  has_underscore "prs" = false /\ has_underscore "repos" = false /\
  "prs"%string <> "repos"%string /\
  generateKey (fun _ _ => 0) "prs" [] <> generateKey (fun _ _ => 0) "repos" [].
Proof.
  assert (H1 : has_underscore "prs" = false) by reflexivity.
  assert (H2 : has_underscore "repos" = false) by reflexivity.
  assert (H3 : "prs"%string <> "repos"%string) by discriminate.
  split; [exact H1|split; [exact H2|split; [exact H3|]]].
  exact (generateKey_prefix_inj (fun _ _ => 0) "prs" "repos" [] [] H1 H2 H3).
Defined.

Section KeyOrder.
(** A collation that orders strings totally: antisymmetric, [0] only on
    equal strings, and transitive. *)
Variable lc : string -> string -> Z.
Hypothesis lc_antisym : forall a b, lc b a = - lc a b.
Hypothesis lc_eq : forall a b, lc a b = 0 -> a = b.
Hypothesis lc_trans : forall a b c, lc a b <= 0 -> lc b c <= 0 -> lc a c <= 0.

Definition param_le (a b : string * string) : Prop := lc (fst a) (fst b) <= 0.

Lemma param_le_trans : Transitive param_le.
Proof. intros a b c. unfold param_le. apply lc_trans. Qed.

Lemma keys_nodup_eq (l : list (string * string)) a b :
  NoDup (map fst l) -> In a l -> In b l -> fst a = fst b -> a = b.
Proof.
  induction l as [|x l IH]; intros Hnd Ha Hb E; [contradiction|].
  inversion Hnd as [|? ? Hn Hnd']; subst.
  destruct Ha as [<-|Ha], Hb as [<-|Hb]; auto.
  - exfalso. apply Hn. rewrite E. now apply in_map.
  - exfalso. apply Hn. rewrite <- E. now apply in_map.
Qed.

Lemma sorted_perm_unique (l1 l2 : list (string * string)) :
  StronglySorted param_le l1 -> StronglySorted param_le l2 ->
  Permutation l1 l2 -> NoDup (map fst l1) -> l1 = l2.
Proof.
  revert l2; induction l1 as [|a r1 IH]; intros l2 H1 H2 Hp Hnd.
  - symmetry. now apply Permutation_nil.
  - destruct l2 as [|b r2]; [apply Permutation_sym, Permutation_nil in Hp; discriminate|].
    assert (Hab : a = b).
    { destruct (Permutation_in a Hp (or_introl eq_refl)) as [->|Ha]; [reflexivity|].
      destruct (Permutation_in b (Permutation_sym Hp) (or_introl eq_refl)) as [->|Hb];
        [reflexivity|].
      inversion H1 as [|? ? _ Hf1]; inversion H2 as [|? ? _ Hf2]; subst.
      rewrite Forall_forall in Hf1, Hf2.
      specialize (Hf1 b Hb). specialize (Hf2 a Ha). unfold param_le in *.
      rewrite lc_antisym in Hf2.
      assert (lc (fst a) (fst b) = 0) by lia.
      apply (keys_nodup_eq (a :: r1)); [exact Hnd|now left|now right|now apply lc_eq]. }
    subst b. f_equal. apply IH.
    + now inversion H1.
    + now inversion H2.
    + eapply Permutation_cons_inv, Hp.
    + now inversion Hnd.
Qed.

Lemma sort_params_sorted params :
  StronglySorted param_le
    (sort_by (fun a b => 0 <? lc (fst a) (fst b)) params).
Proof.
  apply Sorted_StronglySorted; [apply param_le_trans|].
  apply sort_by_sorted_D with (D := fun _ => True).
  - intros a b _ _ E. apply Z.ltb_lt in E. unfold param_le.
    rewrite lc_antisym. lia.
  - intros a b _ _ E. apply Z.ltb_ge in E. exact E.
  - apply Forall_forall. auto.
Qed.

(** X9: with a collation that orders the parameter names totally, the cache
    key does not depend on the order in which the parameters are given (the
    names being distinct, as in an object). *)
Theorem generateKey_param_order : forall prefix params1 params2,
  NoDup (map fst params1) -> Permutation params1 params2 ->
  generateKey lc prefix params1 = generateKey lc prefix params2.
Proof.
  intros prefix p1 p2 Hnd Hp. unfold generateKey.
  set (gt := fun a b : string * string => 0 <? lc (fst a) (fst b)).
  replace (sort_by gt p2) with (sort_by gt p1); [reflexivity|].
  apply sorted_perm_unique.
  - apply sort_params_sorted.
  - apply sort_params_sorted.
  - eapply perm_trans; [apply sort_by_perm|].
    eapply perm_trans; [exact Hp|apply Permutation_sym, sort_by_perm].
  - eapply Permutation_NoDup; [|exact Hnd].
    apply Permutation_map, Permutation_sym, sort_by_perm.
Qed.
End KeyOrder.

(** A collation by the character codes, to instantiate [generateKey_param_order]. *)
Fixpoint str_rank (s : string) : Z :=
  match s with
  | EmptyString => 0
  | String c r => 1 + Z.of_nat (nat_of_ascii c) + 257 * str_rank r
  end.

Lemma str_rank_nonneg s : 0 <= str_rank s.
Proof. induction s; cbn [str_rank]; lia. Qed.

Lemma nat_of_ascii_lt c : (nat_of_ascii c < 256)%nat.
Proof. apply nat_ascii_bounded. Qed.

Lemma str_rank_inj s t : str_rank s = str_rank t -> s = t.
Proof.
  revert t; induction s as [|c s IH]; intros [|c' t]; cbn [str_rank]; auto; intros E.
  - pose proof (str_rank_nonneg t). lia.
  - pose proof (str_rank_nonneg s). lia.
  - pose proof (nat_of_ascii_lt c). pose proof (nat_of_ascii_lt c').
    pose proof (str_rank_nonneg s). pose proof (str_rank_nonneg t).
    set (x := Z.of_nat (nat_of_ascii c)) in *.
    set (y := Z.of_nat (nat_of_ascii c')) in *.
    assert (0 <= x < 256 /\ 0 <= y < 256) as [Hx Hy] by lia.
    assert (Hr : str_rank s = str_rank t).
    { assert (257 * (str_rank s - str_rank t) = y - x) by lia.
      assert (- 1 < str_rank s - str_rank t < 1) by lia. lia. }
    assert (Hc : x = y) by lia. apply Nat2Z.inj in Hc.
    rewrite <- (ascii_nat_embedding c), <- (ascii_nat_embedding c'), Hc.
    f_equal. now apply IH.
Qed.

Lemma generateKey_param_order_witness :
  let lc := fun a b => str_rank a - str_rank b in
  generateKey lc "prs" [("q"%string, "x"%string); ("page"%string, "1"%string)] =
  generateKey lc "prs" [("page"%string, "1"%string); ("q"%string, "x"%string)].
Proof.
  intros lc. apply generateKey_param_order.
  - intros a b. unfold lc. lia.
  - intros a b E. apply str_rank_inj. unfold lc in E. lia.
  - intros a b c. unfold lc. lia.
  - repeat constructor; simpl; intuition discriminate.
  - apply perm_swap.
Defined.

(* ------------------------------------------------------------------ *)
(** ** The GitHub client (part_000) *)

(** X10: a response that is not throttled (neither a 429 nor a 403 with
    ["0"] remaining quota) ends [request] after this one fetch, with no
    retry: a 2xx status gives the data when the body parses as JSON and
    throws the [SyntaxError] of [response.json()] when it does not; any
    other status throws the [api_error] [GitHubClientError] carrying that
    status (a 403 with quota left included), whatever the body. *)
Theorem request_not_throttled : forall endpoint n now r env,
  r.(status) <> 429 ->
  (r.(status) = 403 -> r.(rateLimitRemaining) <> Some "0"%string) ->
  request endpoint n ((now, r) :: env) =
    (if response_ok r then (if r.(bodyIsJson) then request_data else json_syntax_error)
     else GitHubClientError api_error r.(status),
     [fetch_event endpoint]).
Proof.
  intros e n now r env H429 H403. simpl. unfold request_step.
  assert (Hthr : ((r.(status) =? 403) || (r.(status) =? 429) &&
                  true) = (r.(status) =? 403) || (r.(status) =? 429)) by
    (now rewrite andb_true_r).
  destruct (Z.eqb_spec r.(status) 429) as [|_]; [contradiction|].
  destruct (Z.eqb_spec r.(status) 403) as [E|_]; simpl.
  - destruct (rateLimitRemaining r) as [s|] eqn:Er; simpl.
    + destruct (String.eqb_spec s "0") as [->|_]; simpl.
      * exfalso. now apply (H403 E).
      * destruct (response_ok r); [destruct (bodyIsJson r)|]; reflexivity.
    + destruct (response_ok r); [destruct (bodyIsJson r)|]; reflexivity.
  - destruct (response_ok r); [destruct (bodyIsJson r)|]; reflexivity.
Qed.

Lemma request_not_throttled_witness :
  let r := mkResponse 403 (Some "12"%string) None true in
  r.(status) <> 429 /\
  (r.(status) = 403 -> r.(rateLimitRemaining) <> Some "0"%string) /\
  request "/user" 0 [(0, r)] = (GitHubClientError api_error 403, [fetch_event "/user"]).
Proof.
  intros r.
  assert (H1 : r.(status) <> 429) by discriminate.
  assert (H2 : r.(status) = 403 -> r.(rateLimitRemaining) <> Some "0"%string)
    by (intros _; discriminate).
  split; [exact H1|split; [exact H2|]].
  exact (request_not_throttled "/user" 0 0 r [] H1 H2).
Defined.

Definition is_fetch (e : Event) : bool :=
  match e with fetch_event _ => true | sleep_event _ => false end.

Lemma computeWaitTime_bounds now reset w :
  computeWaitTime now reset = Some w -> 1000 <= w <= 300000.
Proof.
  unfold computeWaitTime. destruct reset as [s|].
  - destruct (String.eqb s ""); [intros [= <-]; lia|].
    destruct (parseInt10 s); [intros [= <-]; lia|discriminate].
  - intros [= <-]. lia.
Qed.

Lemma request_step_retry n now r w :
  request_step n now r = step_retry w ->
  (n < 3)%nat /\ w = computeWaitTime now r.(rateLimitReset).
Proof.
  unfold request_step.
  set (t := if (status r =? 403) || (status r =? 429) then
              match rateLimitRemaining r with
              | Some s => String.eqb s "0"
              | None => false
              end || (status r =? 429)
            else false).
  destruct t; [|destruct (negb _); [discriminate|destruct (bodyIsJson r); discriminate]].
  destruct (3 <=? n)%nat eqn:E; [discriminate|].
  intros [= <-]. split; [now apply Nat.leb_gt|reflexivity].
Qed.

(** X11: whatever the responses, [request] started with [retryCount = n]
    fetches at most [4 - n] times (at least once when a response comes),
    so at most 4 times from a first call; and every wait it sleeps before a
    retry that is a number lies between 1000 and 300000 ms. *)
Theorem request_bounded : forall endpoint n env,
  (n <= 3)%nat ->
  let (o, trace) := request endpoint n env in
  (length (filter is_fetch trace) <= 4 - n)%nat /\
  (forall w, In (sleep_event (Some w)) trace -> 1000 <= w <= 300000).
Proof.
  intros e n env. revert n; induction env as [|[now r] env IH]; intros n Hn;
    cbn [request].
  - split; [cbn; lia|intros w []].
  - destruct (request_step n now r) as [w|o] eqn:Es.
    + destruct (request_step_retry n now r w Es) as [Hn3 Hw].
      specialize (IH (S n) ltac:(lia)).
      destruct (request e (S n) env) as [o trace]. destruct IH as [H1 H2].
      cbn [filter is_fetch length]. split; [lia|].
      intros w' [E|[E|H]]; [discriminate| |now apply H2].
      injection E as E. subst w. now apply (computeWaitTime_bounds now r.(rateLimitReset)).
    + cbn [filter is_fetch length]. split; [lia|intros w [E|[]]; discriminate].
Qed.

Lemma request_bounded_witness :
  let env := [(0, mkResponse 429 None None true); (60000, mkResponse 200 None None true)] in
  (0 <= 3)%nat /\
  let (o, trace) := request "/user" 0 env in
  (length (filter is_fetch trace) <= 4 - 0)%nat /\
  (forall w, In (sleep_event (Some w)) trace -> 1000 <= w <= 300000).
Proof.
  intros env. assert (H : (0 <= 3)%nat) by lia.
  split; [exact H|exact (request_bounded "/user" 0 env H)].
Defined.

(** *** [parseLinkHeader] *)

(** The text before the first [c] and the text after it; [None] when [s]
    has no [c]. *)
Fixpoint take_until (c : ascii) (s : string) : option (string * string) :=
  match s with
  | EmptyString => None
  | String x r =>
      if ascii_eqb x c then Some (EmptyString, r)
      else match take_until c r with
           | Some (h, t) => Some (String x h, t)
           | None => None
           end
  end.

Fixpoint strip_prefix (p s : string) : option string :=
  match p, s with
  | EmptyString, _ => Some s
  | String a p', String b s' => if ascii_eqb a b then strip_prefix p' s' else None
  | String _ _, EmptyString => None
  end.

(** The double quote character. *)
Definition dquote : ascii := ascii_of_nat 34.

(** The regular expression of [parseLinkHeader] tried at the start of [s]:
    [<], the URL up to the first [>] (not empty), [;], white space ([\s*]),
    [rel=] and a double quote, the relation up to the next double quote (not
    empty). *)
Definition link_match_at (s : string) : option (string * string) :=
  match s with
  | String c r =>
      if ascii_eqb c "<"%char then
        match take_until ">"%char r with
        | Some (url, String c' r1) =>
            if String.eqb url "" then None
            else if ascii_eqb c' ";"%char then
              match strip_prefix ("rel=" ++ String dquote "")%string (skip_ws r1) with
              | Some r2 =>
                  match take_until dquote r2 with
                  | Some (rel, _) => if String.eqb rel "" then None else Some (url, rel)
                  | None => None
                  end
              | None => None
              end
            else None
        | _ => None
        end
      else None
  | EmptyString => None
  end.

(** [part.match(regex)]: the leftmost match. *)
Fixpoint link_search (s : string) : option (string * string) :=
  match link_match_at s with
  | Some m => Some m
  | None => match s with
            | String _ r => link_search r
            | EmptyString => None
            end
  end.

(** [links[rel] = url] on a plain object, its properties kept in the order
    they were created: a new key is appended, an existing one keeps its
    place; assigning a string to [__proto__] changes nothing. *)
Fixpoint link_set (links : list (string * string)) (rel url : string)
  : list (string * string) :=
  if String.eqb rel "__proto__" then links
  else match links with
       | [] => [(rel, url)]
       | (k, v) :: r => if String.eqb k rel then (k, url) :: r
                        else (k, v) :: link_set r rel url
       end.

(** The body of the loop of [parseLinkHeader]. *)
Definition link_step (links : list (string * string)) (part : string) :=
  match link_search part with
  | Some (url, rel) => link_set links rel url
  | None => links
  end.

(** The digits of [s] read as a decimal number; [None] when a character is
    not a digit. *)
Fixpoint all_digits (acc : Z) (s : string) : option Z :=
  match s with
  | EmptyString => Some acc
  | String c r =>
      match digit_val c with
      | Some d => all_digits (acc * 10 + d) r
      | None => None
      end
  end.

(** [s] is an array index: a decimal numeral without leading zero (or
    ["0"]) whose value is below [2^32 - 1]; [Some] of that value. *)
Definition array_index (s : string) : option Z :=
  match s with
  | EmptyString => None
  | String c r =>
      if ascii_eqb c "0"%char && negb (String.eqb r "") then None
      else
        match all_digits 0 s with
        | Some v => if v <? 2 ^ 32 - 1 then Some v else None
        | None => None
        end
  end.

Definition is_index_key (kv : string * string) : bool :=
  match array_index (fst kv) with Some _ => true | None => false end.

(** The order in which JS lists the own keys of a plain object whose
    properties were created in the order of [entries]: the array indices
    first, in ascending numeric order, then the other keys in creation
    order. *)
Definition own_keys_order (entries : list (string * string)) : list (string * string) :=
  sort_by (fun a b => match array_index (fst a), array_index (fst b) with
                      | Some x, Some y => y <? x
                      | _, _ => false
                      end)
          (filter is_index_key entries) ++
  filter (fun kv => negb (is_index_key kv)) entries.

(** [parseLinkHeader]: [PaginationInfo] as the object's entries
    (relation, URL), in the order JS lists them. *)
Definition parseLinkHeader (header : option string) : list (string * string) :=
  match header with
  | None => []
  | Some h =>
      if String.eqb h "" then []
      else own_keys_order (fold_left link_step (split_char ","%char h) [])
  end.

(** A link as GitHub writes it: [<url>; rel=], then the relation in double
    quotes. *)
Definition render_link (link : string * string) : string :=
  let (url, rel) := link in
  ("<" ++ url ++ ">; rel=" ++ String dquote (rel ++ String dquote ""))%string.

Example parseLinkHeader_example :
  parseLinkHeader (Some (join ", " [render_link ("https://api.github.com/user/repos?page=2"%string, "next"%string);
                                    render_link ("https://api.github.com/user/repos?page=5"%string, "last"%string)]))
  = [("next"%string, "https://api.github.com/user/repos?page=2"%string);
     ("last"%string, "https://api.github.com/user/repos?page=5"%string)].
Proof. reflexivity. Qed.

Lemma has_char_app c a b : has_char c (a ++ b) = has_char c a || has_char c b.
Proof. induction a as [|x a IH]; simpl; [reflexivity|now rewrite IH, orb_assoc]. Qed.

Lemma ascii_eqb_iff a b : ascii_eqb a b = true <-> a = b.
Proof. unfold ascii_eqb. apply Ascii.eqb_eq. Qed.

Lemma split_char_none c a : has_char c a = false -> split_char c a = [a].
Proof.
  induction a as [|x a IH]; simpl; [reflexivity|].
  intros H. apply orb_false_iff in H as [H1 H2]. rewrite H1, IH by exact H2.
  reflexivity.
Qed.

Lemma split_char_app c a b :
  has_char c a = false -> split_char c (a ++ String c b) = a :: split_char c b.
Proof.
  induction a as [|x a IH]; simpl; intros H.
  - replace (ascii_eqb c c) with true by (symmetry; now apply ascii_eqb_iff).
    reflexivity.
  - apply orb_false_iff in H as [H1 H2]. rewrite H1, IH by exact H2.
    reflexivity.
Qed.

Lemma split_join_comma x xs :
  has_char ","%char x = false -> Forall (fun y => has_char ","%char y = false) xs ->
  split_char ","%char (join ", " (x :: xs)) = x :: map (String " "%char) xs.
Proof.
  revert x; induction xs as [|y ys IH]; intros x Hx Hxs.
  - simpl. now apply split_char_none.
  - inversion Hxs as [|? ? Hy Hys]; subst.
    change (join ", " (x :: y :: ys)) with (x ++ String ","%char (String " "%char (join ", " (y :: ys))))%string.
    rewrite split_char_app by exact Hx. f_equal.
    replace (String " "%char (join ", " (y :: ys))) with (join ", " (String " "%char y :: ys))
      by (destruct ys; reflexivity).
    apply IH; [exact Hy|exact Hys].
Qed.

Lemma take_until_app c a b :
  has_char c a = false -> take_until c (a ++ String c b) = Some (a, b).
Proof.
  induction a as [|x a IH]; simpl; intros H.
  - replace (ascii_eqb c c) with true by (symmetry; now apply ascii_eqb_iff).
    reflexivity.
  - apply orb_false_iff in H as [H1 H2]. rewrite H1, IH by exact H2.
    reflexivity.
Qed.

(** A link GitHub can write: URL and relation not empty, the URL without
    [,] or [>], the relation without [,] or double quote, and not
    [__proto__]. *)
Definition link_ok (link : string * string) : Prop :=
  let (url, rel) := link in
  url <> ""%string /\ has_char ","%char url = false /\ has_char ">"%char url = false /\
  rel <> ""%string /\ has_char ","%char rel = false /\ has_char dquote rel = false /\
  rel <> "__proto__"%string.

Lemma link_search_eq s :
  link_search s = match link_match_at s with
                  | Some m => Some m
                  | None => match s with
                            | String _ r => link_search r
                            | EmptyString => None
                            end
                  end.
Proof. destruct s; reflexivity. Qed.

Lemma strip_rel t :
  strip_prefix (String "r" (String "e" (String "l" (String "=" (String dquote "")))))
    (skip_ws (String " " (String "r" (String "e" (String "l" (String "=" (String dquote t)))))))
  = Some t.
Proof. reflexivity. Qed.

Lemma link_search_render l : link_ok l -> link_search (render_link l) = Some l.
Proof.
  destruct l as [url rel]. intros (Hu & _ & Hgt & Hr & _ & Hq & _).
  unfold render_link. rewrite link_search_eq. unfold link_match_at.
  cbn [String.append ascii_eqb].
  replace (ascii_eqb "<" "<") with true by (symmetry; now apply ascii_eqb_iff).
  rewrite take_until_app by exact Hgt.
  destruct (String.eqb_spec url "") as [|_]; [contradiction|].
  replace (ascii_eqb ";" ";") with true by (symmetry; now apply ascii_eqb_iff).
  rewrite strip_rel, take_until_app by exact Hq.
  destruct (String.eqb_spec rel "") as [|_]; [contradiction|reflexivity].
Qed.

Lemma render_no_comma l :
  link_ok l -> has_char ","%char (render_link l) = false.
Proof.
  destruct l as [url rel]. intros (_ & Hu & _ & _ & Hr & _ & _).
  unfold render_link. cbn [has_char String.append].
  repeat progress (rewrite ?has_char_app; cbn [has_char]).
  rewrite Hu, Hr. reflexivity.
Qed.

Lemma link_set_new links rel url :
  rel <> "__proto__"%string -> ~ In rel (map fst links) ->
  link_set links rel url = links ++ [(rel, url)].
Proof.
  intros Hp. induction links as [|[k v] r IH]; intros Hn; simpl;
    destruct (String.eqb_spec rel "__proto__"); try contradiction; [reflexivity|].
  destruct (String.eqb_spec k rel) as [->|_]; [exfalso; apply Hn; now left|].
  f_equal. apply IH. intros H; apply Hn; now right.
Qed.

Lemma link_search_space s : link_search (String " "%char s) = link_search s.
Proof. reflexivity. Qed.

Lemma link_fold acc ls :
  Forall link_ok ls -> NoDup (map fst acc ++ map snd ls) ->
  fold_left link_step (map (fun l => String " "%char (render_link l)) ls) acc =
  acc ++ map (fun l => (snd l, fst l)) ls.
Proof.
  revert acc; induction ls as [|l ls IH]; intros acc Hok Hnd; cbn [map fold_left].
  - now rewrite app_nil_r.
  - inversion Hok as [|? ? Hl Hls]; subst.
    assert (Hstep : link_step acc (String " "%char (render_link l)) =
                    link_set acc (snd l) (fst l)).
    { unfold link_step. rewrite link_search_space, (link_search_render l Hl).
      now destruct l. }
    rewrite Hstep. destruct l as [url rel].
    destruct Hl as (_ & _ & _ & _ & _ & _ & Hp). cbn [fst snd] in *.
    rewrite link_set_new; [|exact Hp|].
    + rewrite IH; [now rewrite <- app_assoc|exact Hls|].
      rewrite map_app, <- app_assoc. exact Hnd.
    + intros Hin. simpl in Hnd.
      apply (NoDup_remove_2 (map fst acc) (map snd ls) rel); [exact Hnd|].
      apply in_or_app. now left.
Qed.

Example own_keys_order_example :
  own_keys_order [("2"%string, "u2"%string); ("next"%string, "n"%string);
                  ("1"%string, "u1"%string)] =
  [("1"%string, "u1"%string); ("2"%string, "u2"%string); ("next"%string, "n"%string)].
Proof. reflexivity. Qed.

Lemma own_keys_order_no_index entries :
  Forall (fun kv => array_index (fst kv) = None) entries ->
  own_keys_order entries = entries.
Proof.
  intros H.
  assert (H1 : filter is_index_key entries = []).
  { induction H as [|kv l Hkv Hl IH]; [reflexivity|].
    cbn [filter]. replace (is_index_key kv) with false
      by (unfold is_index_key; now rewrite Hkv). exact IH. }
  assert (H2 : filter (fun kv => negb (is_index_key kv)) entries = entries).
  { clear H1. induction H as [|kv l Hkv Hl IH]; [reflexivity|].
    cbn [filter]. replace (is_index_key kv) with false
      by (unfold is_index_key; now rewrite Hkv). cbn [negb]. now rewrite IH. }
  unfold own_keys_order. rewrite H1, H2. reflexivity.
Qed.

(** X12: [parseLinkHeader] reads back the links of a [Link] header written
    in GitHub's format [<url>; rel="..."] and joined with [", "], as long
    as the relations are distinct and the URLs and relations hold no
    separator: it maps each relation to its URL, its entries listed as JS
    lists a plain object's keys (relations that are array indices first,
    ascending, then the others in header order); so when no relation is an
    array index, in the order of the header. *)
Theorem parseLinkHeader_render : forall links,
  Forall link_ok links -> NoDup (map snd links) ->
  parseLinkHeader (Some (join ", " (map render_link links))) =
    own_keys_order (map (fun l => (snd l, fst l)) links) /\
  (Forall (fun l => array_index (snd l) = None) links ->
   parseLinkHeader (Some (join ", " (map render_link links))) =
     map (fun l => (snd l, fst l)) links).
Proof.
  intros links Hok Hnd.
  assert (H : parseLinkHeader (Some (join ", " (map render_link links))) =
              own_keys_order (map (fun l => (snd l, fst l)) links)).
  { destruct links as [|l ls]; [reflexivity|].
    inversion Hok as [|? ? Hl Hls]; subst.
    unfold parseLinkHeader.
    destruct (String.eqb_spec (join ", " (map render_link (l :: ls))) "") as [E|_].
    { exfalso. simpl in E. destruct l as [url rel]. unfold render_link in E.
      destruct ls; discriminate E. }
    cbn [map]. rewrite split_join_comma.
    - cbn [fold_left]. f_equal.
      assert (Hfirst : link_step [] (render_link l) = [(snd l, fst l)]).
      { unfold link_step. rewrite (link_search_render l Hl). destruct l as [url rel].
        destruct Hl as (_ & _ & _ & _ & _ & _ & Hp). simpl.
        destruct (String.eqb_spec rel "__proto__"); [contradiction|reflexivity]. }
      rewrite Hfirst, map_map. apply (link_fold [(snd l, fst l)] ls Hls). exact Hnd.
    - now apply render_no_comma.
    - apply Forall_forall. intros x Hx. apply in_map_iff in Hx as [y [<- Hy]].
      apply render_no_comma. rewrite Forall_forall in Hls. auto. }
  split; [exact H|]. intros Hidx. rewrite H. apply own_keys_order_no_index.
  apply Forall_map. eapply Forall_impl; [|exact Hidx]. intros l Hl. exact Hl.
Qed.

Lemma parseLinkHeader_render_witness :
  let links := [("https://api.github.com/user/repos?page=2"%string, "next"%string);
                ("https://api.github.com/user/repos?page=5"%string, "last"%string)] in
  Forall link_ok links /\ NoDup (map snd links) /\
  Forall (fun l => array_index (snd l) = None) links /\
  parseLinkHeader (Some (join ", " (map render_link links))) =
    map (fun l => (snd l, fst l)) links.
Proof.
  intros links.
  assert (H1 : Forall link_ok links)
    by (repeat constructor; (discriminate || reflexivity)).
  assert (H2 : NoDup (map snd links))
    by (repeat constructor; simpl; intuition discriminate).
  assert (H3 : Forall (fun l => array_index (snd l) = None) links)
    by (repeat constructor).
  split; [exact H1|split; [exact H2|split; [exact H3|]]].
  exact (proj2 (parseLinkHeader_render links H1 H2) H3).
Defined.

(** *** [listMergedPRs] *)

(** The fields of a pull request of the REST API that the client reads. *)
Record GitHubPullRequest := mkGitHubPR {
  gh_number : Z;
  gh_title : string;
  gh_user_login : string;      (** [pr.user.login] *)
  gh_merged_at : option string; (** [pr.merged_at], [null] when not merged *)
  gh_base_ref : string          (** [pr.base.ref] *)
}.

(** The loop of [listMergedPRs] over the pages fetched ([allPRs]):
    [continue] and [break] as the code has them. *)
Fixpoint listMergedPRs_loop (tz_offset : Z) (username repoFullName since until : string)
    (allPRs : list GitHubPullRequest) : list PullRequest :=
  match allPRs with
  | [] => []
  | pr :: rest =>
      let continue_ := listMergedPRs_loop tz_offset username repoFullName since until rest in
      match pr.(gh_merged_at) with
      | None => continue_
      | Some merged_at =>
          if String.eqb merged_at "" then continue_
          else if negb (String.eqb (toLowerCase pr.(gh_user_login)) (toLowerCase username))
          then continue_
          else if negb (isDateInRange tz_offset merged_at since until) then
            if date_lt merged_at since then [] else continue_
          else if negb (isAllowedBaseBranch pr.(gh_base_ref)) then continue_
          else mkPR pr.(gh_number) pr.(gh_title) repoFullName pr.(gh_base_ref) merged_at
               :: continue_
      end
  end.

(** A PR at which the loop breaks: merged, by the user, out of range and
    merged before [since]. *)
Definition stops_scan (tz_offset : Z) (username since until : string)
    (pr : GitHubPullRequest) : bool :=
  match pr.(gh_merged_at) with
  | Some m =>
      negb (String.eqb m "") &&
      String.eqb (toLowerCase pr.(gh_user_login)) (toLowerCase username) &&
      negb (isDateInRange tz_offset m since until) && date_lt m since
  | None => false
  end.

Lemma listMergedPRs_loop_cons tz u repo since until pr rest :
  stops_scan tz u since until pr = false ->
  listMergedPRs_loop tz u repo since until (pr :: rest) =
  match pr.(gh_merged_at) with
  | Some m =>
      if negb (String.eqb m "") &&
         String.eqb (toLowerCase pr.(gh_user_login)) (toLowerCase u) &&
         isDateInRange tz m since until && isAllowedBaseBranch pr.(gh_base_ref)
      then [mkPR pr.(gh_number) pr.(gh_title) repo pr.(gh_base_ref) m]
      else []
  | None => []
  end ++ listMergedPRs_loop tz u repo since until rest.
Proof.
  unfold stops_scan. simpl. destruct (gh_merged_at pr) as [m|]; [|reflexivity].
  destruct (String.eqb m ""); [reflexivity|].
  destruct (String.eqb _ _); [|reflexivity].
  destruct (isDateInRange tz m since until); simpl.
  - destruct (isAllowedBaseBranch _); reflexivity.
  - intros ->. reflexivity.
Qed.

(** X13: when the pages of closed PRs are fetched, [listMergedPRs] returns,
    in the order of the pages, the PRs of the repository that are merged,
    authored by the user (case-insensitively), merged within the range and
    based on an allowed branch: every PR it returns is such a PR, each such
    PR is returned unless one of the user's merged PRs that precedes it in
    the pages was merged before [since] (out of range), and nothing after
    that first such PR is returned. *)
Theorem listMergedPRs_selects : forall tz_offset username repo since until allPRs,
  let out := listMergedPRs_loop tz_offset username repo since until allPRs in
  (forall p, In p out ->
     p.(repoFullName) = repo /\ p.(mergedAt) <> ""%string /\
     isDateInRange tz_offset p.(mergedAt) since until = true /\
     isAllowedBaseBranch p.(baseBranch) = true /\
     exists pr, In pr allPRs /\ pr.(gh_merged_at) = Some p.(mergedAt) /\
       toLowerCase pr.(gh_user_login) = toLowerCase username /\
       p.(number) = pr.(gh_number) /\ p.(pr_title) = pr.(gh_title) /\
       p.(baseBranch) = pr.(gh_base_ref)) /\
  (forall pre pr post m,
     allPRs = pre ++ pr :: post ->
     Forall (fun q => stops_scan tz_offset username since until q = false) pre ->
     pr.(gh_merged_at) = Some m -> m <> ""%string ->
     toLowerCase pr.(gh_user_login) = toLowerCase username ->
     isDateInRange tz_offset m since until = true ->
     isAllowedBaseBranch pr.(gh_base_ref) = true ->
     In (mkPR pr.(gh_number) pr.(gh_title) repo pr.(gh_base_ref) m) out) /\
  (forall pre pr post,
     allPRs = pre ++ pr :: post ->
     Forall (fun q => stops_scan tz_offset username since until q = false) pre ->
     stops_scan tz_offset username since until pr = true ->
     out = listMergedPRs_loop tz_offset username repo since until pre).
Proof.
  intros tz u repo since until l out. subst out. split; [|split].
  - induction l as [|pr rest IH]; intros p Hp; [destruct Hp|].
    destruct (stops_scan tz u since until pr) eqn:Hs.
    + exfalso. unfold stops_scan in Hs. simpl in Hp.
      destruct (gh_merged_at pr) as [m|]; [|discriminate].
      destruct (String.eqb m ""); [discriminate|].
      destruct (String.eqb _ _); [|discriminate].
      destruct (isDateInRange tz m since until); [discriminate|].
      simpl in Hs, Hp. rewrite Hs in Hp. destruct Hp.
    + rewrite listMergedPRs_loop_cons in Hp by exact Hs.
      apply in_app_or in Hp as [Hp|Hp].
      * destruct (gh_merged_at pr) as [m|] eqn:Em; [|destruct Hp].
        destruct (negb (String.eqb m "")) eqn:E1; [|destruct Hp].
        destruct (String.eqb_spec (toLowerCase (gh_user_login pr)) (toLowerCase u))
          as [E2|]; [|destruct Hp].
        destruct (isDateInRange tz m since until) eqn:E3; [|destruct Hp].
        destruct (isAllowedBaseBranch (gh_base_ref pr)) eqn:E4; [|destruct Hp].
        destruct Hp as [<-|[]]. cbn [repoFullName mergedAt baseBranch number pr_title].
        split; [reflexivity|]. split.
        { destruct (String.eqb_spec m ""); [discriminate|assumption]. }
        split; [exact E3|]. split; [exact E4|].
        exists pr. split; [now left|]. split; [exact Em|]. split; [exact E2|].
        split; [reflexivity|split; reflexivity].
      * destruct (IH p Hp) as (H1 & H2 & H3 & H4 & pr' & Hin & H5).
        split; [exact H1|split; [exact H2|split; [exact H3|split; [exact H4|]]]].
        exists pr'. split; [now right|exact H5].
  - intros pre pr post m -> Hpre Hm Hne Hu Hr Hb.
    induction pre as [|q pre IH].
    + simpl. rewrite Hm. destruct (String.eqb_spec m ""); [contradiction|].
      rewrite Hu, String.eqb_refl, Hr, Hb. now left.
    + inversion Hpre as [|? ? Hq Hpre']; subst. simpl app.
      rewrite listMergedPRs_loop_cons by exact Hq.
      apply in_or_app. right. now apply IH.
  - intros pre pr post -> Hpre Hs. induction pre as [|q pre IH].
    + simpl. unfold stops_scan in Hs.
      destruct (gh_merged_at pr) as [m|]; [|discriminate].
      destruct (String.eqb m ""); [discriminate|].
      destruct (String.eqb _ _); [|discriminate].
      destruct (isDateInRange tz m since until); [discriminate|].
      simpl in Hs. rewrite Hs. reflexivity.
    + inversion Hpre as [|? ? Hq Hpre']; subst. simpl app.
      rewrite !listMergedPRs_loop_cons by exact Hq. f_equal. now apply IH.
Qed.

(** *** Scopes of [shouldIncludeRepo] *)

Definition with_scope (o : GitHubClientOptions) (s : option RepoScope) :=
  mkOptions s o.(repos) o.(orgs) o.(excludeRepos) o.(skipOrgScan).

(** X14: the scopes [personal] and [orgs] split the repositories that scope
    [all] (or no scope) accepts, the other options being the same: no
    repository is accepted under both, and a repository is accepted under
    one of them exactly when it is accepted under [all]; [all] accepts the
    same repositories as no scope. *)
Theorem shouldIncludeRepo_scope_partition : forall o repoFullName username,
  shouldIncludeRepo (with_scope o (Some scope_personal)) repoFullName username &&
  shouldIncludeRepo (with_scope o (Some scope_orgs)) repoFullName username = false /\
  shouldIncludeRepo (with_scope o (Some scope_personal)) repoFullName username ||
  shouldIncludeRepo (with_scope o (Some scope_orgs)) repoFullName username =
  shouldIncludeRepo (with_scope o (Some scope_all)) repoFullName username /\
  shouldIncludeRepo (with_scope o (Some scope_all)) repoFullName username =
  shouldIncludeRepo (with_scope o None) repoFullName username.
Proof.
  intros o r u. unfold shouldIncludeRepo, with_scope. cbn [scope repos orgs excludeRepos].
  destruct (opt_includes (excludeRepos o) r); [auto|].
  set (rest := if nonempty (repos o) then includes (list_of (repos o)) r
               else if nonempty (orgs o) then
                 if String.eqb (split_slash_first r) "" then false
                 else includes (list_of (orgs o)) (split_slash_first r)
               else true).
  destruct (isOrgRepo r u); simpl; split; auto; destruct rest; auto.
Qed.

(** *** The repository of a search result *)

(** [repository_url.match(/repos\/([^/]+\/[^/]+)$/)] tried at the start of
    [s]: [repos/], then two non-empty segments without [/] up to the end. *)
Definition repo_match_at (s : string) : option string :=
  match strip_prefix "repos/" s with
  | Some r =>
      match take_until "/"%char r with
      | Some (owner, name) =>
          if negb (String.eqb owner "") && negb (String.eqb name "") &&
             negb (has_char "/"%char name)
          then Some (owner ++ "/" ++ name)%string else None
      | None => None
      end
  | None => None
  end.

(** The leftmost match, its first group. *)
Fixpoint repo_search (s : string) : option string :=
  match repo_match_at s with
  | Some m => Some m
  | None => match s with
            | String _ r => repo_search r
            | EmptyString => None
            end
  end.

Example repo_search_example :
  repo_search "https://api.github.com/repos/acme/tool" = Some "acme/tool"%string.
Proof. reflexivity. Qed.

Lemma repo_search_eq s :
  repo_search s = match repo_match_at s with
                  | Some m => Some m
                  | None => match s with
                            | String _ r => repo_search r
                            | EmptyString => None
                            end
                  end.
Proof. destruct s; reflexivity. Qed.

Lemma strip_prefix_app p s : strip_prefix p (p ++ s) = Some s.
Proof.
  induction p as [|c p IH]; simpl; [destruct s; reflexivity|].
  replace (ascii_eqb c c) with true by (symmetry; now apply ascii_eqb_iff).
  exact IH.
Qed.

Lemma strip_prefix_some p s r : strip_prefix p s = Some r -> s = (p ++ r)%string.
Proof.
  revert s; induction p as [|c p IH]; intros s; simpl.
  - now intros [= ->].
  - destruct s as [|c' s]; [discriminate|].
    destruct (ascii_eqb c c') eqn:E; [|discriminate].
    apply ascii_eqb_iff in E. subst c'. intros H. f_equal. now apply IH.
Qed.

Lemma take_until_some c s a b :
  take_until c s = Some (a, b) -> s = (a ++ String c b)%string /\ has_char c a = false.
Proof.
  revert a; induction s as [|x s IH]; intros a; simpl; [discriminate|].
  destruct (ascii_eqb x c) eqn:E.
  - intros [= <- <-]. apply ascii_eqb_iff in E. subst. split; reflexivity.
  - destruct (take_until c s) as [[h t]|] eqn:Et; [|discriminate].
    intros [= <- <-]. destruct (IH h eq_refl) as [-> Hh].
    split; [reflexivity|]. simpl. now rewrite E, Hh.
Qed.

Fixpoint count_char (c : ascii) (s : string) : nat :=
  match s with
  | EmptyString => O
  | String x r => ((if ascii_eqb x c then 1 else 0) + count_char c r)%nat
  end.

Lemma count_char_app c a b : count_char c (a ++ b) = (count_char c a + count_char c b)%nat.
Proof. induction a as [|x a IH]; simpl; [reflexivity|rewrite IH; lia]. Qed.

Lemma count_char_none c a : has_char c a = false -> count_char c a = O.
Proof.
  induction a as [|x a IH]; simpl; [reflexivity|].
  intros H. apply orb_false_iff in H as [-> H]. now rewrite IH.
Qed.

Lemma repo_match_at_some s m :
  repo_match_at s = Some m ->
  exists owner name, s = ("repos/" ++ owner ++ "/" ++ name)%string /\
    m = (owner ++ "/" ++ name)%string /\
    owner <> ""%string /\ name <> ""%string /\
    has_char "/"%char owner = false /\ has_char "/"%char name = false.
Proof.
  unfold repo_match_at.
  destruct (strip_prefix "repos/" s) as [r|] eqn:Hs; [|discriminate].
  destruct (take_until "/"%char r) as [[a b]|] eqn:Ht; [|discriminate].
  destruct (String.eqb_spec a ""); [discriminate|].
  destruct (String.eqb_spec b ""); [discriminate|].
  destruct (has_char "/"%char b) eqn:Hb; [discriminate|].
  intros [= <-]. apply strip_prefix_some in Hs. apply take_until_some in Ht as [-> Ha].
  exists a, b. repeat split; auto.
Qed.

Lemma string_app_assoc (a b c : string) : (a ++ (b ++ c) = (a ++ b) ++ c)%string.
Proof. induction a as [|x a IH]; simpl; [reflexivity|now rewrite IH]. Qed.

Lemma repo_match_at_shifted x pre owner name :
  has_char "/"%char owner = false -> has_char "/"%char name = false ->
  repo_match_at (String x pre ++ "repos/" ++ owner ++ "/" ++ name) = None.
Proof.
  intros Ho Hn.
  destruct (repo_match_at _) as [m|] eqn:E; [|reflexivity]. exfalso.
  apply repo_match_at_some in E as (a & b & E & _ & _ & _ & Ha & Hb).
  assert (Hc := f_equal (count_char "/"%char) E).
  rewrite !count_char_app in Hc. cbn [count_char String.append] in Hc.
  rewrite (count_char_none _ _ Ho), (count_char_none _ _ Hn),
    (count_char_none _ _ Ha), (count_char_none _ _ Hb) in Hc.
  cbn in Hc. destruct (ascii_eqb x "/"%char) eqn:Ex; [lia|].
  assert (Hpre : has_char "/"%char pre = false).
  { destruct (has_char "/"%char pre) eqn:Hp; [|reflexivity].
    exfalso. assert (count_char "/"%char pre <> O); [|lia].
    clear -Hp. induction pre as [|y pre IH]; simpl in *; [discriminate|].
    destruct (ascii_eqb y "/"%char); [lia|]. simpl in Hp. now apply IH in Hp. }
  assert (Ht := f_equal (take_until "/"%char) E).
  replace (String x pre ++ "repos/" ++ owner ++ "/" ++ name)%string
    with ((String x pre ++ "repos") ++ String "/" (owner ++ "/" ++ name))%string in Ht
    by (simpl; now rewrite <- string_app_assoc).
  replace ("repos/" ++ a ++ "/" ++ b)%string
    with ("repos" ++ String "/" (a ++ "/" ++ b))%string in Ht by reflexivity.
  rewrite !take_until_app in Ht.
  - apply (f_equal (fun o => match o with Some (h, _) => String.length h | None => O end)) in Ht.
    cbv beta iota in Ht. rewrite string_length_app in Ht. simpl in Ht. lia.
  - reflexivity.
  - simpl. rewrite Ex, has_char_app, Hpre. reflexivity.
Qed.

(** X15: [fetchPRsViaGlobalSearch] reads a search result's repository back
    from its [repository_url]: a URL that ends in [repos/owner/name] (owner
    and name not empty and without [/]) gives [owner/name], whatever comes
    before; and whatever it extracts is of that form, two non-empty
    segments joined by one [/], taken from the end of the URL after
    [repos/]. *)
Theorem repo_search_repository_url : forall url,
  (forall base owner name,
     url = (base ++ "repos/" ++ owner ++ "/" ++ name)%string ->
     owner <> ""%string -> name <> ""%string ->
     has_char "/"%char owner = false -> has_char "/"%char name = false ->
     repo_search url = Some (owner ++ "/" ++ name)%string) /\
  (forall m, repo_search url = Some m ->
     exists base owner name, url = (base ++ "repos/" ++ owner ++ "/" ++ name)%string /\
       m = (owner ++ "/" ++ name)%string /\ owner <> ""%string /\ name <> ""%string /\
       has_char "/"%char owner = false /\ has_char "/"%char name = false).
Proof.
  intros url. split.
  - intros base owner name -> Ho Hn Hso Hsn.
    induction base as [|x base IH].
    + rewrite repo_search_eq. unfold repo_match_at.
      change (("" ++ "repos/" ++ owner ++ "/" ++ name)%string) with
        (("repos/" ++ (owner ++ "/" ++ name))%string).
      rewrite strip_prefix_app. change ("/" ++ name)%string with (String "/" name).
      rewrite take_until_app by exact Hso.
      destruct (String.eqb_spec owner ""); [contradiction|].
      destruct (String.eqb_spec name ""); [contradiction|].
      rewrite Hsn. reflexivity.
    + rewrite repo_search_eq.
      rewrite repo_match_at_shifted by assumption.
      exact IH.
  - induction url as [|x r IH]; intros m.
    + discriminate.
    + rewrite repo_search_eq. destruct (repo_match_at (String x r)) as [m'|] eqn:E.
      * intros [= <-]. apply repo_match_at_some in E
          as (a & b & E & -> & Ha & Hb & Hsa & Hsb).
        exists ""%string, a, b. repeat split; auto.
      * intros H. destruct (IH m H) as (base & a & b & -> & Hrest).
        exists (String x base), a, b. split; [reflexivity|exact Hrest].
Qed.

(** *** The details loop of [fetchPRsViaGlobalSearch] *)

(** The fields of a search result ([GitHubSearchIssue]) the loop reads. *)
Record SearchItem := mkItem {
  item_repository_url : string;
  item_number : Z
}.

(** [`/repos/${repoFullName}/pulls/${item.number}`] *)
Definition gh_endpoint (repo : string) (n : Z) : string :=
  ("/repos/" ++ repo ++ "/pulls/" ++ number_to_string n)%string.

(** [`${repoFullName}#${item.number}`] *)
Definition search_key (req : string * Z) : string :=
  (fst req ++ String "#" (number_to_string (snd req)))%string.

(** The loop over [allItems], with [seenPRs] as the list of keys added so
    far. [details endpoint] is the answer of [this.request] for the
    endpoint, [None] when it throws (the [catch] skips the item). The
    result is [pullRequests] and the details requests made, in order, as
    [(repoFullName, item.number)]. *)
Fixpoint globalSearch_details (details : string -> option GitHubPullRequest)
    (allItems : list SearchItem) (seenPRs : list string)
    : list PullRequest * list (string * Z) :=
  match allItems with
  | [] => ([], [])
  | item :: rest =>
      match repo_search item.(item_repository_url) with
      | None => globalSearch_details details rest seenPRs
      | Some repo =>
          let prKey := search_key (repo, item.(item_number)) in
          if includes seenPRs prKey then globalSearch_details details rest seenPRs
          else
            let '(prs, reqs) := globalSearch_details details rest (seenPRs ++ [prKey]) in
            let reqs' := (repo, item.(item_number)) :: reqs in
            match details (gh_endpoint repo item.(item_number)) with
            | None => (prs, reqs')
            | Some pr =>
                match pr.(gh_merged_at) with
                | None => (prs, reqs')
                | Some m =>
                    if String.eqb m "" || negb (isAllowedBaseBranch pr.(gh_base_ref))
                    then (prs, reqs')
                    else (mkPR pr.(gh_number) pr.(gh_title) repo pr.(gh_base_ref) m :: prs,
                          reqs')
                end
            end
      end
  end.

(** [fetchPRsViaGlobalSearch] from the cache lookup on, for the items
    [allItems] the search pages gave: the PRs returned, the details
    requests made and what is written to the cache ([None]: nothing).
    [cached] is the value [cache.get] returned; an array, even empty, is
    truthy. *)
Definition fetchPRsViaGlobalSearch (o : GitHubClientOptions) (username : string)
    (cached : option (list PullRequest)) (details : string -> option GitHubPullRequest)
    (allItems : list SearchItem)
    : list PullRequest * list (string * Z) * option (list PullRequest) :=
  match cached with
  | Some c => (filter (fun pr => shouldIncludeRepo o pr.(repoFullName) username) c, [], None)
  | None =>
      let '(pullRequests, reqs) := globalSearch_details details allItems [] in
      (filter (fun pr => shouldIncludeRepo o pr.(repoFullName) username) pullRequests,
       reqs, Some pullRequests)
  end.

(** The keys of the items whose URL names a repository. *)
Definition item_keys (allItems : list SearchItem) : list string :=
  flat_map (fun item => match repo_search item.(item_repository_url) with
                        | Some repo => [search_key (repo, item.(item_number))]
                        | None => []
                        end) allItems.

Lemma globalSearch_details_step details item rest seen repo :
  repo_search item.(item_repository_url) = Some repo ->
  includes seen (search_key (repo, item.(item_number))) = false ->
  exists pr,
    snd (globalSearch_details details (item :: rest) seen) =
      (repo, item.(item_number)) ::
        snd (globalSearch_details details rest (seen ++ [search_key (repo, item.(item_number))])) /\
    fst (globalSearch_details details (item :: rest) seen) =
      pr ++ fst (globalSearch_details details rest (seen ++ [search_key (repo, item.(item_number))])) /\
    (pr = [] \/ exists gh m, pr = [mkPR gh.(gh_number) gh.(gh_title) repo gh.(gh_base_ref) m] /\
       details (gh_endpoint repo item.(item_number)) = Some gh /\
       gh.(gh_merged_at) = Some m /\ m <> ""%string /\
       isAllowedBaseBranch gh.(gh_base_ref) = true).
Proof.
  intros Hr Hs. cbn [globalSearch_details]. rewrite Hr, Hs.
  destruct (globalSearch_details details rest _) as [prs reqs].
  destruct (details (gh_endpoint repo (item_number item))) as [gh|] eqn:Ed;
    [|exists []; auto].
  destruct (gh_merged_at gh) as [m|] eqn:Em; [|exists []; auto].
  destruct (String.eqb_spec m "") as [Hm|Hm]; [exists []; auto|].
  destruct (isAllowedBaseBranch (gh_base_ref gh)) eqn:Ha; [|exists []; auto].
  exists [mkPR gh.(gh_number) gh.(gh_title) repo gh.(gh_base_ref) m].
  split; [reflexivity|split; [reflexivity|right]]. exists gh, m. auto.
Qed.

Lemma globalSearch_details_skip details item rest seen :
  (repo_search item.(item_repository_url) = None \/
   exists repo, repo_search item.(item_repository_url) = Some repo /\
     includes seen (search_key (repo, item.(item_number))) = true) ->
  globalSearch_details details (item :: rest) seen = globalSearch_details details rest seen.
Proof.
  intros [H|(repo & H & Hs)]; cbn [globalSearch_details]; rewrite H; [reflexivity|].
  now rewrite Hs.
Qed.

Lemma globalSearch_details_keys details items seen :
  seen ++ map search_key (snd (globalSearch_details details items seen)) =
  str_set_add_all seen (item_keys items).
Proof.
  revert seen; induction items as [|item rest IH]; intros seen.
  - simpl. apply app_nil_r.
  - unfold item_keys; cbn [flat_map]; fold (item_keys rest).
    destruct (repo_search (item_repository_url item)) as [repo|] eqn:Hr.
    + cbn [app str_set_add_all].
      destruct (includes seen (search_key (repo, item_number item))) eqn:Hs.
      * rewrite globalSearch_details_skip by (right; eauto). apply IH.
      * destruct (globalSearch_details_step details item rest seen repo Hr Hs)
          as (pr & -> & _ & _).
        cbn [map]. rewrite <- IH, <- app_assoc. reflexivity.
    + rewrite globalSearch_details_skip by (left; exact Hr). apply IH.
Qed.

Lemma globalSearch_details_sound details items seen :
  Forall (fun pr => mergedAt pr <> ""%string /\ isAllowedBaseBranch (baseBranch pr) = true /\
    exists n gh, In (repoFullName pr, n) (snd (globalSearch_details details items seen)) /\
      details (gh_endpoint (repoFullName pr) n) = Some gh /\
      gh.(gh_number) = number pr /\ gh.(gh_title) = pr_title pr /\
      gh.(gh_merged_at) = Some (mergedAt pr) /\ gh.(gh_base_ref) = baseBranch pr)
    (fst (globalSearch_details details items seen)).
Proof.
  revert seen; induction items as [|item rest IH]; intros seen; [constructor|].
  destruct (repo_search (item_repository_url item)) as [repo|] eqn:Hr.
  - destruct (includes seen (search_key (repo, item_number item))) eqn:Hs.
    + rewrite globalSearch_details_skip by (right; eauto). apply IH.
    + destruct (globalSearch_details_step details item rest seen repo Hr Hs)
        as (pr & Hsnd & Hfst & Hpr).
      rewrite Hfst, Hsnd. apply Forall_app. split.
      * destruct Hpr as [->|(gh & m & -> & Hd & Hm & Hne & Ha)]; [constructor|].
        constructor; [|constructor]. cbn [mergedAt baseBranch repoFullName number pr_title].
        split; [exact Hne|split; [exact Ha|]].
        exists (item_number item), gh. split; [now left|auto].
      * eapply Forall_impl; [|apply IH].
        intros p (H1 & H2 & n & gh & Hin & Hrest). split; [exact H1|split; [exact H2|]].
        exists n, gh. split; [now right|exact Hrest].
  - rewrite globalSearch_details_skip by (left; exact Hr). apply IH.
Qed.

(** X16: in [fetchPRsViaGlobalSearch] without a cached value, the details of
    every PR of the search are requested once: the requests, as
    [repo#number] keys, are the distinct keys of the items whose URL names
    a repository, in order of first appearance. Every PR returned passes
    [shouldIncludeRepo], has a non-empty [merged_at] and an allowed base
    branch, and comes from a details request made, whose answer gives its
    number, title, merge date and base branch; the cache receives the PRs
    before the [shouldIncludeRepo] filter. With a cached value, no request
    is made, nothing is written, and the result is the cached list
    filtered by [shouldIncludeRepo]. *)
Theorem fetchPRsViaGlobalSearch_requests_results :
  forall o username details allItems,
  (let '(out, reqs, written) := fetchPRsViaGlobalSearch o username None details allItems in
   map search_key reqs = new_StrSet (item_keys allItems) /\
   NoDup (map search_key reqs) /\
   (exists pullRequests, written = Some pullRequests /\
      out = filter (fun pr => shouldIncludeRepo o pr.(repoFullName) username) pullRequests) /\
   Forall (fun pr => shouldIncludeRepo o (repoFullName pr) username = true /\
     mergedAt pr <> ""%string /\ isAllowedBaseBranch (baseBranch pr) = true /\
     exists n gh, In (repoFullName pr, n) reqs /\
       details (gh_endpoint (repoFullName pr) n) = Some gh /\
       gh.(gh_number) = number pr /\ gh.(gh_title) = pr_title pr /\
       gh.(gh_merged_at) = Some (mergedAt pr) /\ gh.(gh_base_ref) = baseBranch pr) out) /\
  (forall c, fetchPRsViaGlobalSearch o username (Some c) details allItems =
     (filter (fun pr => shouldIncludeRepo o pr.(repoFullName) username) c, [], None)).
Proof.
  intros o u details items. split; [|reflexivity].
  unfold fetchPRsViaGlobalSearch.
  pose proof (globalSearch_details_keys details items []) as Hk.
  pose proof (globalSearch_details_sound details items []) as Hs.
  destruct (globalSearch_details details items []) as [prs reqs].
  cbn [fst snd app] in Hk, Hs.
  split; [exact Hk|]. split; [rewrite Hk; apply str_set_add_all_nodup; constructor|].
  split; [eexists; split; reflexivity|].
  apply Forall_forall. intros pr Hin. apply filter_In in Hin as [Hin Hinc].
  rewrite Forall_forall in Hs. destruct (Hs pr Hin) as (H1 & H2 & H3).
  auto.
Qed.

(** *** [listMergedPRs] with its fallback, and the per-repository scans *)

(** The loop of [listMergedPRsViaSearch] over the numbers of the items the
    search pages gave ([fetchCommits] is [false] where the discovery calls
    it). *)
Fixpoint listMergedPRsViaSearch_loop (details : string -> option GitHubPullRequest)
    (repoFullName : string) (items : list Z) : list PullRequest :=
  match items with
  | [] => []
  | n :: rest =>
      let continue_ := listMergedPRsViaSearch_loop details repoFullName rest in
      match details (gh_endpoint repoFullName n) with
      | None => continue_
      | Some pr =>
          match pr.(gh_merged_at) with
          | None => continue_
          | Some m =>
              if String.eqb m "" || negb (isAllowedBaseBranch pr.(gh_base_ref))
              then continue_
              else mkPR pr.(gh_number) pr.(gh_title) repoFullName pr.(gh_base_ref) m
                   :: continue_
          end
      end
  end.

(** What the client reads from GitHub, per repository: the pages of its
    closed PRs ([None]: [fetchAllPages] throws), the numbers found by the
    per-repository search ([None]: a search request throws), the answer to
    a PR details request by endpoint ([None]: it throws), the repositories
    [listOrgRepositories] gives for an organization (it catches its errors)
    and the organizations [listUserOrganizations] gives. *)
Record GitHubEnv := mkEnv {
  env_pages : string -> option (list GitHubPullRequest);
  env_search : string -> option (list Z);
  env_details : string -> option GitHubPullRequest;
  env_orgRepos : string -> list string;
  env_userOrgs : list string
}.

(** [listMergedPRs]: the pages, or on a throw the fallback search, which
    throws in turn when its search requests do ([None]). *)
Definition listMergedPRs (env : GitHubEnv) (tz_offset : Z)
    (username repoFullName since until : string) : option (list PullRequest) :=
  match env.(env_pages) repoFullName with
  | Some allPRs => Some (listMergedPRs_loop tz_offset username repoFullName since until allPRs)
  | None =>
      match env.(env_search) repoFullName with
      | Some items => Some (listMergedPRsViaSearch_loop env.(env_details) repoFullName items)
      | None => None
      end
  end.

(** The inner loop shared by [fetchPRsFromSpecificRepos] and
    [fetchPRsFromOrgRepos]: [listMergedPRs] on each repository in turn,
    a throw skipped; the PRs found and the repositories scanned. *)
Fixpoint scan_repos (env : GitHubEnv) (tz_offset : Z) (username since until : string)
    (repoList : list string) : list PullRequest * list string :=
  match repoList with
  | [] => ([], [])
  | r :: rest =>
      let '(prs, scanned) := scan_repos env tz_offset username since until rest in
      (match listMergedPRs env tz_offset username r since until with
       | Some found => found
       | None => []
       end ++ prs, r :: scanned)
  end.

(** [fetchPRsFromSpecificRepos] *)
Definition fetchPRsFromSpecificRepos (o : GitHubClientOptions) (env : GitHubEnv)
    (tz_offset : Z) (username since until : string) : list PullRequest * list string :=
  if negb (nonempty o.(repos)) then ([], [])
  else scan_repos env tz_offset username since until
         (filter (fun r => negb (opt_includes o.(excludeRepos) r)) (list_of o.(repos))).

(** [fetchPRsFromOrgRepos], [excludeRepos] being the set of repositories
    the global search found. *)
Definition fetchPRsFromOrgRepos (o : GitHubClientOptions) (env : GitHubEnv)
    (tz_offset : Z) (username since until : string) (excludeSet : list string)
    : list PullRequest * list string :=
  if match o.(scope) with Some scope_personal => true | _ => false end then ([], [])
  else if nonempty o.(repos) then ([], [])
  else
    let orgsToCheck := if nonempty o.(orgs) then list_of o.(orgs) else env.(env_userOrgs) in
    fold_left (fun acc org =>
        let uncheckedRepos :=
          filter (fun r => negb (includes excludeSet r) && shouldIncludeRepo o r username)
                 (env.(env_orgRepos) org) in
        let '(prs, scanned) := scan_repos env tz_offset username since until uncheckedRepos in
        (fst acc ++ prs, snd acc ++ scanned))
      orgsToCheck ([], []).

Lemma listMergedPRs_loop_sound tz u repo since until l :
  Forall (fun p => p.(repoFullName) = repo /\ p.(mergedAt) <> ""%string /\
                   isAllowedBaseBranch p.(baseBranch) = true)
    (listMergedPRs_loop tz u repo since until l).
Proof.
  induction l as [|pr rest IH]; [constructor|]. simpl.
  destruct (gh_merged_at pr) as [m|]; [|exact IH].
  destruct (String.eqb_spec m ""); [exact IH|].
  destruct (negb _); [exact IH|].
  destruct (negb (isDateInRange tz m since until)).
  - destruct (date_lt m since); [constructor|exact IH].
  - destruct (isAllowedBaseBranch (gh_base_ref pr)) eqn:Ha; simpl; [|exact IH].
    constructor; [|exact IH]. cbn. auto.
Qed.

Lemma listMergedPRsViaSearch_loop_sound details repo items :
  Forall (fun p => p.(repoFullName) = repo /\ p.(mergedAt) <> ""%string /\
                   isAllowedBaseBranch p.(baseBranch) = true)
    (listMergedPRsViaSearch_loop details repo items).
Proof.
  induction items as [|n rest IH]; [constructor|]. simpl.
  destruct (details (gh_endpoint repo n)) as [gh|]; [|exact IH].
  destruct (gh_merged_at gh) as [m|]; [|exact IH].
  destruct (String.eqb_spec m ""); [exact IH|].
  destruct (isAllowedBaseBranch (gh_base_ref gh)) eqn:Ha; simpl; [|exact IH].
  constructor; [|exact IH]. cbn. auto.
Qed.

Lemma listMergedPRs_sound env tz u repo since until found :
  listMergedPRs env tz u repo since until = Some found ->
  Forall (fun p => p.(repoFullName) = repo /\ p.(mergedAt) <> ""%string /\
                   isAllowedBaseBranch p.(baseBranch) = true) found.
Proof.
  unfold listMergedPRs.
  destruct (env_pages env repo) as [l|].
  - intros [= <-]. apply listMergedPRs_loop_sound.
  - destruct (env_search env repo) as [items|]; [|discriminate].
    intros [= <-]. apply listMergedPRsViaSearch_loop_sound.
Qed.

Lemma scan_repos_spec env tz u since until l :
  snd (scan_repos env tz u since until l) = l /\
  fst (scan_repos env tz u since until l) =
    flat_map (fun r => match listMergedPRs env tz u r since until with
                       | Some found => found | None => [] end) l.
Proof.
  induction l as [|r rest [IH1 IH2]]; [split; reflexivity|]. simpl.
  destruct (scan_repos env tz u since until rest) as [prs scanned].
  simpl in IH1, IH2. subst. split; reflexivity.
Qed.

Lemma scan_repos_sound env tz u since until l :
  Forall (fun p => In p.(repoFullName) l /\ p.(mergedAt) <> ""%string /\
                   isAllowedBaseBranch p.(baseBranch) = true)
    (fst (scan_repos env tz u since until l)).
Proof.
  destruct (scan_repos_spec env tz u since until l) as [_ ->].
  apply Forall_forall. intros p Hp. apply in_flat_map in Hp as (r & Hr & Hp).
  destruct (listMergedPRs env tz u r since until) as [found|] eqn:E; [|destruct Hp].
  apply listMergedPRs_sound in E. rewrite Forall_forall in E.
  destruct (E p Hp) as (-> & H2 & H3). auto.
Qed.

Lemma fetchPRsFromSpecificRepos_spec : forall o env tz_offset username since until,
  let '(prs, scanned) := fetchPRsFromSpecificRepos o env tz_offset username since until in
  scanned = specificReposScanned o /\
  prs = flat_map (fun r => match listMergedPRs env tz_offset username r since until with
                           | Some found => found | None => [] end) scanned /\
  Forall (fun p => In p.(repoFullName) (list_of o.(repos)) /\
                   opt_includes o.(excludeRepos) p.(repoFullName) = false /\
                   p.(mergedAt) <> ""%string /\ isAllowedBaseBranch p.(baseBranch) = true) prs.
Proof.
  intros o env tz u since until. unfold fetchPRsFromSpecificRepos, specificReposScanned.
  destruct (nonempty (repos o)); simpl; [|repeat split; constructor].
  set (l := filter _ (list_of (repos o))).
  pose proof (scan_repos_spec env tz u since until l) as [H1 H2].
  pose proof (scan_repos_sound env tz u since until l) as H3.
  destruct (scan_repos env tz u since until l) as [prs scanned].
  simpl in H1, H2, H3. subst scanned. split; [reflexivity|split; [exact H2|]].
  eapply Forall_impl; [|exact H3]. intros p (Hin & H4 & H5).
  unfold l in Hin. apply filter_In in Hin as [Hin Hx].
  split; [exact Hin|]. split; [|auto]. now apply negb_true_iff.
Qed.

(** X17: [fetchPRsFromSpecificRepos] scans the listed repositories that are
    not excluded, in the order listed (none when the list is missing or
    empty), and returns, in that order, the PRs [listMergedPRs] found in
    them, skipping those where it threw; so every PR returned belongs to a
    listed, non-excluded repository and is merged (non-empty merge date)
    into an allowed base branch. *)
Theorem fetchPRsFromSpecificRepos_scan : forall o env tz_offset username since until,
  let '(prs, scanned) := fetchPRsFromSpecificRepos o env tz_offset username since until in
  scanned = specificReposScanned o /\
  prs = flat_map (fun r => match listMergedPRs env tz_offset username r since until with
                           | Some found => found | None => [] end) scanned /\
  Forall (fun p => In p.(repoFullName) (list_of o.(repos)) /\
                   opt_includes o.(excludeRepos) p.(repoFullName) = false /\
                   p.(mergedAt) <> ""%string /\ isAllowedBaseBranch p.(baseBranch) = true) prs.
Proof. exact fetchPRsFromSpecificRepos_spec. Qed.

Lemma fetchPRsFromOrgRepos_fold o env tz u since until excludeSet orgList acc :
  let unchecked org :=
    filter (fun r => negb (includes excludeSet r) && shouldIncludeRepo o r u)
           (env.(env_orgRepos) org) in
  fold_left (fun acc org =>
      let uncheckedRepos := unchecked org in
      let '(prs, scanned) := scan_repos env tz u since until uncheckedRepos in
      (fst acc ++ prs, snd acc ++ scanned)) orgList acc =
  (fst acc ++ flat_map (fun org => fst (scan_repos env tz u since until (unchecked org))) orgList,
   snd acc ++ flat_map unchecked orgList).
Proof.
  intros unchecked. revert acc. induction orgList as [|org rest IH]; intros acc.
  - simpl. rewrite !app_nil_r. destruct acc; reflexivity.
  - cbn [fold_left flat_map].
    pose proof (scan_repos_spec env tz u since until (unchecked org)) as [Hs _].
    destruct (scan_repos env tz u since until (unchecked org)) as [prs scanned] eqn:E.
    simpl in Hs. subst scanned. rewrite IH. cbn [fst snd]. rewrite !app_assoc. reflexivity.
Qed.

Lemma fetchPRsFromOrgRepos_spec : forall o env tz_offset username since until excludeSet,
  let '(prs, scanned) :=
    fetchPRsFromOrgRepos o env tz_offset username since until excludeSet in
  (o.(scope) = Some scope_personal \/ nonempty o.(repos) = true ->
   prs = [] /\ scanned = []) /\
  (forall r, In r scanned ->
     ~ In r excludeSet /\ shouldIncludeRepo o r username = true /\
     exists org, In org (if nonempty o.(orgs) then list_of o.(orgs) else env.(env_userOrgs)) /\
       In r (env.(env_orgRepos) org)) /\
  Forall (fun p => In p.(repoFullName) scanned /\ ~ In p.(repoFullName) excludeSet /\
                   shouldIncludeRepo o p.(repoFullName) username = true /\
                   p.(mergedAt) <> ""%string /\ isAllowedBaseBranch p.(baseBranch) = true) prs.
Proof.
  intros o env tz u since until ex. unfold fetchPRsFromOrgRepos.
  destruct (scope o) as [[| |]|] eqn:Hsc;
  [| split; [|split]; [intros _; split; reflexivity|intros r []|constructor] | |].
  all: destruct (nonempty (repos o)) eqn:Hr;
       [split; [|split]; [intros _; split; reflexivity|intros r []|constructor]|].
  all: rewrite fetchPRsFromOrgRepos_fold; cbn [fst snd app].
  all: set (orgList := if nonempty (orgs o) then list_of (orgs o) else env_userOrgs env).
  all: set (unchecked := fun org => filter (fun r => negb (includes ex r) &&
                                   shouldIncludeRepo o r u) (env_orgRepos env org)).
  all: assert (Hsc' : forall r, In r (flat_map unchecked orgList) ->
         ~ In r ex /\ shouldIncludeRepo o r u = true /\
         exists org, In org orgList /\ In r (env_orgRepos env org))
    by (intros r Hin; apply in_flat_map in Hin as (org & Horg & Hin);
        unfold unchecked in Hin; apply filter_In in Hin as [Hin Hf];
        apply andb_true_iff in Hf as [Hx Hs]; apply negb_true_iff in Hx;
        split; [intros Hc; apply includes_iff in Hc; congruence|];
        split; [exact Hs|exists org; auto]).
  all: split; [intros [H|H]; discriminate|split; [exact Hsc'|]].
  all: apply Forall_forall; intros p Hp; apply in_flat_map in Hp as (org & Horg & Hp).
  all: pose proof (scan_repos_sound env tz u since until (unchecked org)) as Hs;
       rewrite Forall_forall in Hs; destruct (Hs p Hp) as (Hin & H1 & H2).
  all: assert (Hin' : In (repoFullName p) (flat_map unchecked orgList))
         by (apply in_flat_map; exists org; auto).
  all: destruct (Hsc' _ Hin') as (H3 & H4 & _); auto.
Qed.

(** X18: [fetchPRsFromOrgRepos] scans nothing under scope [personal] or
    with a non-empty repository list. Otherwise it scans the repositories of
    the listed organizations (of the user's organizations when none are
    listed) that are not in the given set and pass [shouldIncludeRepo];
    every PR it returns belongs to one of them, so it is never of a
    repository in the set, its repository passes [shouldIncludeRepo], and it
    is merged into an allowed base branch. *)
Theorem fetchPRsFromOrgRepos_scan : forall o env tz_offset username since until excludeSet,
  let '(prs, scanned) :=
    fetchPRsFromOrgRepos o env tz_offset username since until excludeSet in
  (o.(scope) = Some scope_personal \/ nonempty o.(repos) = true ->
   prs = [] /\ scanned = []) /\
  (forall r, In r scanned ->
     ~ In r excludeSet /\ shouldIncludeRepo o r username = true /\
     exists org, In org (if nonempty o.(orgs) then list_of o.(orgs) else env.(env_userOrgs)) /\
       In r (env.(env_orgRepos) org)) /\
  Forall (fun p => In p.(repoFullName) scanned /\ ~ In p.(repoFullName) excludeSet /\
                   shouldIncludeRepo o p.(repoFullName) username = true /\
                   p.(mergedAt) <> ""%string /\ isAllowedBaseBranch p.(baseBranch) = true) prs.
Proof. exact fetchPRsFromOrgRepos_spec. Qed.

(** [fetchAllMergedPRs] with its strategies run: [cached] is what the
    cache holds for the global search and [allItems] the items its pages
    give. *)
Definition fetchAllMergedPRs_run (o : GitHubClientOptions) (env : GitHubEnv)
    (cached : option (list PullRequest)) (allItems : list SearchItem)
    (tz_offset : Z) (username since until : string) : list PullRequest :=
  if nonempty o.(repos) then
    dedup_and_sort (fst (fetchPRsFromSpecificRepos o env tz_offset username since until))
  else
    let searchPRs :=
      fst (fst (fetchPRsViaGlobalSearch o username cached env.(env_details) allItems)) in
    if negb o.(skipOrgScan) then
      let foundRepos := new_StrSet (map repoFullName searchPRs) in
      let orgPRs :=
        fst (fetchPRsFromOrgRepos o env tz_offset username since until foundRepos) in
      dedup_and_sort (searchPRs ++ orgPRs)
    else dedup_and_sort searchPRs.

Lemma dedup_and_sort_in l p : In p (dedup_and_sort l) -> In p l.
Proof.
  unfold dedup_and_sort. intros H.
  apply (Permutation_in _ (sort_by_perm mergedAt_gt (map snd (uniquePRs_fill [] l)))) in H.
  apply uniquePRs_fill_in in H; [|intros kv []].
  destruct H as [[]|[_ H]]. now apply find_some in H as [H _].
Qed.

Lemma fetchPRsViaGlobalSearch_filtered o u cached details items :
  Forall (fun pr => shouldIncludeRepo o (repoFullName pr) u = true /\
    (cached = None -> mergedAt pr <> ""%string /\ isAllowedBaseBranch (baseBranch pr) = true))
    (fst (fst (fetchPRsViaGlobalSearch o u cached details items))).
Proof.
  unfold fetchPRsViaGlobalSearch. destruct cached as [c|].
  - apply Forall_forall. intros pr Hin. apply filter_In in Hin as [_ H].
    split; [exact H|discriminate].
  - pose proof (globalSearch_details_sound details items []) as Hs.
    destruct (globalSearch_details details items []) as [prs reqs]. cbn [fst] in *.
    apply Forall_forall. intros pr Hin. apply filter_In in Hin as [Hin H].
    rewrite Forall_forall in Hs. destruct (Hs pr Hin) as (H1 & H2 & _). auto.
Qed.

Lemma fetchPRsViaGlobalSearch_from_cache o u c details items pr :
  In pr (fst (fst (fetchPRsViaGlobalSearch o u (Some c) details items))) -> In pr c.
Proof.
  unfold fetchPRsViaGlobalSearch. intros Hin. apply filter_In in Hin as [Hin _]. exact Hin.
Qed.

(** X19: every PR [fetchAllMergedPRs] returns is of a repository the
    options admit: with a non-empty repository list, a listed repository
    that is not excluded; otherwise one that passes [shouldIncludeRepo].
    Each is merged into an allowed base branch, except possibly a PR of
    the cached global search result, which is not checked again. *)
Theorem fetchAllMergedPRs_admitted : forall o env cached allItems tz_offset username since until,
  Forall (fun p =>
    (if nonempty o.(repos)
     then In p.(repoFullName) (list_of o.(repos)) /\
          opt_includes o.(excludeRepos) p.(repoFullName) = false
     else shouldIncludeRepo o p.(repoFullName) username = true) /\
    (nonempty o.(repos) = true \/ (forall c, cached = Some c -> ~ In p c) ->
     p.(mergedAt) <> ""%string /\ isAllowedBaseBranch p.(baseBranch) = true))
  (fetchAllMergedPRs_run o env cached allItems tz_offset username since until).
Proof.
  intros o env cached items tz u since until. apply Forall_forall. intros p Hp.
  unfold fetchAllMergedPRs_run in Hp. destruct (nonempty (repos o)) eqn:Hr.
  - apply dedup_and_sort_in in Hp.
    pose proof (fetchPRsFromSpecificRepos_spec o env tz u since until) as Hs.
    destruct (fetchPRsFromSpecificRepos o env tz u since until) as [prs scanned].
    destruct Hs as (_ & _ & Hs). rewrite Forall_forall in Hs.
    destruct (Hs p Hp) as (H1 & H2 & H3 & H4). auto.
  - pose proof (fetchPRsViaGlobalSearch_filtered o u cached (env_details env) items) as Hg.
    rewrite Forall_forall in Hg.
    assert (Hgp : forall p, In p (fst (fst (fetchPRsViaGlobalSearch o u cached
                    (env_details env) items))) ->
             shouldIncludeRepo o (repoFullName p) u = true /\
             (false = true \/ (forall c, cached = Some c -> ~ In p c) ->
              mergedAt p <> ""%string /\ isAllowedBaseBranch (baseBranch p) = true)).
    { intros q Hq. destruct (Hg q Hq) as [H1 H2]. split; [exact H1|].
      intros [H|H]; [discriminate|].
      destruct cached as [c|]; [|auto].
      exfalso. apply (H c eq_refl).
      exact (fetchPRsViaGlobalSearch_from_cache o u c (env_details env) items q Hq). }
    destruct (negb (skipOrgScan o)); apply dedup_and_sort_in in Hp; [|auto].
    apply in_app_or in Hp as [Hp|Hp]; [auto|].
    set (found := new_StrSet _) in Hp.
    pose proof (fetchPRsFromOrgRepos_spec o env tz u since until found) as Ho.
    destruct (fetchPRsFromOrgRepos o env tz u since until found) as [prs scanned].
    destruct Ho as (_ & _ & Ho). rewrite Forall_forall in Ho.
    destruct (Ho p Hp) as (_ & _ & H1 & H2 & H3). auto.
Qed.

(** C4: [shouldIncludeRepo] rejects an excluded repo first, then a repo
    outside the scope ([personal]: owner equal to the user case-insensitively;
    [orgs]: the others); what passes both is decided by the repo allow-list
    when it is non-empty, else by the org allow-list (owner listed) when that
    is non-empty, else accepted.  A non-empty repo allow-list short-circuits
    the scope filter: [fetchAllMergedPRs] then takes the PRs of exactly the
    listed repos that are not excluded, the same whatever the scope, and
    neither the global search nor the org scan (the callers of
    [shouldIncludeRepo]) runs. *)
Theorem shouldIncludeRepo_order_override : forall o repoFullName username,
  shouldIncludeRepo o repoFullName username =
    (negb (opt_includes o.(excludeRepos) repoFullName) &&
     scope_ok o repoFullName username &&
     (if nonempty o.(repos) then includes (list_of o.(repos)) repoFullName
      else if nonempty o.(orgs) then
        negb (String.eqb (split_slash_first repoFullName) ""%string) &&
        includes (list_of o.(orgs)) (split_slash_first repoFullName)
      else true))%bool /\
  (nonempty o.(repos) = true ->
   (forall r, In r (specificReposScanned o) <->
              In r (list_of o.(repos)) /\ opt_includes o.(excludeRepos) r = false) /\
   forall s env cached allItems tz_offset since until,
     fetchAllMergedPRs_run (with_scope o s) env cached allItems tz_offset username since until =
     dedup_and_sort
       (flat_map (fun r => match listMergedPRs env tz_offset username r since until with
                           | Some found => found | None => [] end)
                 (specificReposScanned o))).
Proof.
  intros o r u. split.
  - unfold shouldIncludeRepo, scope_ok, isOrgRepo.
    destruct (opt_includes _ r); [reflexivity|]. simpl.
    destruct (scope o) as [[| |]|]; simpl;
      destruct (String.eqb _ _); simpl; try reflexivity;
      destruct (nonempty (repos o)); try reflexivity;
      destruct (nonempty (orgs o)); try reflexivity;
      destruct (String.eqb (split_slash_first r) ""); reflexivity.
  - intros Hne. split.
    + intros r'. unfold specificReposScanned. rewrite Hne.
      rewrite filter_In. destruct (opt_includes _ r'); simpl; intuition congruence.
    + intros sc env cached items tz since until.
      unfold fetchAllMergedPRs_run. cbn [with_scope repos]. rewrite Hne.
      assert (E : fetchPRsFromSpecificRepos (with_scope o sc) env tz u since until =
                  fetchPRsFromSpecificRepos o env tz u since until) by reflexivity.
      rewrite E. f_equal.
      pose proof (fetchPRsFromSpecificRepos_spec o env tz u since until) as Hs.
      destruct (fetchPRsFromSpecificRepos o env tz u since until) as [prs scanned].
      destruct Hs as (-> & -> & _). reflexivity.
Qed.

(* ------------------------------------------------------------------ *)
(** ** Configuration (cache.ts, lines 168-243) *)

(** [String.prototype.trim] removes the white space and line terminators at
    both ends; among 8-bit code units these are tab, line feed, vertical
    tab, form feed, carriage return, space and no-break space. *)
Definition is_js_space (c : ascii) : bool :=
  let n := nat_of_ascii c in
  (Nat.leb 9 n && Nat.leb n 13) || Nat.eqb n 32 || Nat.eqb n 160.

Fixpoint trim_start (s : string) : string :=
  match s with
  | EmptyString => EmptyString
  | String c r => if is_js_space c then trim_start r else s
  end.

Fixpoint trim_end (s : string) : string :=
  match s with
  | EmptyString => EmptyString
  | String c r =>
      let r' := trim_end r in
      if String.eqb r' ""%string && is_js_space c then EmptyString else String c r'
  end.

(** [s.trim()] *)
Definition trim (s : string) : string := trim_end (trim_start s).

Definition nl : string := String (ascii_of_nat 10) EmptyString.

(** [Config] *)
Record Config := mkConfig {
  githubToken : string;
  llmApiKey : string;
  llmModel : string
}.

(** [!value] for [process.env[name]]: unset or empty. *)
Definition env_falsy (value : option string) : bool :=
  match value with None => true | Some v => String.eqb v ""%string end.

Definition requireEnv_message (name : string) : string :=
  ("Missing required environment variable: " ++ name ++ nl ++
   "Please set " ++ name ++ " before running the command.")%string.

(** [requireEnv]: [inl message] is the [ConfigError] thrown. *)
Definition requireEnv (env : string -> option string) (name : string) : string + string :=
  let value := env name in
  if env_falsy value || String.eqb (trim (match value with Some v => v | None => ""%string end)) ""%string
  then inl (requireEnv_message name)
  else inr (trim (match value with Some v => v | None => ""%string end)).

(** [optionalEnv]: [value?.trim() || defaultValue]. *)
Definition optionalEnv (env : string -> option string) (name defaultValue : string) : string :=
  match env name with
  | None => defaultValue
  | Some v => if String.eqb (trim v) ""%string then defaultValue else trim v
  end.

Definition default_llmModel : string := "gemini-2.5-flash-preview-05-20"%string.

(** [loadConfig]: the fields are evaluated in order, the first throw wins. *)
Definition loadConfig (env : string -> option string) : string + Config :=
  match requireEnv env "GITHUB_TOKEN"%string with
  | inl e => inl e
  | inr token =>
      match requireEnv env "LLM_API_KEY"%string with
      | inl e => inl e
      | inr key => inr (mkConfig token key (optionalEnv env "LLM_MODEL"%string default_llmModel))
      end
  end.

(** [validateConfig]: [Some message] is the [ConfigError] thrown. *)
Definition validateConfig (env : string -> option string) : option string :=
  let missingVars :=
    ((if env_falsy (env "GITHUB_TOKEN"%string) then ["GITHUB_TOKEN"%string] else []) ++
     (if env_falsy (env "LLM_API_KEY"%string) then ["LLM_API_KEY"%string] else [])) in
  if Nat.ltb 0 (length missingVars) then
    Some ("Missing required environment variables:" ++ nl ++
          join nl (map (fun v => "  - " ++ v) missingVars) ++ nl ++ nl ++
          "Please set these variables before running the command:" ++ nl ++
          "  export GITHUB_TOKEN=your_github_token" ++ nl ++
          "  export LLM_API_KEY=your_google_api_key")%string
  else None.

Fixpoint all_space (s : string) : bool :=
  match s with
  | EmptyString => true
  | String c r => is_js_space c && all_space r
  end.

(** An unset variable, or one holding only white space. *)
Definition blank (value : option string) : bool :=
  match value with None => true | Some v => all_space v end.

(** [t] is [v] with the white space at its ends removed, and is not
    empty. *)
Definition trimmed_of (v t : string) : Prop :=
  exists lead trail, v = (lead ++ t ++ trail)%string /\
    all_space lead = true /\ all_space trail = true /\
    (exists c r, t = String c r /\ is_js_space c = false) /\
    (exists u c, t = (u ++ String c "")%string /\ is_js_space c = false).

Example trim_example :
  trim (String (ascii_of_nat 9) "  ghp_x1 " ++ nl) = "ghp_x1"%string.
Proof. reflexivity. Qed.

Lemma string_app_nil_r (s : string) : (s ++ "")%string = s.
Proof. induction s as [|c s IH]; simpl; [reflexivity|now rewrite IH]. Qed.

Lemma all_space_app a b : all_space (a ++ b) = all_space a && all_space b.
Proof. induction a as [|c a IH]; simpl; [reflexivity|now rewrite IH, andb_assoc]. Qed.

Lemma trim_start_spec s :
  exists lead, s = (lead ++ trim_start s)%string /\ all_space lead = true /\
    (trim_start s = ""%string \/ exists c r, trim_start s = String c r /\ is_js_space c = false).
Proof.
  induction s as [|c r (lead & IH1 & IH2 & IH3)].
  - exists ""%string. simpl. auto.
  - simpl. destruct (is_js_space c) eqn:E.
    + exists (String c lead). simpl. rewrite E, IH2. split; [now f_equal|auto].
    + exists ""%string. split; [reflexivity|split; [reflexivity|right; eauto]].
Qed.

Lemma trim_end_spec s :
  exists trail, s = (trim_end s ++ trail)%string /\ all_space trail = true /\
    (trim_end s = ""%string \/ exists u c, trim_end s = (u ++ String c "")%string /\
                                          is_js_space c = false).
Proof.
  induction s as [|c r (trail & IH1 & IH2 & IH3)].
  - exists ""%string. simpl. auto.
  - cbn [trim_end]. destruct (String.eqb_spec (trim_end r) "") as [E|E].
    + destruct (is_js_space c) eqn:Ec; cbn [andb].
      * exists (String c trail). cbn. rewrite Ec, IH2. split; [|auto].
        rewrite IH1 at 1. rewrite E. reflexivity.
      * exists trail. rewrite E. split; [rewrite IH1 at 1; rewrite E; reflexivity|].
        split; [exact IH2|right]. exists ""%string, c. auto.
    + cbn [andb]. exists trail. split; [simpl; now rewrite <- IH1|]. split; [exact IH2|].
      right. destruct IH3 as [|(u & d & Hu & Hd)]; [contradiction|].
      exists (String c u), d. rewrite Hu. auto.
Qed.

Lemma trim_end_first c r :
  is_js_space c = false -> trim_end (String c r) = String c (trim_end r).
Proof. intros H. cbn [trim_end]. now rewrite H, andb_false_r. Qed.

Lemma all_space_trim_start s : all_space s = true -> trim_start s = ""%string.
Proof.
  induction s as [|c r IH]; simpl; [reflexivity|].
  intros H. apply andb_true_iff in H as [-> H]. now apply IH.
Qed.

Lemma trim_empty_iff s : String.eqb (trim s) "" = all_space s.
Proof.
  unfold trim. destruct (trim_start_spec s) as (lead & E & Hl & [H|(c & r & H & Hc)]).
  - rewrite H. simpl. rewrite E, H, all_space_app, Hl. reflexivity.
  - rewrite H, trim_end_first by exact Hc. rewrite E, H, all_space_app, Hl. simpl.
    now rewrite Hc.
Qed.

Lemma trim_trimmed_of s : all_space s = false -> trimmed_of s (trim s).
Proof.
  intros Hs. unfold trim.
  destruct (trim_start_spec s) as (lead & E & Hl & [H|(c & r & H & Hc)]).
  - rewrite E, H, string_app_nil_r, Hl in Hs. discriminate.
  - destruct (trim_end_spec (trim_start s)) as (trail & E2 & Ht & _).
    exists lead, trail. split; [rewrite E at 1; rewrite E2 at 1; now rewrite string_app_assoc|].
    split; [exact Hl|split; [exact Ht|]].
    rewrite H, trim_end_first by exact Hc. split; [eauto|].
    destruct (trim_end_spec (String c r)) as (trail' & _ & _ & [H2|H2]).
    + rewrite trim_end_first in H2 by exact Hc. discriminate.
    + rewrite trim_end_first in H2 by exact Hc. exact H2.
Qed.

Lemma requireEnv_cases env name :
  (blank (env name) = true /\ requireEnv env name = inl (requireEnv_message name)) \/
  (exists v, env name = Some v /\ all_space v = false /\ requireEnv env name = inr (trim v)).
Proof.
  unfold requireEnv, blank. destruct (env name) as [v|]; [|left; auto].
  cbn [env_falsy]. rewrite trim_empty_iff.
  destruct (String.eqb_spec v "") as [->|Hv]; [left; auto|].
  destruct (all_space v) eqn:E; simpl; [left; auto|right; eauto].
Qed.

Lemma blank_falsy value : env_falsy value = true -> blank value = true.
Proof.
  destruct value as [v|]; simpl; [|reflexivity].
  now destruct (String.eqb_spec v "") as [->|].
Qed.

(** X20: [loadConfig] succeeds exactly when [GITHUB_TOKEN] and
    [LLM_API_KEY] both hold something other than white space; the tokens it
    returns are the variables' values with the white space at their ends
    removed (never empty), and the model is [LLM_MODEL] so trimmed, or the
    default when that is unset or blank. Otherwise it throws the
    [requireEnv] error of [GITHUB_TOKEN] when that one is unset or blank,
    else of [LLM_API_KEY]. *)
Theorem loadConfig_result : forall env,
  (forall cfg, loadConfig env = inr cfg ->
     (exists v, env "GITHUB_TOKEN"%string = Some v /\ trimmed_of v cfg.(githubToken)) /\
     (exists v, env "LLM_API_KEY"%string = Some v /\ trimmed_of v cfg.(llmApiKey)) /\
     ((blank (env "LLM_MODEL"%string) = true /\ cfg.(llmModel) = default_llmModel) \/
      (exists v, env "LLM_MODEL"%string = Some v /\ trimmed_of v cfg.(llmModel)))) /\
  (forall e, loadConfig env = inl e <->
     (blank (env "GITHUB_TOKEN"%string) = true /\
      e = requireEnv_message "GITHUB_TOKEN"%string) \/
     (blank (env "GITHUB_TOKEN"%string) = false /\ blank (env "LLM_API_KEY"%string) = true /\
      e = requireEnv_message "LLM_API_KEY"%string)).
Proof.
  intros env. unfold loadConfig.
  destruct (requireEnv_cases env "GITHUB_TOKEN"%string) as [[Hb ->]|(v & Hv & Hs & ->)].
  - split; [discriminate|]. intros e. rewrite Hb. split.
    + intros [= <-]. auto.
    + intros [[_ ->]|[H _]]; [reflexivity|discriminate].
  - assert (Hb : blank (env "GITHUB_TOKEN"%string) = false) by (rewrite Hv; exact Hs).
    destruct (requireEnv_cases env "LLM_API_KEY"%string) as [[Hb2 ->]|(w & Hw & Hs2 & ->)].
    + split; [discriminate|]. intros e. rewrite Hb, Hb2. split.
      * intros [= <-]. auto.
      * intros [[H _]|[_ [_ ->]]]; [discriminate|reflexivity].
    + split.
      * intros cfg [= <-]. cbn [githubToken llmApiKey llmModel].
        split; [exists v; split; [exact Hv|now apply trim_trimmed_of]|].
        split; [exists w; split; [exact Hw|now apply trim_trimmed_of]|].
        unfold optionalEnv, blank. destruct (env "LLM_MODEL"%string) as [m|]; [|auto].
        rewrite trim_empty_iff. destruct (all_space m) eqn:Em; [auto|].
        right. exists m. split; [reflexivity|now apply trim_trimmed_of].
      * intros e. split; [discriminate|].
        rewrite Hb, Hw. cbn [blank]. rewrite Hs2.
        intros [[H _]|[_ [H _]]]; discriminate.
Qed.

(** X21: [validateConfig] passes exactly when [GITHUB_TOKEN] and
    [LLM_API_KEY] are both set and not empty. Whenever [loadConfig]
    succeeds, [validateConfig] passes; when [validateConfig] passes,
    [loadConfig] still throws exactly when one of the two variables holds
    only white space. *)
Theorem validateConfig_vs_loadConfig : forall env,
  (validateConfig env = None <->
     env_falsy (env "GITHUB_TOKEN"%string) = false /\
     env_falsy (env "LLM_API_KEY"%string) = false) /\
  ((exists cfg, loadConfig env = inr cfg) -> validateConfig env = None) /\
  (validateConfig env = None ->
     ((exists e, loadConfig env = inl e) <->
      blank (env "GITHUB_TOKEN"%string) = true \/ blank (env "LLM_API_KEY"%string) = true)).
Proof.
  intros env.
  assert (Hval : validateConfig env = None <->
     env_falsy (env "GITHUB_TOKEN"%string) = false /\
     env_falsy (env "LLM_API_KEY"%string) = false).
  { unfold validateConfig.
    destruct (env_falsy (env "GITHUB_TOKEN"%string)), (env_falsy (env "LLM_API_KEY"%string));
      simpl; split; intros H; try discriminate; try (destruct H; discriminate); auto. }
  assert (Hload : (exists e, loadConfig env = inl e) <->
      blank (env "GITHUB_TOKEN"%string) = true \/ blank (env "LLM_API_KEY"%string) = true).
  { unfold loadConfig.
    destruct (requireEnv_cases env "GITHUB_TOKEN"%string) as [[Hb ->]|(v & Hv & Hs & ->)].
    - split; [intros _; now left|intros _; eauto].
    - rewrite Hv. cbn [blank]. rewrite Hs.
      destruct (requireEnv_cases env "LLM_API_KEY"%string) as [[Hb2 ->]|(w & Hw & Hs2 & ->)].
      + split; [intros _; now right|intros _; eauto].
      + rewrite Hw. cbn [blank]. rewrite Hs2.
        split; [intros [e He]; discriminate|intros [H|H]; discriminate]. }
  split; [exact Hval|split; [|intros _; exact Hload]].
  intros [cfg Hc]. apply Hval.
  destruct (env_falsy (env "GITHUB_TOKEN"%string)) eqn:E1.
  - apply blank_falsy in E1. exfalso.
    assert (exists e, loadConfig env = inl e) as [e He] by (apply Hload; auto). congruence.
  - destruct (env_falsy (env "LLM_API_KEY"%string)) eqn:E2; [|auto].
    apply blank_falsy in E2. exfalso.
    assert (exists e, loadConfig env = inl e) as [e He] by (apply Hload; auto). congruence.
Qed.

(* ------------------------------------------------------------------ *)
(** ** The edit distance ([levenshteinDistance], grouping.ts, lines 37-67) *)

Section Levenshtein.
Local Open Scope nat_scope.

(** The recurrence the [dp] matrix fills, on the prefixes read backwards:
    [lev xs ys] is [dp[i][j]] for the prefixes [rev xs] and [rev ys]. *)
Fixpoint lev (xs ys : list ascii) {struct xs} : nat :=
  match xs with
  | [] => length ys
  | a :: xs' =>
      (fix lev_a (ys : list ascii) : nat :=
         match ys with
         | [] => length xs
         | b :: ys' =>
             Nat.min (lev xs' ys + 1)
               (Nat.min (lev_a ys' + 1) (lev xs' ys' + (if ascii_eqb a b then 0 else 1)))
         end) ys
  end.

Lemma lev_nil_r xs : lev xs [] = length xs.
Proof. destruct xs; reflexivity. Qed.

Lemma lev_cons a xs b ys :
  lev (a :: xs) (b :: ys) =
  Nat.min (lev xs (b :: ys) + 1)
    (Nat.min (lev (a :: xs) ys + 1) (lev xs ys + (if ascii_eqb a b then 0 else 1))).
Proof. reflexivity. Qed.

(** The prefixes of [rest] extended one character at a time after [q],
    each read backwards. *)
Fixpoint ext_prefixes (q rest : list ascii) : list (list ascii) :=
  match rest with
  | [] => []
  | b :: rest' => (b :: q) :: ext_prefixes (b :: q) rest'
  end.

Lemma next_row_lev a P q rest :
  next_row a rest (map (lev P) (ext_prefixes q rest)) (lev P q) (lev (a :: P) q) =
  map (lev (a :: P)) (ext_prefixes q rest).
Proof.
  revert q; induction rest as [|b rest IH]; intros q; [reflexivity|].
  cbn [ext_prefixes map next_row].
  rewrite <- IH, lev_cons. reflexivity.
Qed.

Lemma lev_rows_lev i as_ bs P :
  i = S (length P) ->
  lev_rows i as_ bs (lev P [] :: map (lev P) (ext_prefixes [] bs)) =
  lev (rev as_ ++ P) [] :: map (lev (rev as_ ++ P)) (ext_prefixes [] bs).
Proof.
  revert i P; induction as_ as [|a as' IH]; intros i P Hi; [reflexivity|].
  cbn [lev_rows tl hd].
  assert (Hi' : i = lev (a :: P) []) by (rewrite lev_nil_r; simpl; lia).
  rewrite Hi' at 2 3. rewrite next_row_lev.
  rewrite IH by (simpl; lia). cbn [rev]. rewrite <- app_assoc. reflexivity.
Qed.

Lemma ext_prefixes_length q rest :
  map (@length ascii) (ext_prefixes q rest) = seq (S (length q)) (length rest).
Proof.
  revert q; induction rest as [|b rest IH]; intros q; [reflexivity|].
  simpl. f_equal. apply IH.
Qed.

Lemma ext_prefixes_last q rest d :
  rest <> [] -> last (ext_prefixes q rest) d = rev rest ++ q.
Proof.
  revert q; induction rest as [|b rest IH]; intros q H; [contradiction|].
  destruct rest as [|c rest'].
  - reflexivity.
  - transitivity (last (ext_prefixes (b :: q) (c :: rest')) d); [reflexivity|].
    rewrite IH by discriminate. simpl. rewrite <- !app_assoc. reflexivity.
Qed.

Lemma last_cons_ne {A} (x : A) l d : l <> [] -> last (x :: l) d = last l d.
Proof. destruct l; [contradiction|reflexivity]. Qed.

Lemma last_map {A B} (f : A -> B) l d d' : l <> [] -> last (map f l) d = f (last l d').
Proof.
  intros H. induction l as [|x l IH]; [contradiction|].
  destruct l as [|y l]; [reflexivity|].
  rewrite map_cons, last_cons_ne by discriminate.
  rewrite last_cons_ne by discriminate. apply IH. discriminate.
Qed.

Lemma levenshteinDistance_lev s t :
  levenshteinDistance s t = lev (rev (list_ascii_of_string s)) (rev (list_ascii_of_string t)).
Proof.
  unfold levenshteinDistance.
  set (bs := list_ascii_of_string t).
  assert (Hrow0 : seq 0 (S (length bs)) = lev [] [] :: map (lev []) (ext_prefixes [] bs)).
  { simpl. f_equal. rewrite (map_ext (lev []) (@length ascii)) by reflexivity.
    rewrite ext_prefixes_length. reflexivity. }
  rewrite Hrow0, lev_rows_lev by reflexivity. rewrite app_nil_r.
  destruct bs as [|b bs'] eqn:Eb.
  - simpl. rewrite lev_nil_r. reflexivity.
  - rewrite <- Eb.
    assert (Hne : ext_prefixes [] bs <> []) by (rewrite Eb; discriminate).
    rewrite last_cons_ne by (intros H; apply map_eq_nil in H; contradiction).
    rewrite (last_map _ _ _ []) by exact Hne.
    rewrite ext_prefixes_last by (rewrite Eb; discriminate).
    now rewrite app_nil_r.
Qed.
End Levenshtein.

Section LevenshteinProps.
Local Open Scope nat_scope.

Lemma ascii_eqb_sym a b : ascii_eqb a b = ascii_eqb b a.
Proof.
  destruct (ascii_eqb a b) eqn:E1, (ascii_eqb b a) eqn:E2; try reflexivity.
  - apply ascii_eqb_iff in E1. subst. rewrite <- E2. symmetry. now apply ascii_eqb_iff.
  - apply ascii_eqb_iff in E2. subst. rewrite <- E1. now apply ascii_eqb_iff.
Qed.

Lemma lev_sym_bound n x y : length x + length y <= n -> lev x y = lev y x.
Proof.
  revert x y; induction n as [|n IH]; intros x y H.
  - destruct x, y; simpl in H; try lia; reflexivity.
  - destruct x as [|a x], y as [|b y].
    + reflexivity.
    + rewrite lev_nil_r. reflexivity.
    + rewrite lev_nil_r. reflexivity.
    + rewrite !lev_cons, ascii_eqb_sym.
      simpl in H.
      rewrite (IH x (b :: y)) by (simpl; lia).
      rewrite (IH (a :: x) y) by (simpl; lia).
      rewrite (IH x y) by lia. lia.
Qed.

Lemma lev_sym x y : lev x y = lev y x.
Proof. apply (lev_sym_bound (length x + length y)). lia. Qed.

Lemma lev_refl x : lev x x = 0.
Proof.
  induction x as [|a x IH]; [reflexivity|].
  rewrite lev_cons. replace (ascii_eqb a a) with true by (symmetry; now apply ascii_eqb_iff).
  lia.
Qed.

Lemma lev_zero x y : lev x y = 0 -> x = y.
Proof.
  revert y; induction x as [|a x IH]; intros y H.
  - destruct y; [reflexivity|discriminate].
  - destruct y as [|b y]; [discriminate|].
    rewrite lev_cons in H. destruct (ascii_eqb a b) eqn:E; [|lia].
    apply ascii_eqb_iff in E. subst b. f_equal. apply IH. lia.
Qed.

Lemma lev_upper x y : lev x y <= Nat.max (length x) (length y).
Proof.
  revert y; induction x as [|a x IH]; intros y; [simpl; lia|].
  induction y as [|b y IHy]; [rewrite lev_nil_r; simpl; lia|].
  rewrite lev_cons. specialize (IH y). simpl.
  destruct (ascii_eqb a b); lia.
Qed.

Lemma lev_lower x y : length x - length y <= lev x y /\ length y - length x <= lev x y.
Proof.
  revert y; induction x as [|a x IH]; intros y; [simpl; lia|].
  induction y as [|b y IHy]; [rewrite lev_nil_r; simpl; lia|].
  rewrite lev_cons. pose proof (IH (b :: y)) as H1. pose proof (IH y) as H3.
  cbn [length] in *. destruct (ascii_eqb a b); lia.
Qed.

Lemma length_list_ascii s : length (list_ascii_of_string s) = String.length s.
Proof. induction s; simpl; auto. Qed.

Lemma levenshteinDistance_sym s t : levenshteinDistance s t = levenshteinDistance t s.
Proof. rewrite !levenshteinDistance_lev. apply lev_sym. Qed.

Lemma levenshteinDistance_zero s t : levenshteinDistance s t = 0 <-> s = t.
Proof.
  rewrite levenshteinDistance_lev. split.
  - intros H. apply lev_zero in H. apply (f_equal (@rev ascii)) in H.
    rewrite !rev_involutive in H.
    rewrite <- (string_of_list_ascii_of_string s), <- (string_of_list_ascii_of_string t).
    now f_equal.
  - intros ->. apply lev_refl.
Qed.

Lemma levenshteinDistance_bounds s t :
  String.length s - String.length t <= levenshteinDistance s t /\
  String.length t - String.length s <= levenshteinDistance s t /\
  levenshteinDistance s t <= Nat.max (String.length s) (String.length t).
Proof.
  rewrite levenshteinDistance_lev, <- !length_list_ascii.
  pose proof (lev_lower (rev (list_ascii_of_string s)) (rev (list_ascii_of_string t))).
  pose proof (lev_upper (rev (list_ascii_of_string s)) (rev (list_ascii_of_string t))).
  rewrite !length_rev in *. lia.
Qed.
End LevenshteinProps.

(** X22: the edit distance [levenshteinDistance] is symmetric, is zero
    exactly on equal strings, and lies between the difference of the
    lengths and the larger length. *)
Theorem levenshteinDistance_metric : forall s t,
  levenshteinDistance s t = levenshteinDistance t s /\
  (levenshteinDistance s t = 0%nat <-> s = t) /\
  (String.length s - String.length t <= levenshteinDistance s t)%nat /\
  (String.length t - String.length s <= levenshteinDistance s t)%nat /\
  (levenshteinDistance s t <= Nat.max (String.length s) (String.length t))%nat.
Proof.
  intros s t.
  destruct (levenshteinDistance_bounds s t) as (H1 & H2 & H3).
  split; [apply levenshteinDistance_sym|split; [apply levenshteinDistance_zero|auto]].
Qed.

(** X23: on strings of characters U+0000-U+00FF, [levenshteinSimilarity]
    lies between 0 and 1, is symmetric, and is 1 exactly when the two
    strings are equal once lower-cased ([toLowerCase] keeps the length of
    such strings). *)
Theorem levenshteinSimilarity_range : forall s1 s2,
  (0 <= levenshteinSimilarity s1 s2 <= 1)%Q /\
  levenshteinSimilarity s1 s2 = levenshteinSimilarity s2 s1 /\
  (levenshteinSimilarity s1 s2 == 1 <-> toLowerCase s1 = toLowerCase s2)%Q.
Proof.
  intros s1 s2. split; [split|split].
  - unfold levenshteinSimilarity.
    destruct (Nat.max _ _ =? 0)%nat eqn:E; [discriminate|].
    apply Nat.eqb_neq in E.
    pose proof (levenshteinDistance_bounds (toLowerCase s1) (toLowerCase s2)) as (_ & _ & H).
    rewrite !toLowerCase_length in H.
    assert (Hd : (Q_of_nat (levenshteinDistance (toLowerCase s1) (toLowerCase s2))
                  / Q_of_nat (Nat.max (String.length s1) (String.length s2)) <= 1)%Q).
    { apply Qle_shift_div_r; [unfold Q_of_nat, Qlt; simpl; lia|].
      rewrite Qmult_1_l. unfold Q_of_nat, Qle; simpl. lia. }
    set (q := (_ / _)%Q) in Hd |- *.
    rewrite <- (Qplus_le_l 0 (1 - q) q).
    setoid_replace (1 - q + q)%Q with 1%Q by ring.
    rewrite Qplus_0_l. exact Hd.
  - apply levenshteinSimilarity_le_1.
  - unfold levenshteinSimilarity. rewrite Nat.max_comm, levenshteinDistance_sym. reflexivity.
  - unfold levenshteinSimilarity.
    destruct (Nat.max _ _ =? 0)%nat eqn:E.
    + apply Nat.eqb_eq in E.
      assert (String.length s1 = 0%nat /\ String.length s2 = 0%nat) as [L1 L2] by lia.
      destruct s1, s2; try discriminate. split; reflexivity.
    + apply Nat.eqb_neq in E.
      rewrite <- levenshteinDistance_zero.
      set (d := levenshteinDistance _ _). set (m := Nat.max _ _).
      split.
      * intros H. destruct d as [|d']; [reflexivity|exfalso].
        assert (Hpos : (0 < Q_of_nat (S d') / Q_of_nat m)%Q).
        { apply Qlt_shift_div_l; [unfold Q_of_nat, Qlt; simpl; lia|].
          rewrite Qmult_0_l. unfold Q_of_nat, Qlt; simpl. lia. }
        assert (H' : (Q_of_nat (S d') / Q_of_nat m == 0)%Q).
        { setoid_replace (Q_of_nat (S d') / Q_of_nat m)%Q
            with (1 - (1 - Q_of_nat (S d') / Q_of_nat m))%Q by ring.
          rewrite H. reflexivity. }
        rewrite H' in Hpos. apply (Qlt_irrefl 0 Hpos).
      * intros ->. unfold Q_of_nat. simpl. unfold Qdiv. rewrite Qmult_0_l. reflexivity.
Qed.

(* ------------------------------------------------------------------ *)
(** ** [listUserRepositories] (github/client.ts, lines 137-207) *)

(** [repository_url.match(/repos\/([^/]+)\/([^/]+)$/)] tried at the start of
    [s]: its two groups. *)
Definition repo_pair_match_at (s : string) : option (string * string) :=
  match strip_prefix "repos/" s with
  | Some r =>
      match take_until "/"%char r with
      | Some (owner, name) =>
          if negb (String.eqb owner "") && negb (String.eqb name "") &&
             negb (has_char "/"%char name)
          then Some (owner, name) else None
      | None => None
      end
  | None => None
  end.

(** The leftmost match. *)
Fixpoint repo_pair_search (s : string) : option (string * string) :=
  match repo_pair_match_at s with
  | Some m => Some m
  | None => match s with
            | String _ r => repo_pair_search r
            | EmptyString => None
            end
  end.

(** The fields of a repository of the REST API the client copies. *)
Record GitHubRepository := mkGitHubRepository {
  ghr_id : Z;
  ghr_name : string;
  ghr_full_name : string;
  ghr_owner_login : string;
  ghr_html_url : string;
  ghr_default_branch : string
}.

Record Repository := mkRepository {
  repo_id : Z;
  repo_name : string;
  repo_fullName : string;
  repo_owner : string;
  repo_url : string;
  repo_defaultBranch : string
}.

Definition toRepository (repo : GitHubRepository) : Repository :=
  mkRepository repo.(ghr_id) repo.(ghr_name) repo.(ghr_full_name)
    repo.(ghr_owner_login) repo.(ghr_html_url) repo.(ghr_default_branch).

(** [`/repos/${fullName}`] *)
Definition repo_endpoint (fullName : string) : string := ("/repos/" ++ fullName)%string.

(** The loop over the [repository_url]s of [allItems], with [repoMap] as an
    insertion-ordered association list. [details endpoint] is the answer of
    [this.request], [None] when it throws (the [catch] skips the item and
    adds nothing to the map). The result is the map and the repositories
    whose details were requested, in order. *)
Fixpoint listUserRepositories_loop (details : string -> option GitHubRepository)
    (urls : list string) (repoMap : list (string * Repository))
    : list (string * Repository) * list string :=
  match urls with
  | [] => (repoMap, [])
  | url :: rest =>
      match repo_pair_search url with
      | None => listUserRepositories_loop details rest repoMap
      | Some (owner, name) =>
          if negb (String.eqb owner "") && negb (String.eqb name "") then
            let fullName := (owner ++ "/" ++ name)%string in
            if existsb (fun kv => String.eqb (fst kv) fullName) repoMap then
              listUserRepositories_loop details rest repoMap
            else
              let repoMap' :=
                match details (repo_endpoint fullName) with
                | Some repo => repoMap ++ [(fullName, toRepository repo)]
                | None => repoMap
                end in
              let '(m, requested) := listUserRepositories_loop details rest repoMap' in
              (m, fullName :: requested)
          else listUserRepositories_loop details rest repoMap
      end
  end.

(** [listUserRepositories] from the search items on: [Array.from(repoMap.values())]
    and the details requests. *)
Definition listUserRepositories (details : string -> option GitHubRepository)
    (urls : list string) : list Repository * list string :=
  let '(repoMap, requested) := listUserRepositories_loop details urls [] in
  (map snd repoMap, requested).

(** The [owner/name] of each item whose URL matches. *)
Definition url_names (urls : list string) : list string :=
  flat_map (fun url => match repo_pair_search url with
                       | Some (owner, name) =>
                           if negb (String.eqb owner "") && negb (String.eqb name "")
                           then [(owner ++ "/" ++ name)%string] else []
                       | None => []
                       end) urls.

Definition fetchable (details : string -> option GitHubRepository) (k : string) : bool :=
  match details (repo_endpoint k) with Some _ => true | None => false end.

Example listUserRepositories_example :
  snd (listUserRepositories (fun e => if String.eqb e "/repos/a/b" then None
                                      else Some (mkGitHubRepository 1 "c" "a/c" "a" "u" "main"))
         ["https://api.github.com/repos/a/b"; "https://api.github.com/repos/a/c";
          "https://api.github.com/repos/a/b"; "https://api.github.com/repos/a/c"]%string)
  = ["a/b"; "a/c"; "a/b"]%string.
Proof. reflexivity. Qed.

Lemma existsb_fst_in (m : list (string * Repository)) k :
  existsb (fun kv => String.eqb (fst kv) k) m = true <-> In k (map fst m).
Proof.
  induction m as [|[k' v] m IH]; simpl; [split; [discriminate|intros []]|].
  rewrite orb_true_iff, IH. destruct (String.eqb_spec k' k); split; intuition congruence.
Qed.

Lemma includes_cons xs x y : includes (y :: xs) x = String.eqb x y || includes xs x.
Proof. reflexivity. Qed.

Lemma includes_app xs ys x : includes (xs ++ ys) x = includes xs x || includes ys x.
Proof. unfold includes. apply existsb_app. Qed.

Lemma listUserRepositories_loop_spec details urls m :
  (forall k v, In (k, v) m -> exists repo, details (repo_endpoint k) = Some repo /\
                                            v = toRepository repo) ->
  let '(m', requested) := listUserRepositories_loop details urls m in
  map fst m' = str_set_add_all (map fst m) (filter (fetchable details) (url_names urls)) /\
  (forall k v, In (k, v) m' -> exists repo, details (repo_endpoint k) = Some repo /\
                                             v = toRepository repo) /\
  (forall k, count_occ string_dec requested k =
     if includes (map fst m) k then 0%nat
     else if fetchable details k then (if includes (url_names urls) k then 1%nat else 0%nat)
     else count_occ string_dec (url_names urls) k).
Proof.
  revert m; induction urls as [|url rest IH]; intros m Hm.
  - simpl. split; [reflexivity|split; [exact Hm|]].
    intros k. destruct (includes _ k), (fetchable details k); reflexivity.
  - cbn [listUserRepositories_loop].
    unfold url_names; cbn [flat_map]; fold (url_names rest).
    destruct (repo_pair_search url) as [[owner name]|]; [|apply IH, Hm].
    destruct (negb (String.eqb owner "") && negb (String.eqb name "")); [|apply IH, Hm].
    set (k0 := (owner ++ "/" ++ name)%string). cbn [app].
    destruct (existsb (fun kv => String.eqb (fst kv) k0) m) eqn:Ek.
    + apply existsb_fst_in in Ek.
      assert (Hk0 : includes (map fst m) k0 = true) by now apply includes_iff.
      assert (Hf : fetchable details k0 = true).
      { apply in_map_iff in Ek as ([k v] & Hk & Hin). simpl in Hk. subst k.
        destruct (Hm _ _ Hin) as (repo & Hd & _). unfold fetchable. now rewrite Hd. }
      specialize (IH m Hm).
      destruct (listUserRepositories_loop details rest m) as [m' requested].
      destruct IH as (H1 & H2 & H3). split; [|split; [exact H2|]].
      * rewrite H1. cbn [filter]. rewrite Hf. cbn [str_set_add_all]. rewrite Hk0.
        reflexivity.
      * intros k. rewrite H3. cbn [count_occ]. rewrite includes_cons.
        destruct (string_dec k0 k) as [<-|Hne]; [now rewrite Hk0|].
        destruct (String.eqb_spec k k0); [congruence|]. reflexivity.
    + assert (Hnk : includes (map fst m) k0 = false).
      { destruct (includes (map fst m) k0) eqn:E; [|reflexivity].
        apply includes_iff, existsb_fst_in in E. congruence. }
      destruct (details (repo_endpoint k0)) as [repo|] eqn:Ed.
      * assert (Hm' : forall k v, In (k, v) (m ++ [(k0, toRepository repo)]) ->
                 exists repo, details (repo_endpoint k) = Some repo /\ v = toRepository repo).
        { intros k v Hin. apply in_app_or in Hin as [Hin|[Heq|[]]]; [now apply Hm|].
          injection Heq as <- <-. eauto. }
        specialize (IH _ Hm').
        destruct (listUserRepositories_loop details rest _) as [m' requested].
        destruct IH as (H1 & H2 & H3). split; [|split; [exact H2|]].
        -- rewrite H1, map_app. cbn [filter]. unfold fetchable at 2. rewrite Ed.
           cbn [str_set_add_all]. rewrite Hnk. reflexivity.
        -- intros k. cbn [count_occ]. rewrite H3, map_app, includes_app. cbn [map fst].
           rewrite !includes_cons.
           destruct (string_dec k0 k) as [<-|Hne].
           ++ rewrite String.eqb_refl, Hnk. unfold fetchable. rewrite Ed. reflexivity.
           ++ destruct (String.eqb_spec k k0); [congruence|]. cbn [orb includes existsb].
              rewrite !orb_false_r. reflexivity.
      * specialize (IH m Hm).
        destruct (listUserRepositories_loop details rest m) as [m' requested].
        destruct IH as (H1 & H2 & H3). split; [|split; [exact H2|]].
        -- rewrite H1. cbn [filter]. unfold fetchable at 2. rewrite Ed. reflexivity.
        -- intros k. cbn [count_occ]. rewrite H3, includes_cons.
           destruct (string_dec k0 k) as [<-|Hne].
           ++ rewrite Hnk. unfold fetchable. rewrite Ed. reflexivity.
           ++ destruct (String.eqb_spec k k0); [congruence|]. reflexivity.
Qed.

(** X24: [listUserRepositories] returns one repository per distinct
    [owner/name] of the search items whose details could be fetched, in
    order of first appearance, each built from its details response. A
    repository whose details are fetched is requested once; one whose
    details request throws is requested again for every item that names
    it, since only a success enters the map. *)
Theorem listUserRepositories_requests : forall details urls,
  let '(repoMap, requested) := listUserRepositories_loop details urls [] in
  listUserRepositories details urls = (map snd repoMap, requested) /\
  map fst repoMap = new_StrSet (filter (fetchable details) (url_names urls)) /\
  (forall k v, In (k, v) repoMap ->
     exists repo, details (repo_endpoint k) = Some repo /\ v = toRepository repo) /\
  (forall k, count_occ string_dec requested k =
     if fetchable details k then (if includes (url_names urls) k then 1%nat else 0%nat)
     else count_occ string_dec (url_names urls) k).
Proof.
  intros details urls. unfold listUserRepositories.
  pose proof (listUserRepositories_loop_spec details urls []) as H.
  destruct (listUserRepositories_loop details urls []) as [m requested].
  destruct H as (H1 & H2 & H3); [intros k v []|].
  split; [reflexivity|split; [exact H1|split; [exact H2|]]].
  intros k. rewrite H3. reflexivity.
Qed.

(* ------------------------------------------------------------------ *)
(** ** The shared cache instance ([getCache], [initCache], cache.ts, lines 153-166) *)

(** A [Cache] object: its identity (allocation number) and [enabled]. *)
Record CacheObj := mkCacheObj {
  cache_id : nat;
  cache_enabled : bool
}.

(** The module state: [globalCache] and the next allocation number. *)
Record CacheGlobals := mkCacheGlobals {
  globalCache : option CacheObj;
  next_id : nat
}.

(** [let globalCache: Cache | null = null] *)
Definition cacheGlobals_init : CacheGlobals := mkCacheGlobals None 0.

(** [new Cache(enabled)]: with [enabled], the constructor runs
    [ensureCacheDir], whose [mkdirSync] throws when the directory is missing
    and cannot be created ([dir_ok = false]); [None] is that throw, after
    which nothing is assigned. *)
Definition new_Cache (g : CacheGlobals) (enabled dir_ok : bool)
  : option (CacheObj * CacheGlobals) :=
  if enabled && negb dir_ok then None
  else Some (mkCacheObj g.(next_id) enabled, mkCacheGlobals g.(globalCache) (S g.(next_id))).

(** [getCache(enabled = true)]: [None] when it throws. *)
Definition getCache (g : CacheGlobals) (enabled dir_ok : bool) : option CacheObj * CacheGlobals :=
  match g.(globalCache) with
  | Some c => (Some c, g)
  | None =>
      match new_Cache g enabled dir_ok with
      | Some (c, g') => (Some c, mkCacheGlobals (Some c) g'.(next_id))
      | None => (None, g)
      end
  end.

(** [initCache(enabled)]: [None] when it throws. *)
Definition initCache (g : CacheGlobals) (enabled dir_ok : bool) : option CacheObj * CacheGlobals :=
  match new_Cache g enabled dir_ok with
  | Some (c, g') => (Some c, mkCacheGlobals (Some c) g'.(next_id))
  | None => (None, g)
  end.

(** Calls of [getCache] in sequence, with the given arguments and
    directory outcomes. *)
Fixpoint run_getCache (g : CacheGlobals) (args : list (bool * bool)) : list (option CacheObj) :=
  match args with
  | [] => []
  | (e, ok) :: rest => let '(c, g') := getCache g e ok in c :: run_getCache g' rest
  end.

Lemma run_getCache_some g c args :
  g.(globalCache) = Some c -> run_getCache g args = repeat (Some c) (length args).
Proof.
  intros H. induction args as [|[e ok] rest IH]; [reflexivity|].
  simpl. unfold getCache. rewrite H. simpl. now rewrite IH.
Qed.

Lemma new_Cache_enabled g e ok c g' :
  new_Cache g e ok = Some (c, g') -> c.(cache_enabled) = e.
Proof. unfold new_Cache. destruct (e && negb ok); [discriminate|]. now intros [= <- _]. Qed.

(** X25: [getCache] never hands out two different instances. Once
    [globalCache] holds an instance, every [getCache] call returns it,
    whatever its argument; an [initCache(e)] that returns an instance makes
    it, enabled as [e], the one every later [getCache] returns. A
    constructor that throws (only possible for an enabled cache) leaves the
    module state as it was, so in any sequence of [getCache] calls all the
    instances returned are one and the same. *)
Theorem getCache_keeps_instance :
  (forall g c args,
     g.(globalCache) = Some c -> run_getCache g args = repeat (Some c) (length args)) /\
  (forall g e ok args,
     let '(r, g') := initCache g e ok in
     (r = None -> g' = g) /\
     (forall c, r = Some c ->
        c.(cache_enabled) = e /\ run_getCache g' args = repeat (Some c) (length args))) /\
  (forall g ok, fst (getCache g false ok) <> None) /\
  (forall g args c1 c2,
     In (Some c1) (run_getCache g args) -> In (Some c2) (run_getCache g args) -> c1 = c2).
Proof.
  split; [exact run_getCache_some|split; [|split]].
  - intros g e ok args. unfold initCache.
    destruct (new_Cache g e ok) as [[c g1]|] eqn:E.
    + split; [discriminate|]. intros c' [= <-]. split.
      * exact (new_Cache_enabled g e ok c g1 E).
      * now apply run_getCache_some.
    + split; [reflexivity|discriminate].
  - intros g ok. unfold getCache. destruct (globalCache g); [discriminate|].
    simpl. discriminate.
  - intros g args. revert g. induction args as [|[e ok] rest IH]; intros g c1 c2;
      [intros []|].
    cbn [run_getCache]. unfold getCache.
    destruct (globalCache g) as [c|] eqn:Hg.
    + rewrite (run_getCache_some g c rest Hg).
      intros H1 H2.
      destruct H1 as [H1|H1]; [injection H1 as <-|apply repeat_spec in H1; injection H1 as <-];
      (destruct H2 as [H2|H2]; [injection H2 as <-|apply repeat_spec in H2; injection H2 as <-]);
      reflexivity.
    + destruct (new_Cache g e ok) as [[c g1]|] eqn:E.
      * rewrite (run_getCache_some (mkCacheGlobals (Some c) (next_id g1)) c rest eq_refl).
        intros H1 H2.
        destruct H1 as [H1|H1]; [injection H1 as <-|apply repeat_spec in H1; injection H1 as <-];
        (destruct H2 as [H2|H2]; [injection H2 as <-|apply repeat_spec in H2; injection H2 as <-]);
        reflexivity.
      * intros [H1|H1] [H2|H2]; try discriminate. exact (IH g c1 c2 H1 H2).
Qed.

(* ------------------------------------------------------------------ *)
(** ** The search pagination loop *)

(** The [while (true)] loop over the pages of [/search/issues], written the
    same way in [fetchPRsViaGlobalSearch] (part_000, lines 1293-1307) and
    [listMergedPRsViaSearch] (lines 1173-1187): [responses] gives, request
    after request, the page's [items] and [total_count]. The result is
    [allItems] ([None] when the responses run out) and the page numbers
    requested. *)
Fixpoint search_pages {Item : Type} (responses : list (list Item * nat))
    (allItems : list Item) (page : nat) : option (list Item) * list nat :=
  let perPage := 100%nat in
  match responses with
  | [] => (None, [])
  | (items, total_count) :: rest =>
      let allItems' := allItems ++ items in
      if Nat.ltb (length items) perPage || Nat.leb total_count (length allItems') then
        (Some allItems', [page])
      else
        let '(r, pages) := search_pages rest allItems' (S page) in
        (r, page :: pages)
  end.

Lemma search_pages_spec {Item : Type} (responses : list (list Item * nat)) allItems page T :
  Forall (fun resp => snd resp = T) responses ->
  let '(r, pages) := search_pages responses allItems page in
  pages = seq page (length pages) /\
  (length pages <= 1 \/ 100 * (length pages - 1) + length allItems < T)%nat /\
  (forall all, r = Some all ->
     exists used, all = allItems ++ concat (map fst used) /\
       length used = length pages /\ used = firstn (length pages) responses).
Proof.
  revert allItems page; induction responses as [|[items tc] rest IH];
    intros allItems page HT; cbn [search_pages].
  - split; [reflexivity|split; [cbn; lia|discriminate]].
  - apply Forall_cons_iff in HT as [Htc Hrest]. cbn [snd] in Htc. subst tc.
    destruct (Nat.ltb (length items) 100 || Nat.leb T (length (allItems ++ items))) eqn:E.
    + split; [reflexivity|split; [cbn; lia|]].
      intros all [= <-]. exists [(items, T)]. simpl. rewrite app_nil_r. auto.
    + apply orb_false_iff in E as [E1 E2].
      apply Nat.ltb_ge in E1. apply Nat.leb_gt in E2. rewrite length_app in E2.
      specialize (IH (allItems ++ items) (S page) Hrest).
      destruct (search_pages rest (allItems ++ items) (S page)) as [r pages].
      destruct IH as (H1 & H2 & H3).
      split; [cbn [length seq]; now rewrite <- H1|].
      split.
      * right. cbn [length]. rewrite length_app in H2. lia.
      * intros all Hall. destruct (H3 all Hall) as (used & -> & Hl & Hu).
        exists ((items, T) :: used). cbn [map concat length firstn].
        rewrite app_assoc. split; [reflexivity|split; [now rewrite Hl|now rewrite Hu]].
Qed.

(** X26: when every search page reports the same [total_count] [T], the
    pagination loop requests pages 1, 2, ... in turn and stops after at
    most [max(1, ceil(T / 100))] requests; the items it returns are those of
    the pages requested, in order. *)
Theorem search_pages_bounded : forall {Item : Type} (responses : list (list Item * nat)) T,
  Forall (fun resp => snd resp = T) responses ->
  let '(r, pages) := search_pages responses [] 1 in
  pages = seq 1 (length pages) /\
  (length pages <= Nat.max 1 ((T + 99) / 100))%nat /\
  (forall all, r = Some all ->
     all = concat (map fst (firstn (length pages) responses))).
Proof.
  intros Item responses T HT.
  pose proof (search_pages_spec responses [] 1 T HT) as H.
  destruct (search_pages responses [] 1) as [r pages].
  destruct H as (H1 & H2 & H3).
  split; [exact H1|split].
  - cbn [length] in H2. rewrite Nat.add_0_r in H2.
    destruct H2 as [H2|H2]; [lia|].
    assert (length pages - 1 + 1 <= (T + 99) / 100)%nat; [|lia].
    apply Nat.div_le_lower_bound; lia.
  - intros all Hall. destruct (H3 all Hall) as (used & -> & _ & ->). reflexivity.
Qed.

Lemma search_pages_bounded_witness :
  Forall (fun resp => snd resp = 150%nat) [(seq 0 100, 150%nat); (seq 100 50, 150%nat)] /\
  (let '(r, pages) := search_pages [(seq 0 100, 150%nat); (seq 100 50, 150%nat)] [] 1 in
   pages = seq 1 (length pages) /\
   (length pages <= Nat.max 1 ((150 + 99) / 100))%nat /\
   (forall all, r = Some all ->
      all = concat (map fst (firstn (length pages) [(seq 0 100, 150%nat); (seq 100 50, 150%nat)])))).
Proof.
  split.
  - repeat constructor.
  - apply (search_pages_bounded [(seq 0 100, 150%nat); (seq 100 50, 150%nat)] 150).
    repeat constructor.
Defined.

(* ------------------------------------------------------------------ *)
(** ** Cache files and writes ([getCachePath], [Cache.set], [Cache.get]) *)

Example path_join_example :
  path_join "/home/u/.whatidid-cache" "./prs_124d0054.json" =
    "/home/u/.whatidid-cache/prs_124d0054.json"%string /\
  path_join "/home/u/.whatidid-cache" "../x/prs.json" = "/home/u/x/prs.json"%string.
Proof. split; reflexivity. Qed.

















(** X6: [Cache.set] followed by [Cache.get] of the same prefix and
    parameters on an enabled cache: when the write succeeds, the data is
    read back as long as no more than [CACHE_TTL_MS] (24 hours) have passed;
    when the write throws and leaves the file as it was, the error is
    swallowed and every read answers as before the write.  A disabled cache
    writes nothing, whatever the write would do, and reads nothing. *)
Theorem cache_set_get : forall lc dir (A : Type) (fs : FileSystem (A := A)) T now
    prefix params (d : A),
  (now - T <= CACHE_TTL_MS ->
   cache_get lc dir true (cache_set_io lc dir true fs T prefix params d write_ok)
     now prefix params = Some d) /\
  (forall prefix' params',
   cache_get lc dir true
     (cache_set_io lc dir true fs T prefix params d
        (write_failed (fs (getCachePath dir (generateKey lc prefix params)))))
     now prefix' params' =
   cache_get lc dir true fs now prefix' params') /\
  (forall outcome, cache_set_io lc dir false fs T prefix params d outcome = fs) /\
  cache_get lc dir false fs now prefix params = None.
Proof.
  intros lc dir A fs T now prefix params d. split; [|split; [|split; reflexivity]].
  - intros H. unfold cache_get, cache_set_io. simpl.
    rewrite String.eqb_refl. simpl.
    destruct (now - T >? CACHE_TTL_MS) eqn:E; [|reflexivity].
    rewrite Z.gtb_ltb in E. apply Z.ltb_lt in E. lia.
  - intros prefix' params'. unfold cache_get, cache_set_io. simpl.
    destruct (String.eqb_spec (getCachePath dir (generateKey lc prefix' params'))
                (getCachePath dir (generateKey lc prefix params))) as [E|_];
      [now rewrite E|reflexivity].
Qed.

Lemma cache_set_get_witness :
  let fs : FileSystem (A := nat) := fun _ => None in
  3600000 - 0 <= CACHE_TTL_MS /\
  cache_get (fun _ _ => 0) "/home/u/.whatidid-cache" true
    (cache_set_io (fun _ _ => 0) "/home/u/.whatidid-cache" true fs 0 "prs"
       [("q"%string, "author:u"%string)] 7%nat write_ok)
    3600000 "prs" [("q"%string, "author:u"%string)] = Some 7%nat.
Proof.
  intros fs. assert (H : 3600000 - 0 <= CACHE_TTL_MS) by (vm_compute; discriminate).
  split; [exact H|].
  exact (proj1 (cache_set_get (fun _ _ => 0) "/home/u/.whatidid-cache" nat fs 0 3600000
           "prs" [("q"%string, "author:u"%string)] 7%nat) H).
Defined.


